(** * tg-db: a document store kept in the messages of a chat

    A shallow embedding of the codec ([encodeDocument], [decodeDocument]),
    of the filter engine ([matchesFilter], [matchesOperators],
    [getNestedValue], [deepMerge]) and of the store ([TelegramDB]: insert,
    find, update, delete and the message listener), with the properties of
    the specification stated and settled over the embedding. *)

From Stdlib Require Import String Ascii List ZArith NArith Bool Lia.
From Stdlib Require Import Decimal DecimalFacts DecimalString DecimalPos DecimalN.
Import ListNotations.
Local Open Scope string_scope.
Local Open Scope list_scope.
Local Open Scope Z_scope.

(* ===================================================================== *)
(** * Values *)
(* ===================================================================== *)

(** The values a document, a filter or a patch is made of.  Numbers are the
    integers (floating point is not represented); a string is a sequence
    of 8-bit code units; an object is the list of its own properties in
    the order they were defined (the language lists property names that
    are array indices first: a statement about the order of properties
    is made for names that are none).  Functions, dates and the
    properties inherited from a prototype are not represented: a
    statement that reads a property by its name is made for names that
    are not inherited, or for properties the object has. *)
Unset Elimination Schemes.
Inductive value : Type :=
| JUndefined
| JNull
| JBool (b : bool)
| JNum (n : Z)
| JStr (s : string)
| JArr (items : list value)
| JObj (props : list (string * value)).
Set Elimination Schemes.

(** [obj[k] = v] on a property list: an existing property keeps its place
    and takes the new value, a new one is added last. *)
Fixpoint set_property (k : string) (v : value) (props : list (string * value))
  : list (string * value) :=
  match props with
  | [] => [(k, v)]
  | (k', v') :: rest =>
      if String.eqb k' k then (k, v) :: rest
      else (k', v') :: set_property k v rest
  end.

(** ** Errors and outcomes *)

(** A thrown [Error] object: its [name] and its [message] properties. *)
Record Error : Type := mkError { error_name : string; error_message : string }.

(** What a [throw] carries: an [Error], or [undefined] (the uninitialised
    [lastError] of [retryOperation]). *)
Definition thrown : Type := option Error.

Inductive Outcome (A : Type) : Type :=
| Returned (a : A)
| Threw (e : thrown).
Arguments Returned {A} a.
Arguments Threw {A} e.

Definition TypeError (msg : string) : thrown := Some (mkError "TypeError" msg).
Definition SyntaxError (msg : string) : thrown := Some (mkError "SyntaxError" msg).

(* ===================================================================== *)
(** * Strings *)
(* ===================================================================== *)

Definition dquote : ascii := "034"%char.
Definition backslash : ascii := "092"%char.

(** [text.startsWith(prefix)] *)
Definition startsWith (text prefix : string) : bool := String.prefix prefix text.

(** [text.substring(n)] *)
Fixpoint substring_from (n : nat) (text : string) : string :=
  match n, text with
  | O, _ => text
  | S n', String _ rest => substring_from n' rest
  | S _, EmptyString => EmptyString
  end.

(* ===================================================================== *)
(** * JSON.stringify *)
(* ===================================================================== *)

Module JSON.

(** Lowercase hexadecimal digit of [n < 16]. *)
Definition hex_digit (n : N) : ascii :=
  if (n <? 10)%N then ascii_of_N (48 + n) else ascii_of_N (87 + n).

(** One code unit inside a quoted string (QuoteJSONString): the quote, the
    backslash and the control characters are escaped. *)
Definition quote_char (c : ascii) : string :=
  let n := N_of_ascii c in
  if (n =? 34)%N then String backslash (String dquote EmptyString)
  else if (n =? 92)%N then String backslash (String backslash EmptyString)
  else if (n =? 8)%N then String backslash "b"
  else if (n =? 9)%N then String backslash "t"
  else if (n =? 10)%N then String backslash "n"
  else if (n =? 12)%N then String backslash "f"
  else if (n =? 13)%N then String backslash "r"
  else if (n <? 32)%N then
    String backslash
      (String "u" (String "0" (String "0"
        (String (hex_digit (n / 16)) (String (hex_digit (n mod 16)) EmptyString)))))
  else String c EmptyString.

Fixpoint quote_chars (s : string) : string :=
  match s with
  | EmptyString => EmptyString
  | String c rest => (quote_char c ++ quote_chars rest)%string
  end.

Definition quote (s : string) : string :=
  String dquote (quote_chars s ++ String dquote EmptyString)%string.

(** Number::toString on an integer: plain decimal digits. *)
Definition number_to_string (n : Z) : string :=
  match n with
  | Z0 => "0"
  | Zpos p => NilEmpty.string_of_uint (Pos.to_uint p)
  | Zneg p => String "-" (NilEmpty.string_of_uint (Pos.to_uint p))
  end.

(** [parts.join(",")] *)
Fixpoint join_comma (parts : list string) : string :=
  match parts with
  | [] => EmptyString
  | [p] => p
  | p :: rest => (p ++ String "," (join_comma rest))%string
  end.

(** SerializeJSONProperty: [None] is the result [undefined].  An
    [undefined] array element is written [null]; a property whose value is
    [undefined] is left out. *)
Fixpoint serialize (v : value) : option string :=
  match v with
  | JUndefined => None
  | JNull => Some "null"
  | JBool true => Some "true"
  | JBool false => Some "false"
  | JNum n => Some (number_to_string n)
  | JStr s => Some (quote s)
  | JArr items =>
      let element x :=
        match serialize x with Some t => t | None => "null" end in
      Some (String "[" (join_comma (map element items) ++ "]"))%string
  | JObj props =>
      let member :=
        fix member (kvs : list (string * value)) : list string :=
          match kvs with
          | [] => []
          | (k, x) :: rest =>
              match serialize x with
              | Some t => (quote k ++ String ":" t)%string :: member rest
              | None => member rest
              end
          end in
      Some (String "{" (join_comma (member props) ++ "}"))%string
  end.

(** [JSON.stringify(v)] *)
Definition stringify (v : value) : option string := serialize v.

(* ===================================================================== *)
(** * JSON.parse *)
(* ===================================================================== *)

Definition is_ws (c : ascii) : bool :=
  let n := N_of_ascii c in
  ((n =? 32) || (n =? 9) || (n =? 10) || (n =? 13))%N.

Fixpoint skip_ws (s : string) : string :=
  match s with
  | String c rest => if is_ws c then skip_ws rest else s
  | EmptyString => s
  end.

Definition digit_of_char (c : ascii) : option (uint -> uint) :=
  match c with
  | "0"%char => Some D0 | "1"%char => Some D1 | "2"%char => Some D2
  | "3"%char => Some D3 | "4"%char => Some D4 | "5"%char => Some D5
  | "6"%char => Some D6 | "7"%char => Some D7 | "8"%char => Some D8
  | "9"%char => Some D9 | _ => None
  end.

(** The longest run of decimal digits at the head of [s]. *)
Fixpoint scan_digits (s : string) : uint * string :=
  match s with
  | String c rest =>
      match digit_of_char c with
      | Some d => let (ds, r) := scan_digits rest in (d ds, r)
      | None => (Nil, s)
      end
  | EmptyString => (Nil, s)
  end.

(** The integer part of a JSON numeral: [0], or digits with no leading
    zero. *)
Definition int_numeral (d : uint) : bool :=
  match d with
  | Nil => false
  | D0 Nil => true
  | D0 _ => false
  | _ => true
  end.

Definition strip_minus (s : string) : bool * string :=
  match s with
  | String "-"%char r => (true, r)
  | _ => (false, s)
  end.

(** A numeral: an optional minus sign and the digits of an integer.  A
    fraction or an exponent is not read: its first character is left in
    the remainder, where no caller accepts it, so that a text with such a
    numeral is reported as not parsed ([stringify] writes none). *)
Definition parse_number (s : string) : option (Z * string) :=
  let (negative, body) := strip_minus s in
  let (d, rest) := scan_digits body in
  if int_numeral d then
    let n := Z.of_N (N.of_uint d) in
    Some (if negative then - n else n, rest)
  else None.

Definition hex_value (c : ascii) : option N :=
  let n := N_of_ascii c in
  if ((48 <=? n) && (n <=? 57))%N then Some (n - 48)%N
  else if ((97 <=? n) && (n <=? 102))%N then Some (n - 87)%N
  else if ((65 <=? n) && (n <=? 70))%N then Some (n - 55)%N
  else None.

Definition hex4 (h1 h2 h3 h4 : ascii) : option N :=
  match hex_value h1, hex_value h2, hex_value h3, hex_value h4 with
  | Some a, Some b, Some c, Some d => Some (((a * 16 + b) * 16 + c) * 16 + d)%N
  | _, _, _, _ => None
  end.

(** The character a one-letter escape stands for. *)
Definition simple_escape (e : ascii) : option ascii :=
  let n := N_of_ascii e in
  if (n =? 34)%N then Some dquote
  else if (n =? 92)%N then Some backslash
  else if (n =? 47)%N then Some "/"%char
  else if (n =? 98)%N then Some "008"%char
  else if (n =? 102)%N then Some "012"%char
  else if (n =? 110)%N then Some "010"%char
  else if (n =? 114)%N then Some "013"%char
  else if (n =? 116)%N then Some "009"%char
  else None.

Definition prepend (c : ascii) (r : option (string * string))
  : option (string * string) :=
  match r with
  | Some (t, rest) => Some (String c t, rest)
  | None => None
  end.

(** The characters of a string literal after its opening quote, up to and
    including the closing quote.  A code unit above 255 is not a
    character of this model: the escape is then reported as not parsed. *)
Fixpoint parse_chars (s : string) : option (string * string) :=
  match s with
  | EmptyString => None
  | String c r =>
      let n := N_of_ascii c in
      if (n =? 34)%N then Some (EmptyString, r)
      else if (n =? 92)%N then
        match r with
        | String e r1 =>
            if (N_of_ascii e =? 117)%N then
              match r1 with
              | String h1 (String h2 (String h3 (String h4 r2))) =>
                  match hex4 h1 h2 h3 h4 with
                  | Some code =>
                      if (code <? 256)%N
                      then prepend (ascii_of_N code) (parse_chars r2)
                      else None
                  | None => None
                  end
              | _ => None
              end
            else
              match simple_escape e with
              | Some ch => prepend ch (parse_chars r1)
              | None => None
              end
        | EmptyString => None
        end
      else if (n <? 32)%N then None
      else prepend c (parse_chars r)
  end.

(** A literal name: the characters of [word] are expected next. *)
Definition literal (word : string) (v : value) (s : string)
  : option (value * string) :=
  if startsWith s word
  then Some (v, substring_from (String.length word) s)
  else None.

(** The object a list of parsed members denotes: the properties are
    defined one after the other, a repeated name taking the last value. *)
Definition object_of_members (kvs : list (string * value))
  : list (string * value) :=
  fold_left (fun props kv => set_property (fst kv) (snd kv) props) kvs [].

(** Recursive descent; [fuel] bounds the number of nested calls. *)
Fixpoint parse_value (fuel : nat) (s : string) {struct fuel}
  : option (value * string) :=
  match fuel with
  | O => None
  | S fuel' =>
      match skip_ws s with
      | EmptyString => None
      | String c r =>
          let n := N_of_ascii c in
          if (n =? 110)%N then literal "ull" JNull r
          else if (n =? 116)%N then literal "rue" (JBool true) r
          else if (n =? 102)%N then literal "alse" (JBool false) r
          else if (n =? 34)%N then
            match parse_chars r with
            | Some (t, r') => Some (JStr t, r')
            | None => None
            end
          else if (n =? 91)%N then
            match skip_ws r with
            | String "]"%char r' => Some (JArr [], r')
            | _ =>
                match parse_elements fuel' r with
                | Some (xs, r') => Some (JArr xs, r')
                | None => None
                end
            end
          else if (n =? 123)%N then
            match skip_ws r with
            | String "}"%char r' => Some (JObj [], r')
            | _ =>
                match parse_members fuel' r with
                | Some (kvs, r') => Some (JObj (object_of_members kvs), r')
                | None => None
                end
            end
          else
            match parse_number (String c r) with
            | Some (z, r') => Some (JNum z, r')
            | None => None
            end
      end
  end

with parse_elements (fuel : nat) (s : string) {struct fuel}
  : option (list value * string) :=
  match fuel with
  | O => None
  | S fuel' =>
      match parse_value fuel' s with
      | Some (x, r) =>
          match skip_ws r with
          | String ","%char r' =>
              match parse_elements fuel' r' with
              | Some (xs, r'') => Some (x :: xs, r'')
              | None => None
              end
          | String "]"%char r' => Some ([x], r')
          | _ => None
          end
      | None => None
      end
  end

with parse_members (fuel : nat) (s : string) {struct fuel}
  : option (list (string * value) * string) :=
  match fuel with
  | O => None
  | S fuel' =>
      match skip_ws s with
      | String "034"%char r =>
          match parse_chars r with
          | Some (k, r1) =>
              match skip_ws r1 with
              | String ":"%char r2 =>
                  match parse_value fuel' r2 with
                  | Some (x, r3) =>
                      match skip_ws r3 with
                      | String ","%char r4 =>
                          match parse_members fuel' r4 with
                          | Some (kvs, r5) => Some ((k, x) :: kvs, r5)
                          | None => None
                          end
                      | String "}"%char r4 => Some ([(k, x)], r4)
                      | _ => None
                      end
                  | None => None
                  end
              | _ => None
              end
          | None => None
          end
      | _ => None
      end
  end.

(** [JSON.parse(text)]: one value, with nothing but white space around
    it; anything else throws a [SyntaxError]. *)
Definition parse (text : string) : Outcome value :=
  match parse_value (S (String.length text)) text with
  | Some (v, rest) =>
      match skip_ws rest with
      | EmptyString => Returned v
      | _ => Threw (SyntaxError "Unexpected non-whitespace character after JSON")
      end
  | None => Threw (SyntaxError "Unexpected token in JSON")
  end.

End JSON.


(* ===================================================================== *)
(** * Operations of the language on values *)
(* ===================================================================== *)

(** Computations that return or throw. *)
Definition bindO {A B : Type} (m : Outcome A) (k : A -> Outcome B) : Outcome B :=
  match m with
  | Returned a => k a
  | Threw e => Threw e
  end.

(** [try { body } catch (e) { handler }] *)
Definition try_catch {A : Type} (body : Outcome A) (handler : thrown -> Outcome A)
  : Outcome A :=
  match body with
  | Returned a => Returned a
  | Threw e => handler e
  end.

(** Truthiness, as [if (v)], [v || w] and [v && w] test it. *)
Definition truthy (v : value) : bool :=
  match v with
  | JUndefined | JNull => false
  | JBool b => b
  | JNum n => negb (n =? 0)
  | JStr s => negb (String.eqb s EmptyString)
  | JArr _ | JObj _ => true
  end.

(** [Array.isArray(v)] *)
Definition isArray (v : value) : bool :=
  match v with JArr _ => true | _ => false end.

(** [item && typeof item === 'object' && !Array.isArray(item)], as a
    condition; also the test [typeof v === 'object' && v !== null &&
    !Array.isArray(v)] of [matchesFilter]. *)
Definition isObject (item : value) : bool :=
  match item with JObj _ => true | _ => false end.

(** [a === b], and the comparison of [Array.prototype.includes] and of the
    keys of a [Map].  Primitives are compared by value.  Objects and
    arrays are compared by reference in the language; the model has no
    references, and two of them are never taken for the same one. *)
Definition strict_equals (a b : value) : bool :=
  match a, b with
  | JUndefined, JUndefined => true
  | JNull, JNull => true
  | JBool x, JBool y => Bool.eqb x y
  | JNum x, JNum y => x =? y
  | JStr x, JStr y => String.eqb x y
  | _, _ => false
  end.

(** [array.includes(x)] *)
Definition includes (array : list value) (x : value) : bool :=
  existsb (fun y => strict_equals y x) array.

(** The decimal text of a natural number: an array index as a property
    name. *)
Definition index_name (i : nat) : string :=
  JSON.number_to_string (Z.of_nat i).

(** The array index a property name stands for, if it is one. *)
Definition array_index (key : string) : option nat :=
  match JSON.scan_digits key with
  | (d, EmptyString) =>
      if JSON.int_numeral d then Some (N.to_nat (N.of_uint d)) else None
  | _ => None
  end.

Fixpoint lookup (key : string) (props : list (string * value)) : option value :=
  match props with
  | [] => None
  | (k, v) :: rest => if String.eqb k key then Some v else lookup key rest
  end.

(** Whether the object has a property [key] of its own; this is
    [key in obj] for a name that objects do not inherit. *)
Definition has_property (props : list (string * value)) (key : string) : bool :=
  match lookup key props with Some _ => true | None => false end.

Fixpoint string_chars (s : string) : list value :=
  match s with
  | EmptyString => []
  | String c rest => JStr (String c EmptyString) :: string_chars rest
  end.

(** [v[key]] where [v] is neither [undefined] nor [null]: an own property
    of an object, an element or the length of an array or of a string. *)
Definition get_property (v : value) (key : string) : value :=
  match v with
  | JObj props =>
      match lookup key props with Some x => x | None => JUndefined end
  | JArr items =>
      if String.eqb key "length" then JNum (Z.of_nat (List.length items))
      else match array_index key with
           | Some i => nth i items JUndefined
           | None => JUndefined
           end
  | JStr s =>
      if String.eqb key "length" then JNum (Z.of_nat (String.length s))
      else match array_index key with
           | Some i => nth i (string_chars s) JUndefined
           | None => JUndefined
           end
  | _ => JUndefined
  end.

(** [v.key]: a [TypeError] when [v] is [undefined] or [null]. *)
Definition member (v : value) (key : string) : Outcome value :=
  match v with
  | JUndefined | JNull =>
      Threw (TypeError ("Cannot read properties of undefined (reading '"
                        ++ key ++ "')"))
  | _ => Returned (get_property v key)
  end.

(** [current?.[key]] *)
Definition optional_get (current : value) (key : string) : value :=
  match current with
  | JUndefined | JNull => JUndefined
  | _ => get_property current key
  end.

Fixpoint indexed (i : nat) (items : list value) : list (string * value) :=
  match items with
  | [] => []
  | x :: rest => (index_name i, x) :: indexed (S i) rest
  end.

(** The own enumerable properties [{...v}] copies and [Object.entries(v)]
    lists. *)
Definition own_entries (v : value) : list (string * value) :=
  match v with
  | JObj props => props
  | JArr items => indexed 0 items
  | JStr s => indexed 0 (string_chars s)
  | _ => []
  end.

(** [path.split('.')] *)
Fixpoint split_dot (path : string) : list string :=
  match path with
  | EmptyString => [EmptyString]
  | String c rest =>
      if Ascii.eqb c "." then EmptyString :: split_dot rest
      else match split_dot rest with
           | first :: others => String c first :: others
           | [] => [String c EmptyString]
           end
  end.

(** ** Conversions and the relational operators *)

(** [String(v)].  An array gives the texts of its elements joined by
    commas, [undefined] and [null] giving the empty text.  An object gives
    what [Object.prototype.toString] returns; an own property named
    [toString] hides that method and, being no function (the values here
    hold none), leaves the object without a method to be converted by:
    a [TypeError]. *)
Fixpoint ToString (v : value) : Outcome string :=
  match v with
  | JUndefined => Returned "undefined"
  | JNull => Returned "null"
  | JBool true => Returned "true"
  | JBool false => Returned "false"
  | JNum n => Returned (JSON.number_to_string n)
  | JStr s => Returned s
  | JArr items =>
      bindO
        ((fix each (xs : list value) : Outcome (list string) :=
            match xs with
            | [] => Returned []
            | x :: rest =>
                bindO (match x with
                       | JUndefined | JNull => Returned EmptyString
                       | _ => ToString x
                       end)
                      (fun t => bindO (each rest)
                                      (fun ts => Returned (t :: ts)))
            end) items)
        (fun ts => Returned (JSON.join_comma ts))
  | JObj props =>
      if has_property props "toString"
      then Threw (TypeError "Cannot convert object to primitive value")
      else Returned "[object Object]"
  end.

(** The text of a primitive in a message of the engine. *)
Definition primitive_text (v : value) : string :=
  match ToString v with
  | Returned t => t
  | Threw _ => EmptyString
  end.

(** White space that [StringToNumber] trims. *)
Definition is_js_space (c : ascii) : bool :=
  let n := N_of_ascii c in
  ((n =? 32) || ((9 <=? n) && (n <=? 13)) || (n =? 160))%N.

Fixpoint trim_start (s : string) : string :=
  match s with
  | String c rest => if is_js_space c then trim_start rest else s
  | EmptyString => s
  end.

Definition all_space (s : string) : bool :=
  match trim_start s with EmptyString => true | _ => false end.

(** [Number(s)] for a string: an integer written in decimal digits, with
    an optional sign and white space around it, and [0] for the blank
    string.  [None] is [NaN].  A text denoting a number that is not an
    integer, or written otherwise (a fraction, an exponent, a radix
    prefix, [Infinity]), has no counterpart among the integers and is
    [None] here as well. *)
Definition StringToNumber (s : string) : option Z :=
  let t := trim_start s in
  match t with
  | EmptyString => Some 0
  | String c rest =>
      let (sign, body) :=
        if Ascii.eqb c "-" then (-1, rest)
        else if Ascii.eqb c "+" then (1, rest)
        else (1, t) in
      match JSON.scan_digits body with
      | (Nil, _) => None
      | (d, after) =>
          if all_space after then Some (sign * Z.of_N (N.of_uint d)) else None
      end
  end.

(** [ToPrimitive(v)]: an array or an object gives its string, when it has
    one. *)
Definition ToPrimitive (v : value) : Outcome value :=
  match v with
  | JArr _ | JObj _ => bindO (ToString v) (fun t => Returned (JStr t))
  | _ => Returned v
  end.

(** [Number(v)] of a primitive; [None] is [NaN]. *)
Definition ToNumber (v : value) : option Z :=
  match v with
  | JUndefined => None
  | JNull => Some 0
  | JBool true => Some 1
  | JBool false => Some 0
  | JNum n => Some n
  | JStr s => StringToNumber s
  | JArr _ | JObj _ => None
  end.

(** IsLessThan: the operands are converted to primitives, the left one of
    the expression first ([leftFirst] tells whether that is [x]); two
    strings are compared as strings, anything else as numbers.  [None]
    when a side is [NaN]. *)
Definition IsLessThan (x y : value) (leftFirst : bool)
  : Outcome (option bool) :=
  bindO (if leftFirst
         then bindO (ToPrimitive x) (fun px =>
              bindO (ToPrimitive y) (fun py => Returned (px, py)))
         else bindO (ToPrimitive y) (fun py =>
              bindO (ToPrimitive x) (fun px => Returned (px, py))))
        (fun operands =>
           Returned
             match fst operands, snd operands with
             | JStr a, JStr b => Some (String.ltb a b)
             | px, py =>
                 match ToNumber px, ToNumber py with
                 | Some a, Some b => Some (a <? b)
                 | _, _ => None
                 end
             end).

(** [x < y] *)
Definition js_lt (x y : value) : Outcome bool :=
  bindO (IsLessThan x y true)
        (fun r => Returned match r with Some b => b | None => false end).
(** [x > y] *)
Definition js_gt (x y : value) : Outcome bool :=
  bindO (IsLessThan y x false)
        (fun r => Returned match r with Some b => b | None => false end).
(** [x <= y] *)
Definition js_le (x y : value) : Outcome bool :=
  bindO (IsLessThan y x false)
        (fun r => Returned match r with Some b => negb b | None => false end).
(** [x >= y] *)
Definition js_ge (x y : value) : Outcome bool :=
  bindO (IsLessThan x y true)
        (fun r => Returned match r with Some b => negb b | None => false end).

(** ** parseInt and the first segment of an identifier *)

(** [s.split('-')[0]]: the text before the first hyphen. *)
Fixpoint before_hyphen (s : string) : string :=
  match s with
  | EmptyString => EmptyString
  | String c rest =>
      if Ascii.eqb c "-" then EmptyString else String c (before_hyphen rest)
  end.

(** The longest run of hexadecimal digits at the head of [s], as a
    number; [acc] is the value of the digits read so far, [None] when
    there is none. *)
Fixpoint scan_hex (s : string) (acc : option N) : option N :=
  match s with
  | String c rest =>
      match JSON.hex_value c with
      | Some d =>
          scan_hex rest
            (Some (16 * (match acc with Some a => a | None => 0 end) + d)%N)
      | None => acc
      end
  | EmptyString => acc
  end.

(** The longest run of decimal digits at the head of [s], as a number. *)
Definition scan_decimal (s : string) : option N :=
  match JSON.scan_digits s with
  | (Nil, _) => None
  | (d, _) => Some (N.of_uint d)
  end.

(** [parseInt(s)] with no radix given: white space is skipped, a sign is
    read, then the digits that follow, hexadecimal after [0x] and decimal
    otherwise, up to the first character that is none.  [None] is
    [NaN]. *)
Definition parseInt (s : string) : option Z :=
  let t := trim_start s in
  let (negative, body) :=
    match t with
    | String "-"%char rest => (true, rest)
    | String "+"%char rest => (false, rest)
    | _ => (false, t)
    end in
  let magnitude :=
    match body with
    | String "0"%char (String x rest) =>
        if Ascii.eqb x "x" || Ascii.eqb x "X" then scan_hex rest None
        else scan_decimal body
    | _ => scan_decimal body
    end in
  match magnitude with
  | Some n => Some (if negative then - Z.of_N n else Z.of_N n)
  | None => None
  end.

(** [a < b] on two results of [parseInt]: false when one is [NaN]. *)
Definition number_lt (a b : option Z) : bool :=
  match a, b with
  | Some x, Some y => x <? y
  | _, _ => false
  end.

(** ** Regular expressions *)

(** The regular expressions of the language, as the filter engine uses
    them: [regexp_test pattern text] is [new RegExp(pattern).test(text)],
    and [None] when the constructor throws a [SyntaxError]. *)
Class RegExpEngine : Type := {
  regexp_test : string -> string -> option bool
}.

(** The pattern text [new RegExp(v)] compiles: the empty pattern for
    [undefined], and [String(v)] otherwise. *)
Definition pattern_source (v : value) : Outcome string :=
  match v with
  | JUndefined => Returned EmptyString
  | _ => ToString v
  end.

(* ===================================================================== *)
(** * The codec (utils.ts) *)
(* ===================================================================== *)

(** [`${prefix}${JSON.stringify(doc)}`] *)
Definition encodeDocument (doc : value) (prefix : string) : string :=
  let json := JSON.stringify doc in
  (prefix ++ match json with Some t => t | None => "undefined" end)%string.

(** The result [null] is the value [JNull]. *)
Definition decodeDocument (messageText prefix : string) : Outcome value :=
  if negb (startsWith messageText prefix) then Returned JNull
  else
    try_catch
      (let json := substring_from (String.length prefix) messageText in
       JSON.parse json)
      (fun _ => Returned JNull).

(* ===================================================================== *)
(** * The filter engine (utils.ts) *)
(* ===================================================================== *)

Section FilterEngine.
Context {engine : RegExpEngine}.

Definition getNestedValue (obj : value) (path : string) : value :=
  fold_left optional_get (split_dot path) obj.

(** One [case] of the [switch]: [Returned false] is [return false],
    [Returned true] is [break]. *)
Definition operator_holds (docValue : value) (op : string) (opValue : value)
  : Outcome bool :=
  if String.eqb op "$gt" then js_gt docValue opValue
  else if String.eqb op "$gte" then js_ge docValue opValue
  else if String.eqb op "$lt" then js_lt docValue opValue
  else if String.eqb op "$lte" then js_le docValue opValue
  else if String.eqb op "$ne" then Returned (negb (strict_equals docValue opValue))
  else if String.eqb op "$in" then
    Returned (match opValue with
              | JArr items => includes items docValue
              | _ => false
              end)
  else if String.eqb op "$nin" then
    Returned (match opValue with
              | JArr items => negb (includes items docValue)
              | _ => true
              end)
  else if String.eqb op "$regex" then
    match docValue with
    | JStr text =>
        bindO (pattern_source opValue)
              (fun pattern =>
                 match regexp_test pattern text with
                 | Some b => Returned b
                 | None =>
                     Threw (SyntaxError ("Invalid regular expression: /"
                                         ++ pattern ++ "/"))
                 end)
    | _ => Returned false
    end
  else if String.eqb op "$exists" then
    let exists_ :=
      negb (strict_equals docValue JUndefined)
      && negb (strict_equals docValue JNull) in
    Returned (strict_equals opValue (JBool exists_))
  else Returned true.

Fixpoint all_operators (docValue : value) (entries : list (string * value))
  : Outcome bool :=
  match entries with
  | [] => Returned true
  | (op, opValue) :: rest =>
      bindO (operator_holds docValue op opValue)
            (fun ok => if ok then all_operators docValue rest
                       else Returned false)
  end.

Definition matchesOperators (docValue operators : value) : Outcome bool :=
  all_operators docValue (own_entries operators).

(** The condition of one entry of the filter: [Returned false] is
    [return false], [Returned true] goes on to the next entry. *)
Definition entry_matches (doc : value) (key : string) (v : value)
  : Outcome bool :=
  bindO (if String.eqb key "_id"
         then bindO (member doc "_id")
                    (fun id => Returned (negb (strict_equals id v)))
         else Returned false)
        (fun id_differs =>
           if id_differs then Returned false
           else
             let docValue := getNestedValue doc key in
             if isObject v then matchesOperators docValue v
             else match v with
                  | JArr items => Returned (includes items docValue)
                  | _ => Returned (strict_equals docValue v)
                  end).

Fixpoint all_entries (doc : value) (entries : list (string * value))
  : Outcome bool :=
  match entries with
  | [] => Returned true
  | (key, v) :: rest =>
      bindO (entry_matches doc key v)
            (fun ok => if ok then all_entries doc rest else Returned false)
  end.

(** [filter] is the object given as the filter; its entries are examined
    in order. *)
Definition matchesFilter (doc filter : value) : Outcome bool :=
  all_entries doc (own_entries filter).

End FilterEngine.

(** ** deepMerge *)

Fixpoint deepMerge (target source : value) {struct source} : value :=
  let output := own_entries target in
  match target, source with
  | JObj tprops, JObj sprops =>
      JObj
        ((fix each_key (entries output : list (string * value))
            : list (string * value) :=
            match entries with
            | [] => output
            | (key, sv) :: rest =>
                each_key rest
                  (match sv with
                   | JObj _ =>
                       if negb (has_property tprops key)
                       then set_property key sv output
                       else set_property key
                              (deepMerge (get_property target key) sv) output
                   | _ => set_property key sv output
                   end)
            end) sprops output)
  | _, _ => JObj output
  end.


(* ===================================================================== *)
(** * The store (TelegramDB.ts) *)
(* ===================================================================== *)

(** ** Map objects *)

(** A [Map] in insertion order.  The keys are compared as [===] compares
    them. *)
Definition JsMap : Type := list (value * value).

Fixpoint Map_get (m : JsMap) (key : value) : value :=
  match m with
  | [] => JUndefined
  | (k, v) :: rest => if strict_equals k key then v else Map_get rest key
  end.

Fixpoint Map_set (key v : value) (m : JsMap) : JsMap :=
  match m with
  | [] => [(key, v)]
  | (k, v') :: rest =>
      if strict_equals k key then (k, v) :: rest
      else (k, v') :: Map_set key v rest
  end.

Fixpoint Map_delete (key : value) (m : JsMap) : JsMap :=
  match m with
  | [] => []
  | (k, v) :: rest =>
      if strict_equals k key then rest else (k, v) :: Map_delete key rest
  end.

Definition Map_size (m : JsMap) : Z := Z.of_nat (List.length m).

Definition Map_values (m : JsMap) : list value := map snd m.

(** [Array.from(m.entries())] *)
Definition Map_entries (m : JsMap) : list value :=
  map (fun kv => JArr [fst kv; snd kv]) m.

(** [new Map(iterable)] for a truthy [iterable]: each element of an array
    must be an object, whose properties [0] and [1] are the key and the
    value; a string iterates over its characters, which are no objects;
    anything else is not iterable. *)
Definition Map_from (iterable : value) : Outcome JsMap :=
  match iterable with
  | JArr entries =>
      fold_left
        (fun acc entry =>
           bindO acc (fun m =>
             match entry with
             | JArr _ | JObj _ =>
                 Returned (Map_set (get_property entry "0")
                                   (get_property entry "1") m)
             | _ => Threw (TypeError ("Iterator value " ++ primitive_text entry
                                      ++ " is not an entry object"))
             end))
        entries (Returned [])
  | JStr EmptyString => Returned []
  | JStr (String c _) =>
      Threw (TypeError ("Iterator value " ++ String c EmptyString
                        ++ " is not an entry object"))
  | _ => Threw (TypeError "object is not iterable")
  end.

(** [s.add(x)] on a [Set], kept in insertion order; the elements are
    compared as the keys of a [Map] are. *)
Definition Set_add (x : value) (s : list value) : list value :=
  if includes s x then s else s ++ [x].

(** ** The state of a store and of the chat *)

Record TelegramDBConfig : Type := {
  config_chatId : string;
  messagePrefix : option string;
  config_batchDelay : option Z;
  config_maxRetries : option Z
}.

Record TelegramDB : Type := mkTelegramDB {
  chatId : string;
  prefix : string;
  batchDelay : Z;
  maxRetries : Z;
  initialized : bool;
  messageIndex : JsMap;
  documentCache : JsMap;
  indexMessageId : value
}.

(** [new TelegramDB(config)]; [x || d] takes [d] for a missing, empty or
    zero [x]. *)
Definition new_TelegramDB (config : TelegramDBConfig) : TelegramDB :=
  {| chatId := config_chatId config;
     prefix := match messagePrefix config with
               | Some p => if String.eqb p EmptyString then "TDB:" else p
               | None => "TDB:"
               end;
     batchDelay := match config_batchDelay config with
                   | Some n => if n =? 0 then 100 else n
                   | None => 100
                   end;
     maxRetries := match config_maxRetries config with
                   | Some n => if n =? 0 then 3 else n
                   | None => 3
                   end;
     initialized := false;
     messageIndex := [];
     documentCache := [];
     indexMessageId := JNull |}.

Definition set_initialized (b : bool) (d : TelegramDB) : TelegramDB :=
  {| chatId := chatId d; prefix := prefix d; batchDelay := batchDelay d;
     maxRetries := maxRetries d; initialized := b;
     messageIndex := messageIndex d; documentCache := documentCache d;
     indexMessageId := indexMessageId d |}.

Definition set_messageIndex (m : JsMap) (d : TelegramDB) : TelegramDB :=
  {| chatId := chatId d; prefix := prefix d; batchDelay := batchDelay d;
     maxRetries := maxRetries d; initialized := initialized d;
     messageIndex := m; documentCache := documentCache d;
     indexMessageId := indexMessageId d |}.

Definition set_documentCache (m : JsMap) (d : TelegramDB) : TelegramDB :=
  {| chatId := chatId d; prefix := prefix d; batchDelay := batchDelay d;
     maxRetries := maxRetries d; initialized := initialized d;
     messageIndex := messageIndex d; documentCache := m;
     indexMessageId := indexMessageId d |}.

Definition set_indexMessageId (v : value) (d : TelegramDB) : TelegramDB :=
  {| chatId := chatId d; prefix := prefix d; batchDelay := batchDelay d;
     maxRetries := maxRetries d; initialized := initialized d;
     messageIndex := messageIndex d; documentCache := documentCache d;
     indexMessageId := v |}.

(** The answer of the chat to a call: a result, or a thrown [Error]. *)
Inductive reply (A : Type) : Type :=
| Ok (a : A)
| Failed (e : Error).
Arguments Ok {A} a.
Arguments Failed {A} e.

(** The chat the store talks to ([bot.telegram]), together with the clock
    and the random source of [generateId]: a machine with a state of its
    own, of which nothing else is known.  [sendMessage] answers the
    [message_id] of the message sent. *)
Class Telegram (Chat : Type) : Type := {
  getMe : Chat -> reply unit * Chat;
  getChat : Chat -> reply unit * Chat;
  sendMessage : string -> Chat -> reply Z * Chat;
  deleteMessage : value -> Chat -> reply unit * Chat;
  Date_now : Chat -> Z * Chat;
  random_token : Chat -> string * Chat
}.

Record OperationResult : Type := mkResult {
  success : bool;
  message : option string;
  data : value;
  error : option Error
}.

Record UpdateOptions : Type := { upsert : bool; replace : bool }.
Record BatchOptions : Type := { delay : option Z; stopOnError : bool }.

(** [oldestDocument] and [newestDocument] are [JUndefined] when there is
    no document. *)
Record DatabaseStats : Type := {
  totalDocuments : nat;
  totalMessages : nat;
  oldestDocument : value;
  newestDocument : value
}.

(** A message of the chat as the listener receives it: [chat] is
    [String(ctx.chat?.id)]. *)
Record Message : Type := {
  message_id : Z;
  text : option string;
  chat : string
}.

Section Store.
Context {engine : RegExpEngine} {Chat : Type} {telegram : Telegram Chat}.

Record World : Type := mkWorld { db : TelegramDB; channel : Chat }.

(** ** Asynchronous methods: state, and a result or an exception *)

Definition M (A : Type) : Type := World -> Outcome A * World.

Definition ret {A : Type} (a : A) : M A := fun w => (Returned a, w).

Definition throw {A : Type} (e : thrown) : M A := fun w => (Threw e, w).

Definition bind {A B : Type} (m : M A) (k : A -> M B) : M B :=
  fun w =>
    match m w with
    | (Returned a, w') => k a w'
    | (Threw e, w') => (Threw e, w')
    end.

(** [try { body } catch (e) { handler }]: what [body] did to the state
    before it threw stays done. *)
Definition try_ {A : Type} (body : M A) (handler : thrown -> M A) : M A :=
  fun w =>
    match body w with
    | (Returned a, w') => (Returned a, w')
    | (Threw e, w') => handler e w'
    end.

Definition lift {A : Type} (o : Outcome A) : M A := fun w => (o, w).

Definition this : M TelegramDB := fun w => (Returned (db w), w).

Definition modify (f : TelegramDB -> TelegramDB) : M unit :=
  fun w => (Returned tt, mkWorld (f (db w)) (channel w)).

(** A call to the chat: a failure is thrown. *)
Definition call {A : Type} (request : Chat -> reply A * Chat) : M A :=
  fun w =>
    match request (channel w) with
    | (Ok a, c) => (Returned a, mkWorld (db w) c)
    | (Failed e, c) => (Threw (Some e), mkWorld (db w) c)
    end.

Definition ask {A : Type} (request : Chat -> A * Chat) : M A :=
  fun w => let (a, c) := request (channel w) in (Returned a, mkWorld (db w) c).

Local Notation "x <- m ;; k" := (bind m (fun x => k))
  (at level 61, m at next level, right associativity).
Local Notation "m ;; k" := (bind m (fun _ => k))
  (at level 61, right associativity).

(** [error.message]: a [TypeError] when [error] is [undefined]. *)
Definition message_of (e : thrown) : M string :=
  match e with
  | Some err => ret (error_message err)
  | None => throw (TypeError
                     "Cannot read properties of undefined (reading 'message')")
  end.

(** [`${error}`] *)
Definition thrown_to_string (e : thrown) : string :=
  match e with
  | Some err => (error_name err ++ ": " ++ error_message err)%string
  | None => "undefined"
  end.

(** The pause lets time pass and changes nothing else. *)
Definition sleep (ms : Z) : M unit := ret tt.

(** [`${Date.now()}-${Math.random().toString(36).substring(2, 15)}`] *)
Definition generateId : M value :=
  now <- ask Date_now ;;
  token <- ask random_token ;;
  ret (JStr (JSON.number_to_string now ++ "-" ++ token)).

(** The loop of [retryOperation] from attempt [i], with [remaining]
    attempts left. *)
Fixpoint retry_from {A : Type} (operation : M A) (maxRetries : Z) (i : Z)
         (remaining : nat) (lastError : thrown) : M A :=
  match remaining with
  | O => throw lastError
  | S n =>
      try_ operation
           (fun error =>
              (if i <? maxRetries - 1 then sleep (1000 * (i + 1)) else ret tt) ;;
              retry_from operation maxRetries (i + 1) n error)
  end.

Definition retryOperation {A : Type} (operation : M A) (maxRetries : Z) : M A :=
  retry_from operation maxRetries 0 (Z.to_nat maxRetries) None.

Definition loadMessageIndex : M unit :=
  try_ (modify (set_messageIndex []) ;; modify (set_documentCache []))
       (fun _ => modify (set_messageIndex []) ;; modify (set_documentCache [])).

(** The listener is registered with the bot; see [onMessage] for what it
    does with a message. *)
Definition setupMessageListener : M unit := ret tt.

Definition initialize : M unit :=
  d <- this ;;
  if initialized d then ret tt
  else
    try_ (call getMe ;;
          call getChat ;;
          loadMessageIndex ;;
          setupMessageListener ;;
          modify (set_initialized true))
         (fun error =>
            throw (Some (mkError "Error"
                           ("Failed to initialize Telegram DB: "
                            ++ thrown_to_string error)))).

Definition ensureInitialized : M unit :=
  d <- this ;;
  if negb (initialized d) then initialize else ret tt.

Definition saveMessageIndex : M unit :=
  try_ (d <- this ;;
        now <- ask Date_now ;;
        let indexData :=
          JObj [("_id", JStr "__INDEX__");
                ("_table", JStr "__SYSTEM__");
                ("messageIndex", JArr (Map_entries (messageIndex d)));
                ("documents", JArr (Map_values (documentCache d)));
                ("updatedAt", JNum now)] in
        let indexMessage := encodeDocument indexData (prefix d ++ "INDEX:") in
        (if truthy (indexMessageId d)
         then try_ (call (deleteMessage (indexMessageId d))) (fun _ => ret tt)
         else ret tt) ;;
        d <- this ;;
        if Map_size (messageIndex d) >? 0
        then try_ (sent <- call (sendMessage indexMessage) ;;
                   modify (set_indexMessageId (JNum sent)))
                  (fun _ => ret tt)
        else ret tt)
       (fun _ => ret tt).

(** [{ ...doc, _id: id, _table: table }] *)
Definition new_document (doc id : value) (table : string) : value :=
  JObj (set_property "_table" (JStr table)
          (set_property "_id" id (own_entries doc))).

(** The [catch] of a method that answers a result:
    [{ success: false, error: error, message: `${what}${error.message}` }] *)
Definition failed (what : string) (error : thrown) : M OperationResult :=
  msg <- message_of error ;;
  ret {| success := false;
         error := error;
         message := Some (what ++ msg)%string;
         data := JUndefined |}.

Definition insert (doc : value) (table : string) : M OperationResult :=
  ensureInitialized ;;
  try_ (id0 <- lift (member doc "_id") ;;
        id <- (if truthy id0 then ret id0 else generateId) ;;
        let document := new_document doc id table in
        d <- this ;;
        let message := encodeDocument document (prefix d) in
        sent <- retryOperation (call (sendMessage message)) (maxRetries d) ;;
        modify (fun d => set_messageIndex
                  (Map_set (get_property document "_id") (JNum sent)
                           (messageIndex d)) d) ;;
        modify (fun d => set_documentCache
                  (Map_set (get_property document "_id") document
                           (documentCache d)) d) ;;
        saveMessageIndex ;;
        ret {| success := true;
               data := JObj (set_property "_messageId" (JNum sent)
                               (own_entries document));
               message := Some "Document inserted successfully";
               error := None |})
       (failed "Failed to insert document: ").

(** The documents of [docs] that match [query], in order; an exception of
    [matchesFilter] ends the scan. *)
Fixpoint select (docs : list value) (query : value) : Outcome (list value) :=
  match docs with
  | [] => Returned []
  | doc :: rest =>
      bindO (matchesFilter doc query)
            (fun ok =>
               bindO (select rest query)
                     (fun found => Returned (if ok then doc :: found else found)))
  end.

(** [{ ...filter, _table: table }] *)
Definition with_table (filter : value) (table : string) : value :=
  JObj (set_property "_table" (JStr table) (own_entries filter)).

Definition reloadCacheFromIndex : M unit :=
  try_ (d <- this ;;
        if truthy (indexMessageId d) then ret tt else ret tt)
       (fun _ => ret tt).

Definition find (filter : value) (table : string) : M (list value) :=
  ensureInitialized ;;
  try_ (let queryWithTable := with_table filter table in
        d <- this ;;
        documents <- lift (select (Map_values (documentCache d)) queryWithTable) ;;
        d <- this ;;
        if Map_size (documentCache d) =? 0
        then reloadCacheFromIndex ;;
             d <- this ;;
             more <- lift (select (Map_values (documentCache d)) queryWithTable) ;;
             ret (documents ++ more)
        else ret documents)
       (fun error =>
          msg <- message_of error ;;
          throw (Some (mkError "Error" ("Failed to find documents: " ++ msg)))).

Definition findOne (filter : value) (table : string) : M value :=
  results <- find filter table ;;
  ret (match results with first :: _ => first | [] => JNull end).

Definition findById (id : value) (table : string) : M value :=
  findOne (JObj [("_id", id)]) table.

(** [this.find({}, table).then(docs => docs.filter(doc =>
    matchesFilter(doc, queryWithTable)))] *)
Definition find_matching (filter : value) (table : string) : M (list value) :=
  let queryWithTable := with_table filter table in
  docs <- find (JObj []) table ;;
  lift (select docs queryWithTable).

(** [options.replace ? { ...update, _id: doc._id }
                     : deepMerge(doc, { ...update, _id: doc._id })],
    where [id] is [doc._id]. *)
Definition updated_document (update : value) (options : UpdateOptions)
           (doc id : value) : value :=
  let patch := JObj (set_property "_id" id (own_entries update)) in
  if replace options then patch else deepMerge doc patch.

(** The message that holds the document so far is deleted from the
    chat, if the index knows it; a failure is ignored. *)
Definition delete_old_message (id : value) : M unit :=
  d <- this ;;
  let oldMessageId := Map_get (messageIndex d) id in
  if truthy oldMessageId
  then try_ (call (deleteMessage oldMessageId)) (fun _ => ret tt)
  else ret tt.

(** The body of the loop of [update] for one matching document. *)
Definition update_one (update : value) (options : UpdateOptions) (doc : value)
  : M value :=
  id <- lift (member doc "_id") ;;
  let updated := updated_document update options doc id in
  delete_old_message id ;;
  d <- this ;;
  let message := encodeDocument updated (prefix d) in
  sent <- retryOperation (call (sendMessage message)) (maxRetries d) ;;
  modify (fun d => set_messageIndex
            (Map_set (get_property updated "_id") (JNum sent)
                     (messageIndex d)) d) ;;
  modify (fun d => set_documentCache
            (Map_set (get_property updated "_id") updated
                     (documentCache d)) d) ;;
  ret updated.

Fixpoint update_each (update : value) (options : UpdateOptions)
         (documents updatedDocs : list value) : M (list value) :=
  match documents with
  | [] => ret updatedDocs
  | doc :: rest =>
      updated <- update_one update options doc ;;
      update_each update options rest (updatedDocs ++ [updated])
  end.

Definition count_text (n : nat) : string :=
  JSON.number_to_string (Z.of_nat n).

(** What [update] does once the matching documents are known. *)
Definition update_documents (filter update : value) (table : string)
           (options : UpdateOptions) (documents : list value)
  : M OperationResult :=
  match documents with
  | [] =>
      if upsert options
      then let newDoc := deepMerge filter update in
           insert newDoc table
      else ret {| success := false;
                  message := Some "No documents found to update";
                  data := JUndefined;
                  error := None |}
  | _ =>
      updatedDocs <- update_each update options documents [] ;;
      saveMessageIndex ;;
      ret {| success := true;
             data := JArr updatedDocs;
             message := Some ("Updated "
                              ++ count_text (List.length updatedDocs)
                              ++ " document(s)")%string;
             error := None |}
  end.

Definition update (filter update : value) (table : string)
           (options : UpdateOptions) : M OperationResult :=
  ensureInitialized ;;
  try_ (documents <- find_matching filter table ;;
        update_documents filter update table options documents)
       (failed "Failed to update documents: ").

Definition updateById (id update' : value) (table : string)
           (options : UpdateOptions) : M OperationResult :=
  update (JObj [("_id", id)]) update' table options.

Definition remove_locally (id : value) : M unit :=
  modify (fun d => set_messageIndex (Map_delete id (messageIndex d)) d) ;;
  modify (fun d => set_documentCache (Map_delete id (documentCache d)) d).

(** The body of the loop of [delete] for one matching document; the
    result tells whether [deletedCount] is incremented. *)
Definition delete_one (doc : value) : M bool :=
  id <- lift (member doc "_id") ;;
  d <- this ;;
  let messageId := Map_get (messageIndex d) id in
  if truthy messageId
  then try_ (call (deleteMessage messageId) ;;
             remove_locally id ;;
             ret true)
            (fun _ => remove_locally id ;; ret false)
  else ret false.

Fixpoint delete_each (documents : list value) (deletedCount : nat) : M nat :=
  match documents with
  | [] => ret deletedCount
  | doc :: rest =>
      deleted <- delete_one doc ;;
      delete_each rest (if deleted then S deletedCount else deletedCount)
  end.

(** What [delete] does once the matching documents are known. *)
Definition delete_documents (documents : list value) : M OperationResult :=
  match documents with
  | [] => ret {| success := false;
                 message := Some "No documents found to delete";
                 data := JUndefined;
                 error := None |}
  | _ =>
      deletedCount <- delete_each documents 0 ;;
      saveMessageIndex ;;
      ret {| success := true;
             data := JObj [("deletedCount", JNum (Z.of_nat deletedCount))];
             message := Some ("Deleted " ++ count_text deletedCount
                              ++ " document(s)")%string;
             error := None |}
  end.

Definition delete (filter : value) (table : string) : M OperationResult :=
  ensureInitialized ;;
  try_ (documents <- find_matching filter table ;;
        delete_documents documents)
       (failed "Failed to delete documents: ").

Definition deleteById (id : value) (table : string) : M OperationResult :=
  delete (JObj [("_id", id)]) table.

Definition deleteAll (table : string) : M OperationResult :=
  delete (JObj []) table.

Definition dropTable (table : string) : M OperationResult :=
  deleteAll table.

Definition count (filter : value) (table : string) : M nat :=
  let queryWithTable := with_table filter table in
  documents <- find (JObj []) table ;;
  matching <- lift (select documents queryWithTable) ;;
  ret (List.length matching).

(** The loop of [insertMany]; the pause between two documents changes no
    state. *)
Fixpoint insert_each (docs : list value) (table : string) (pause : Z)
         (stop : bool) (results : list OperationResult)
  : M (list OperationResult) :=
  match docs with
  | [] => ret results
  | doc :: rest =>
      result <- insert doc table ;;
      let results := results ++ [result] in
      if negb (success result) && stop then ret results
      else (if pause >? 0 then sleep pause else ret tt) ;;
           insert_each rest table pause stop results
  end.

Definition insertMany (docs : list value) (table : string)
           (options : option BatchOptions) : M (list OperationResult) :=
  ensureInitialized ;;
  d <- this ;;
  let pause :=
    match options with
    | Some o => match delay o with
                | Some n => if n =? 0 then batchDelay d else n
                | None => batchDelay d
                end
    | None => batchDelay d
    end in
  let stop := match options with Some o => stopOnError o | None => false end in
  insert_each docs table pause stop [].

Definition close : M unit := modify (set_initialized false).

(** ** The listener of [setupMessageListener] *)

(** [indexData.documents.forEach(doc => cache.set(doc._id, doc))] *)
Fixpoint cache_each (docs : list value) : M unit :=
  match docs with
  | [] => ret tt
  | doc :: rest =>
      id <- lift (member doc "_id") ;;
      modify (fun d => set_documentCache (Map_set id doc (documentCache d)) d) ;;
      cache_each rest
  end.

Definition onMessage (ctx : Message) : M unit :=
  match text ctx with
  | None => ret tt
  | Some text =>
      if String.eqb text EmptyString then ret tt
      else
        d <- this ;;
        if negb (String.eqb (chat ctx) (chatId d)) then ret tt
        else
          let indexPrefix := (prefix d ++ "INDEX:")%string in
          if startsWith text (prefix d) && negb (startsWith text indexPrefix)
          then
            doc <- lift (decodeDocument text (prefix d)) ;;
            if truthy doc
            then
              id <- lift (member doc "_id") ;;
              if truthy id
              then
                modify (fun d => set_messageIndex
                          (Map_set id (JNum (message_id ctx)) (messageIndex d)) d) ;;
                modify (fun d => set_documentCache
                          (Map_set id doc (documentCache d)) d)
              else ret tt
            else ret tt
          else if startsWith text indexPrefix
          then
            indexData <- lift (decodeDocument text indexPrefix) ;;
            if truthy indexData
               && strict_equals (get_property indexData "_id") (JStr "__INDEX__")
               && truthy (get_property indexData "messageIndex")
               && truthy (get_property indexData "documents")
            then
              index <- lift (Map_from (get_property indexData "messageIndex")) ;;
              modify (set_messageIndex index) ;;
              match get_property indexData "documents" with
              | JArr docs => cache_each docs
              | _ => throw (TypeError "indexData.documents.forEach is not a function")
              end ;;
              modify (set_indexMessageId (JNum (message_id ctx)))
            else ret tt
          else ret tt
  end.

(** ** getTables and getStats *)

(** The loop of [getTables] over the documents of the cache. *)
Fixpoint tables_of (docs : list value) (tables : list value)
  : Outcome (list value) :=
  match docs with
  | [] => Returned tables
  | doc :: rest =>
      bindO (member doc "_table")
            (fun t => tables_of rest
                        (if truthy t then Set_add t tables else tables))
  end.

Definition getTables : M (list value) :=
  ensureInitialized ;;
  d <- this ;;
  lift (tables_of (Map_values (documentCache d)) []).

(** One [{ message_id, text: '' }] for each entry of the index. *)
Definition getAllMessages : M (list value) :=
  d <- this ;;
  ret (map (fun kv => JObj [("message_id", snd kv); ("text", JStr EmptyString)])
           (messageIndex d)).

(** [doc._id.split('-')[0]], where [name] is the variable that holds
    [doc]. *)
Definition first_segment (name : string) (doc : value) : Outcome string :=
  bindO (member doc "_id")
        (fun id =>
           match id with
           | JStr s => Returned (before_hyphen s)
           | JUndefined =>
               Threw (TypeError
                        "Cannot read properties of undefined (reading 'split')")
           | JNull =>
               Threw (TypeError
                        "Cannot read properties of null (reading 'split')")
           | _ => Threw (TypeError (name ++ "._id.split is not a function"))
           end).

(** The function [getStats] reduces the documents with to find the
    oldest. *)
Definition older (oldest current : value) : Outcome value :=
  bindO (first_segment "oldest" oldest) (fun oldestId =>
  bindO (first_segment "current" current) (fun currentId =>
  Returned (if number_lt (parseInt currentId) (parseInt oldestId)
            then current else oldest))).

(** The function it finds the newest with. *)
Definition newer (newest current : value) : Outcome value :=
  bindO (first_segment "newest" newest) (fun newestId =>
  bindO (first_segment "current" current) (fun currentId =>
  Returned (if number_lt (parseInt newestId) (parseInt currentId)
            then current else newest))).

(** [documents.reduce(f)] for [documents] that begin with [acc]. *)
Fixpoint reduce (f : value -> value -> Outcome value) (acc : value)
         (rest : list value) : Outcome value :=
  match rest with
  | [] => Returned acc
  | current :: rest' => bindO (f acc current) (fun acc' => reduce f acc' rest')
  end.

Definition reduce_documents (f : value -> value -> Outcome value)
           (documents : list value) : Outcome value :=
  match documents with
  | [] => Returned JUndefined
  | first :: rest => reduce f first rest
  end.

(** [table] is [None] when no argument is given. *)
Definition getStats (table : option string) : M DatabaseStats :=
  ensureInitialized ;;
  documents <- match table with
               | Some t =>
                   if negb (String.eqb t EmptyString) then find (JObj []) t
                   else d <- this ;; ret (Map_values (documentCache d))
               | None => d <- this ;; ret (Map_values (documentCache d))
               end ;;
  messages <- getAllMessages ;;
  oldestDoc <- lift (reduce_documents older documents) ;;
  newestDoc <- lift (reduce_documents newer documents) ;;
  ret {| totalDocuments := List.length documents;
         totalMessages := List.length messages;
         oldestDocument := oldestDoc;
         newestDocument := newestDoc |}.

(** ** TableHandler *)

(** A handler keeps the name of its table; the store it works on is the
    store it was made by. *)
Record TableHandler : Type := { tableName : string }.

(** [db.table(tableName)] *)
Definition table (tableName : string) : TableHandler :=
  {| tableName := tableName |}.

Definition TableHandler_insert (h : TableHandler) (doc : value)
  : M OperationResult := insert doc (tableName h).

Definition TableHandler_insertMany (h : TableHandler) (docs : list value)
           (options : option BatchOptions) : M (list OperationResult) :=
  insertMany docs (tableName h) options.

Definition TableHandler_find (h : TableHandler) (filter : value)
  : M (list value) := find filter (tableName h).

Definition TableHandler_findOne (h : TableHandler) (filter : value)
  : M value := findOne filter (tableName h).

Definition TableHandler_findById (h : TableHandler) (id : value)
  : M value := findById id (tableName h).

Definition TableHandler_update (h : TableHandler) (filter update' : value)
           (options : UpdateOptions) : M OperationResult :=
  update filter update' (tableName h) options.

Definition TableHandler_updateById (h : TableHandler) (id update' : value)
           (options : UpdateOptions) : M OperationResult :=
  updateById id update' (tableName h) options.

Definition TableHandler_delete (h : TableHandler) (filter : value)
  : M OperationResult := delete filter (tableName h).

Definition TableHandler_deleteById (h : TableHandler) (id : value)
  : M OperationResult := deleteById id (tableName h).

Definition TableHandler_deleteAll (h : TableHandler) : M OperationResult :=
  deleteAll (tableName h).

Definition TableHandler_count (h : TableHandler) (filter : value) : M nat :=
  count filter (tableName h).

Definition getTableName (h : TableHandler) : string := tableName h.

End Store.


(* ===================================================================== *)
(** * A regular-expression engine and a chat to run the store with *)
(* ===================================================================== *)

(** An engine for a fragment of the regular expressions: characters,
    escaped punctuation, [.], [*] after one of these, [^] first and [$]
    last.  A group that is opened and not closed, a closing parenthesis
    alone, a [*] with nothing to repeat and a final backslash are rejected
    as the language rejects them.  The other patterns are outside the
    fragment, and the engine finds no match for them. *)
Module Fragment.

Inductive atom : Type := Lit (c : ascii) | Any.
Inductive piece : Type := One (a : atom) | Star (a : atom).

Inductive compiled (A : Type) : Type :=
| Compiled (a : A)
| Invalid
| Unsupported.
Arguments Compiled {A} a.
Arguments Invalid {A}.
Arguments Unsupported {A}.

Fixpoint contains_char (c : ascii) (s : string) : bool :=
  match s with
  | EmptyString => false
  | String x rest => Ascii.eqb x c || contains_char c rest
  end.

Definition is_alnum (c : ascii) : bool :=
  let n := N_of_ascii c in
  (((48 <=? n) && (n <=? 57)) || ((65 <=? n) && (n <=? 90))
   || ((97 <=? n) && (n <=? 122)))%N.

Definition add_piece (p : piece) (r : compiled (list piece * bool))
  : compiled (list piece * bool) :=
  match r with
  | Compiled (ps, to_end) => Compiled (p :: ps, to_end)
  | Invalid => Invalid
  | Unsupported => Unsupported
  end.

(** The pieces of a pattern, and whether it ends with [$]. *)
Fixpoint compile_pieces (s : string) : compiled (list piece * bool) :=
  match s with
  | EmptyString => Compiled ([], false)
  | String c rest =>
      if Ascii.eqb c "$" then
        match rest with
        | EmptyString => Compiled ([], true)
        | _ => Unsupported
        end
      else if Ascii.eqb c "(" then
        if contains_char ")" rest then Unsupported else Invalid
      else if Ascii.eqb c ")" then Invalid
      else if Ascii.eqb c "*" then Invalid
      else if contains_char c "[]{}+?|" then Unsupported
      else if Ascii.eqb c backslash then
        match rest with
        | EmptyString => Invalid
        | String e rest1 =>
            if is_alnum e then Unsupported
            else match rest1 with
                 | String "*"%char rest2 =>
                     add_piece (Star (Lit e)) (compile_pieces rest2)
                 | _ => add_piece (One (Lit e)) (compile_pieces rest1)
                 end
        end
      else
        let a := if Ascii.eqb c "." then Any else Lit c in
        match rest with
        | String "*"%char rest1 => add_piece (Star a) (compile_pieces rest1)
        | _ => add_piece (One a) (compile_pieces rest)
        end
  end.

Definition atom_matches (a : atom) (c : ascii) : bool :=
  match a with
  | Lit x => Ascii.eqb x c
  | Any => negb (Ascii.eqb c "010" || Ascii.eqb c "013")
  end.

Fixpoint match_here (ps : list piece) (to_end : bool) (text : string) : bool :=
  match ps with
  | [] => if to_end then String.eqb text EmptyString else true
  | One a :: rest =>
      match text with
      | String c t => atom_matches a c && match_here rest to_end t
      | EmptyString => false
      end
  | Star a :: rest =>
      (fix star (text : string) : bool :=
         match_here rest to_end text
         || match text with
            | String c t => atom_matches a c && star t
            | EmptyString => false
            end) text
  end.

Fixpoint search (ps : list piece) (to_end : bool) (text : string) : bool :=
  match_here ps to_end text
  || match text with
     | String _ t => search ps to_end t
     | EmptyString => false
     end.

Definition test (pattern text : string) : option bool :=
  let (from_start, body) :=
    match pattern with
    | String "^"%char rest => (true, rest)
    | _ => (false, pattern)
    end in
  match compile_pieces body with
  | Compiled (ps, to_end) =>
      Some (if from_start then match_here ps to_end text
            else search ps to_end text)
  | Invalid => None
  | Unsupported => Some false
  end.

End Fragment.

#[export] Instance fragment_engine : RegExpEngine :=
  {| regexp_test := Fragment.test |}.

(** A chat that keeps the messages sent to it and numbers them from
    [next_message_id].  [send_script] and [delete_script] tell, call after
    call, whether the chat accepts the next [sendMessage] and the next
    [deleteMessage]; once a script is used up every call is accepted.  A
    message that is not in the chat cannot be deleted. *)
Record ScriptedChat : Type := mkChat {
  history : list (Z * string);
  next_message_id : Z;
  send_script : list bool;
  delete_script : list bool;
  reachable : bool;
  clock : Z
}.

Definition chat_hello (c : ScriptedChat) : reply unit * ScriptedChat :=
  if reachable c then (Ok tt, c)
  else (Failed (mkError "FetchError" "request to api.telegram.org failed"), c).

Definition chat_send (text : string) (c : ScriptedChat) : reply Z * ScriptedChat :=
  match send_script c with
  | false :: script =>
      (Failed (mkError "TelegramError" "429: Too Many Requests"),
       mkChat (history c) (next_message_id c) script (delete_script c)
              (reachable c) (clock c))
  | script =>
      (Ok (next_message_id c),
       mkChat (history c ++ [(next_message_id c, text)])
              (next_message_id c + 1) (tl script) (delete_script c)
              (reachable c) (clock c))
  end.

Definition chat_delete (id : value) (c : ScriptedChat)
  : reply unit * ScriptedChat :=
  let present :=
    existsb (fun m => strict_equals (JNum (fst m)) id) (history c) in
  match delete_script c with
  | false :: script =>
      (Failed (mkError "TelegramError" "400: message can't be deleted"),
       mkChat (history c) (next_message_id c) (send_script c) script
              (reachable c) (clock c))
  | script =>
      if present
      then (Ok tt,
            mkChat (filter (fun m => negb (strict_equals (JNum (fst m)) id))
                           (history c))
                   (next_message_id c) (send_script c) (tl script)
                   (reachable c) (clock c))
      else (Failed (mkError "TelegramError" "400: message to delete not found"),
            mkChat (history c) (next_message_id c) (send_script c) (tl script)
                   (reachable c) (clock c))
  end.

Definition chat_now (c : ScriptedChat) : Z * ScriptedChat :=
  (clock c,
   mkChat (history c) (next_message_id c) (send_script c) (delete_script c)
          (reachable c) (clock c + 1)).

Definition chat_token (c : ScriptedChat) : string * ScriptedChat :=
  ("k3x9", c).

#[export] Instance scripted_chat : Telegram ScriptedChat :=
  {| getMe := chat_hello;
     getChat := chat_hello;
     sendMessage := chat_send;
     deleteMessage := chat_delete;
     Date_now := chat_now;
     random_token := chat_token |}.

(** A chat with no message yet, whose first message will be number 1. *)
Definition empty_chat : ScriptedChat :=
  mkChat [] 1 [] [] true 1700000000000.

(** A store on its default configuration, initialized. *)
Definition default_config : TelegramDBConfig :=
  {| config_chatId := "-1001"; messagePrefix := None;
     config_batchDelay := None; config_maxRetries := None |}.

Definition fresh_store : TelegramDB :=
  set_initialized true (new_TelegramDB default_config).

(** The state in which a method leaves the store and the chat. *)
Definition after {Chat A : Type} (run : Outcome A * @World Chat) : @World Chat :=
  snd run.


(** ** JSON data *)

Fixpoint distinct (ks : list string) : bool :=
  match ks with
  | [] => true
  | k :: rest => negb (existsb (String.eqb k) rest) && distinct rest
  end.

(** The values that are JSON data: [null], booleans, numbers, strings,
    arrays of data and objects of data, an object having no two properties
    of one name.  This is what a document is made of (scalars, nested
    mappings and sequences). *)
Fixpoint json_data (v : value) : bool :=
  match v with
  | JUndefined => false
  | JNull | JBool _ | JNum _ | JStr _ => true
  | JArr items => forallb json_data items
  | JObj props =>
      distinct (map fst props)
      && forallb (fun kv => json_data (snd kv)) props
  end.

(** The number of values in [v], counting a container once more for each
    of its elements: a bound on the nesting of calls its text needs. *)
Fixpoint size (v : value) : nat :=
  match v with
  | JArr items => S (fold_right (fun x n => S (size x + n)%nat) O items)
  | JObj props => S (fold_right (fun kv n => S (size (snd kv) + n)%nat) O props)
  | _ => 1%nat
  end.


(** The texts of the members of an object, as [serialize] writes them. *)
Fixpoint member_texts (props : list (string * value)) : list string :=
  match props with
  | [] => []
  | (k, x) :: rest =>
      match JSON.serialize x with
      | Some t => (JSON.quote k ++ String ":" t)%string :: member_texts rest
      | None => member_texts rest
      end
  end.

Definition element_text (x : value) : string :=
  match JSON.serialize x with Some t => t | None => "null" end.

(** What may follow a numeral: anything but a digit. *)
Definition no_digit_head (rest : string) : bool :=
  match rest with
  | String c _ =>
      match JSON.digit_of_char c with Some _ => false | None => true end
  | EmptyString => true
  end.

Definition is_number_start (c : ascii) : bool :=
  match JSON.digit_of_char c with
  | Some _ => true
  | None => Ascii.eqb c "-"
  end.

(** The characters a serialized value can begin with. *)
Definition is_value_start (c : ascii) : bool :=
  is_number_start c
  || Ascii.eqb c "n" || Ascii.eqb c "t" || Ascii.eqb c "f"
  || Ascii.eqb c dquote || Ascii.eqb c "[" || Ascii.eqb c "{".


Definition elements_size (items : list value) : nat :=
  fold_right (fun x n => S (size x + n)%nat) O items.

Definition members_size (props : list (string * value)) : nat :=
  fold_right (fun kv n => S (size (snd kv) + n)%nat) O props.

(** [v] has a text, no shorter than [size v], from which [parse_value]
    reads [v] back whatever follows. *)
Definition reads_back (v : value) : Prop :=
  exists t,
    JSON.serialize v = Some t
    /\ (size v <= String.length t)%nat
    /\ forall fuel rest,
         (size v <= fuel)%nat -> no_digit_head rest = true ->
         JSON.parse_value fuel (t ++ rest) = Some (v, rest).


(** ** Statements under examination *)



(** [decodeDocument] answers none exactly when the payload does not
    start with the prefix or its remainder fails to parse. *)
Definition decode_none_exactly_when (messageText prefix : string) : Prop :=
  decodeDocument messageText prefix = Returned JNull
  <-> (startsWith messageText prefix = false
       \/ exists e,
            JSON.parse (substring_from (String.length prefix) messageText)
            = Threw e).

(** The operators [matchesOperators] knows. *)
Definition known_operator (op : string) : bool :=
  existsb (String.eqb op)
          ["$gt"; "$gte"; "$lt"; "$lte"; "$ne"; "$in"; "$nin"; "$regex";
           "$exists"]%string.

(** A document to try the codec on. *)
Definition sample_document : value :=
  JObj [("_id", JStr "1700000000000-k3x9");
        ("_table", JStr "users");
        ("name", JStr "John");
        ("age", JNum 30);
        ("tags", JArr [JStr "a"; JNull; JBool true; JNum (-7); JArr []]);
        ("note", JStr (String dquote (String backslash
                         (String "010" (String "001" "quoted/text")))));
        ("address", JObj [("city", JStr "London");
                          ("geo", JObj [("lat", JNum 51); ("lon", JNum 0)])])].


(** What [find] answers on a store that is initialized: the documents of
    the cache that match, or the error of the scan wrapped in a new
    [Error]. *)
Definition found_in {Chat : Type} {engine : RegExpEngine}
           (w : @World Chat) (filter : value) (table : string)
  : Outcome (list value) :=
  match select (Map_values (documentCache (db w))) (with_table filter table) with
  | Returned docs => Returned docs
  | Threw (Some err) =>
      Threw (Some (mkError "Error"
                     ("Failed to find documents: " ++ error_message err)))
  | Threw None =>
      Threw (TypeError
               "Cannot read properties of undefined (reading 'message')")
  end.

(** The documents of the cache whose [_table] is [table]. *)
Definition table_documents {Chat : Type} (w : @World Chat) (table : string)
  : list value :=
  filter (fun doc => strict_equals (optional_get doc "_table") (JStr table))
         (Map_values (documentCache (db w))).


(** The documents recorded in the history of a chat under [prefix]. *)
Definition history_documents (c : ScriptedChat) (prefix : string) : list value :=
  flat_map
    (fun m =>
       let text := snd m in
       if startsWith text prefix && negb (startsWith text (prefix ++ "INDEX:"))
       then match decodeDocument text prefix with
            | Returned doc => if truthy doc then [doc] else []
            | Threw _ => []
            end
       else [])
    (history c).

(** [find], called while the cache is empty, answers from the history of
    the chat: every document recorded there that matches is found. *)
Definition find_rehydrates (w : @World ScriptedChat) (filter : value)
           (table : string) : Prop :=
  documentCache (db w) = [] ->
  exists docs w',
    find filter table w = (Returned docs, w')
    /\ forall doc,
         In doc (history_documents (channel w) (prefix (db w))) ->
         matchesFilter doc (with_table filter table) = Returned true ->
         In doc docs.

Definition john : value := JObj [("name", JStr "John"); ("age", JNum 30)].

(** The chat after a store inserted [john] into the table [users]. *)
Definition chat_with_john : ScriptedChat :=
  channel (after (insert john "users" (mkWorld fresh_store empty_chat))).

(** A new store, initialized on that chat. *)
Definition restarted : @World ScriptedChat :=
  after (initialize (mkWorld (new_TelegramDB default_config) chat_with_john)).


(** The fold of [deepMerge] over the entries of the source, [output]
    being the copy of the target made so far. *)
Definition merge_entries (target : value) (tprops : list (string * value))
           (entries output : list (string * value)) : list (string * value) :=
  fold_left
    (fun output kv =>
       match snd kv with
       | JObj _ =>
           if negb (has_property tprops (fst kv))
           then set_property (fst kv) (snd kv) output
           else set_property (fst kv)
                  (deepMerge (get_property target (fst kv)) (snd kv)) output
       | _ => set_property (fst kv) (snd kv) output
       end)
    entries output.

(** [update], on success, leaves every document it answers in the table
    it was matched in. *)
Definition update_preserves_table (w : @World ScriptedChat)
           (filter patch : value) (table : string) (options : UpdateOptions)
  : Prop :=
  forall r w',
    update filter patch table options w = (Returned r, w') ->
    success r = true ->
    forall doc, In doc (match data r with JArr docs => docs | _ => [] end) ->
                get_property doc "_table" = JStr table.

(** The store after [john] was inserted into the table [users]. *)
Definition store_with_john : @World ScriptedChat :=
  after (insert john "users" (mkWorld fresh_store empty_chat)).

Definition merge_mode : UpdateOptions := {| upsert := false; replace := false |}.
Definition replace_mode : UpdateOptions := {| upsert := false; replace := true |}.


(** The failed result that carries the error [err]:
    [{ success: false, error: err, message: what + err.message }]. *)
Definition failure (what : string) (err : Error) : OperationResult :=
  {| success := false;
     message := Some (what ++ error_message err)%string;
     data := JUndefined;
     error := Some err |}.

(** A store that is initialized and attempts every send at least once. *)
Definition ready (d : TelegramDB) : Prop :=
  initialized d = true /\ 0 < maxRetries d.

Section Raising.
Context {Chat : Type}.

(** The method returns: it raises nothing. *)
Definition returns {A : Type} (m : @M Chat A) (w : @World Chat) : Prop :=
  exists a w', m w = (Returned a, w').

(** On a ready store the method returns, and leaves the store ready. *)
Definition never_raises {A : Type} (m : @M Chat A) : Prop :=
  forall w, ready (db w) ->
            exists a w', m w = (Returned a, w') /\ ready (db w').

(** On a ready store the method leaves the store ready, and whatever it
    throws is an [Error]. *)
Definition raises_errors_only {A : Type} (m : @M Chat A) : Prop :=
  forall w, ready (db w) ->
            forall o w', m w = (o, w') ->
                         ready (db w') /\ (forall e, o = Threw e -> e <> None).

End Raising.

(** A chat that refuses the next three sends. *)
Definition refusing_chat : ScriptedChat :=
  mkChat [] 1 [false; false; false] [] true 1700000000000.

(** A filter whose regular expression does not compile. *)
Definition unterminated_group_filter : value :=
  JObj [("name", JObj [("$regex", JStr "(")])].


(** Three documents of the table [users], with identifiers of their own. *)
Definition alice : value := JObj [("_id", JStr "a"); ("name", JStr "Alice")].
Definition bob : value := JObj [("_id", JStr "b"); ("name", JStr "Bob")].
Definition carol : value := JObj [("_id", JStr "c"); ("name", JStr "Carol")].

Definition store_with_three : @World ScriptedChat :=
  after (insert carol "users"
    (after (insert bob "users"
      (after (insert alice "users" (mkWorld fresh_store empty_chat)))))).

(** The same store, on a chat that accepts the next send and refuses the
    three after it. *)
Definition store_on_flaky_chat : @World ScriptedChat :=
  let c := channel store_with_three in
  mkWorld (db store_with_three)
          (mkChat (history c) (next_message_id c) [true; false; false; false]
                  (delete_script c) (reachable c) (clock c)).

(** [update] goes on after a send that failed: its result lists the
    updated [first] and [third] of three matching documents, the send of
    the second having failed. *)
Definition continues_past_failure (w : @World ScriptedChat)
           (filter patch : value) (table : string) (options : UpdateOptions)
           (first third : value) : Prop :=
  exists r w',
    update filter patch table options w = (Returned r, w')
    /\ data r
       = JArr [updated_document patch options first (get_property first "_id");
               updated_document patch options third (get_property third "_id")].


(** ** The local effect of delete *)

(** The index holds a message id for the document. *)
Definition has_message_id {Chat : Type} (w : @World Chat) (doc : value) : bool :=
  truthy (Map_get (messageIndex (db w)) (get_property doc "_id")).

(** No two entries of the map have the same key. *)
Fixpoint distinct_keys (m : JsMap) : bool :=
  match m with
  | [] => true
  | (k, _) :: rest =>
      negb (existsb (fun kv => strict_equals (fst kv) k) rest)
      && distinct_keys rest
  end.

(** Every document of the cache is kept under its own [_id]. *)
Definition keyed_by_id (m : JsMap) : bool :=
  forallb (fun kv =>
             match member (snd kv) "_id" with
             | Returned id => strict_equals (fst kv) id
             | Threw _ => false
             end) m.

Definition cache_well_formed (m : JsMap) : bool :=
  distinct_keys m && keyed_by_id m.

(** What the loop of [delete] leaves of the index and of the cache: the
    documents with a message id in the index are removed from both, the
    others are passed over. *)
Fixpoint removed_locally (index cache : JsMap) (documents : list value)
  : JsMap * JsMap :=
  match documents with
  | [] => (index, cache)
  | doc :: rest =>
      let id := get_property doc "_id" in
      if truthy (Map_get index id)
      then removed_locally (Map_delete id index) (Map_delete id cache) rest
      else removed_locally index cache rest
  end.

(** The number of matching documents whose message the chat accepts to
    delete, the calls being made in the order of the documents. *)
Fixpoint accepted_deletes {Chat : Type} {telegram : Telegram Chat}
         (index : JsMap) (documents : list value) (c : Chat) : nat :=
  match documents with
  | [] => O
  | doc :: rest =>
      let id := get_property doc "_id" in
      let messageId := Map_get index id in
      if truthy messageId
      then match deleteMessage messageId c with
           | (Ok _, c') => S (accepted_deletes (Map_delete id index) rest c')
           | (Failed _, c') => accepted_deletes (Map_delete id index) rest c'
           end
      else accepted_deletes index rest c
  end.

(** [delete] removes every matching document from the cache. *)
Definition delete_removes_every_match (w : @World ScriptedChat)
           (filter : value) (table : string) : Prop :=
  forall documents,
    find_matching filter table w = (Returned documents, w) ->
    forall r w',
      delete filter table w = (Returned r, w') ->
      forall doc, In doc documents ->
                  ~ In doc (Map_values (documentCache (db w'))).

(** Another writer on the chat of [store_with_john] inserts [bob]. *)
Definition second_writer : @World ScriptedChat :=
  after (insert bob "users" (mkWorld fresh_store (channel store_with_john))).

(** The message of the chat numbered [id], as the listener receives it. *)
Definition message_of_chat (c : ScriptedChat) (id : Z) : Message :=
  {| message_id := id;
     text := match List.find (fun m => fst m =? id) (history c) with
             | Some m => Some (snd m)
             | None => None
             end;
     chat := "-1001" |}.

(** The store that holds John, after its listener received the snapshot
    the second writer published (message 4 of the chat). *)
Definition store_after_snapshot : @World ScriptedChat :=
  after (onMessage (message_of_chat (channel second_writer) 4)
                   (mkWorld (db store_with_john) (channel second_writer))).


(* ===================================================================== *)
(** * Further notions *)
(* ===================================================================== *)

(** ** Notions of the filter engine *)

(** A field that is there: neither [undefined] nor [null]. *)
Definition present (v : value) : bool :=
  negb (strict_equals v JUndefined) && negb (strict_equals v JNull).

(** The four operators of order. *)
Definition comparison (op : string) : bool :=
  existsb (String.eqb op) ["$gt"; "$gte"; "$lt"; "$lte"]%string.

Fixpoint no_dot (s : string) : bool :=
  match s with
  | EmptyString => true
  | String c rest => negb (Ascii.eqb c ".") && no_dot rest
  end.

Definition nullish (v : value) : bool :=
  match v with JUndefined | JNull => true | _ => false end.


(** The names every object inherits from [Object.prototype]: [obj[name]]
    and [name in obj] find them on an object that has no property of its
    own by that name. *)
Definition inherited (name : string) : bool :=
  existsb (String.eqb name)
          ["constructor"; "hasOwnProperty"; "isPrototypeOf";
           "propertyIsEnumerable"; "toLocaleString"; "toString"; "valueOf";
           "__proto__"; "__defineGetter__"; "__defineSetter__";
           "__lookupGetter__"; "__lookupSetter__"]%string.

(** Reading the path from [v] meets own properties only: each value on
    the way is an object, read by a name it has as its own or does not
    inherit, or an array or a string, read by an index; [undefined] and
    [null] end the descent. *)
Fixpoint own_path (v : value) (segments : list string) : bool :=
  match segments with
  | [] => true
  | name :: rest =>
      match v with
      | JUndefined | JNull => true
      | JObj props =>
          (has_property props name || negb (inherited name))
          && own_path (get_property v name) rest
      | JArr _ | JStr _ =>
          match array_index name with
          | Some _ => own_path (get_property v name) rest
          | None => false
          end
      | _ => false
      end
  end.



(** No object in [v], at any depth of nested objects, has a property by a
    name that objects inherit. *)
Fixpoint plainly_named (v : value) : bool :=
  match v with
  | JObj props =>
      forallb (fun kv => negb (inherited (fst kv)) && plainly_named (snd kv))
              props
  | _ => true
  end.

(** The name is no array index.  The language lists the properties whose
    names are array indices first, in ascending order, and the others
    after them in the order they were defined, which is the order of the
    lists here. *)
Definition no_index (name : string) : bool :=
  match array_index name with
  | Some _ => false
  | None => true
  end.

(** ** What the methods keep *)

Section Keeping.
Context {Chat : Type}.

(** The method keeps the property [I] of the store, whether it returns
    or raises, and what it returns has the property [Q]. *)
Definition keeps_with {A : Type} (I : TelegramDB -> Prop) (m : @M Chat A)
           (Q : A -> Prop) : Prop :=
  forall w o w', I (db w) -> m w = (o, w') ->
                 I (db w') /\ forall a, o = Returned a -> Q a.

Definition keeps {A : Type} (I : TelegramDB -> Prop) (m : @M Chat A) : Prop :=
  keeps_with I m (fun _ => True).

End Keeping.

(** A property of the store that does not depend on its flag nor on the
    message id of its snapshot, and that setting or deleting an entry of
    the index, deleting an entry of the cache and clearing either keep. *)
Record stable (I : TelegramDB -> Prop) : Prop := {
  stable_initialized : forall b d, I d -> I (set_initialized b d);
  stable_indexMessageId : forall v d, I d -> I (set_indexMessageId v d);
  stable_index_set :
    forall k v d, I d -> I (set_messageIndex (Map_set k v (messageIndex d)) d);
  stable_index_delete :
    forall k d, I d -> I (set_messageIndex (Map_delete k (messageIndex d)) d);
  stable_index_clear : forall d, I d -> I (set_messageIndex [] d);
  stable_cache_delete :
    forall k d, I d -> I (set_documentCache (Map_delete k (documentCache d)) d);
  stable_cache_clear : forall d, I d -> I (set_documentCache [] d)
}.

(** Every value of the cache is cached under its own [_id]; it is then
    neither [null] nor [undefined]. *)
Definition under_own_id (m : JsMap) : Prop :=
  forall k doc, In (k, doc) m -> member doc "_id" = Returned k.

(** The store has the configuration of [d0], every value of its cache is
    cached under its own [_id], and neither its cache nor its index has
    two entries of one key. *)
Definition sound (d0 d : TelegramDB) : Prop :=
  chatId d = chatId d0 /\ prefix d = prefix d0
  /\ batchDelay d = batchDelay d0 /\ maxRetries d = maxRetries d0
  /\ under_own_id (documentCache d)
  /\ distinct_keys (documentCache d) = true
  /\ distinct_keys (messageIndex d) = true.

(** What happens to a store: a call of one of its methods, or a message
    of the chat that comes to its listener. *)
Inductive operation : Type :=
| Initialize
| Close
| Insert (doc : value) (table : string)
| InsertMany (docs : list value) (table : string) (options : option BatchOptions)
| Find (filter : value) (table : string)
| FindOne (filter : value) (table : string)
| FindById (id : value) (table : string)
| Count (filter : value) (table : string)
| Update (filter patch : value) (table : string) (options : UpdateOptions)
| UpdateById (id patch : value) (table : string) (options : UpdateOptions)
| Delete (filter : value) (table : string)
| DeleteById (id : value) (table : string)
| DeleteAll (table : string)
| DropTable (table : string)
| GetTables
| GetStats (table : option string)
| Receive (ctx : Message).

(** The store and the chat after the operation, whether it returned or
    raised. *)
Definition perform {engine : RegExpEngine} {Chat : Type}
           {telegram : Telegram Chat} (op : operation) (w : @World Chat)
  : @World Chat :=
  match op with
  | Initialize => after (initialize w)
  | Close => after (close w)
  | Insert doc table => after (insert doc table w)
  | InsertMany docs table options => after (insertMany docs table options w)
  | Find filter table => after (find filter table w)
  | FindOne filter table => after (findOne filter table w)
  | FindById id table => after (findById id table w)
  | Count filter table => after (count filter table w)
  | Update filter patch table options =>
      after (update filter patch table options w)
  | UpdateById id patch table options =>
      after (updateById id patch table options w)
  | Delete filter table => after (delete filter table w)
  | DeleteById id table => after (deleteById id table w)
  | DeleteAll table => after (deleteAll table w)
  | DropTable table => after (dropTable table w)
  | GetTables => after (getTables w)
  | GetStats table => after (getStats table w)
  | Receive ctx => after (onMessage ctx w)
  end.

Definition run_all {engine : RegExpEngine} {Chat : Type}
           {telegram : Telegram Chat} (ops : list operation) (w : @World Chat)
  : @World Chat :=
  fold_left (fun w op => perform op w) ops w.

(** Whether the document matches the query, when matching raises
    nothing. *)
Definition matches {engine : RegExpEngine} (query doc : value) : bool :=
  match matchesFilter doc query with
  | Returned b => b
  | Threw _ => false
  end.

(** A store made by the constructor, and then used. *)
Definition used_store {engine : RegExpEngine} {Chat : Type}
           {telegram : Telegram Chat} (config : TelegramDBConfig) (c : Chat)
           (ops : list operation) : @World Chat :=
  run_all ops (mkWorld (new_TelegramDB config) c).

(** A value that is equal to itself by [===]: a primitive, neither an
    object nor an array. *)
Definition primitive (v : value) : bool := strict_equals v v.




(** The value the cache holds for the identifier [id], when its [_table]
    is [table]; [null] otherwise. *)
Definition cached_in {Chat : Type} (w : @World Chat) (id : value)
           (table : string) : value :=
  let doc := Map_get (documentCache (db w)) id in
  if strict_equals (optional_get doc "_table") (JStr table) then doc else JNull.

(** The list of the one document found, empty for [null]. *)
Definition found_list (doc : value) : list value :=
  match doc with
  | JNull => []
  | _ => [doc]
  end.

(** ** The snapshot of the index *)

(** The snapshot [saveMessageIndex] writes at the time [now]. *)
Definition snapshot (d : TelegramDB) (now : Z) : value :=
  JObj [("_id", JStr "__INDEX__");
        ("_table", JStr "__SYSTEM__");
        ("messageIndex", JArr (Map_entries (messageIndex d)));
        ("documents", JArr (Map_values (documentCache d)));
        ("updatedAt", JNum now)].

(** The cache after each of the documents was set in it under its
    [_id]. *)
Definition cache_all (docs : list value) (cache : JsMap) : JsMap :=
  fold_left (fun c doc => Map_set (get_property doc "_id") doc c) docs cache.

(** The index and the cache hold JSON data only, and no value of the
    cache is [null]. *)
Definition snapshot_data (d : TelegramDB) : bool :=
  forallb (fun kv => json_data (fst kv) && json_data (snd kv)) (messageIndex d)
  && forallb (fun doc => json_data doc && negb (nullish doc))
             (Map_values (documentCache d)).

(** ** Attempts *)

(** The store and the chat after [k] attempts of the operation, when each
    of them raised. *)
Fixpoint after_failures {Chat A : Type} (operation : @M Chat A) (k : nat)
         (w : @World Chat) : option (@World Chat) :=
  match k with
  | O => Some w
  | S k' =>
      match operation w with
      | (Threw _, w') => after_failures operation k' w'
      | (Returned _, _) => None
      end
  end.

(** [options?.stopOnError || false] *)
Definition stops (options : option BatchOptions) : bool :=
  match options with
  | Some o => stopOnError o
  | None => false
  end.

(** The result of a write that found no document. *)
Definition nothing_found (what : string) : OperationResult :=
  {| success := false;
     message := Some ("No documents found to " ++ what)%string;
     data := JUndefined;
     error := None |}.

(** The error [initialize] raises for the error [err] of the chat. *)
Definition initialization_error (err : Error) : thrown :=
  Some (mkError "Error"
          ("Failed to initialize Telegram DB: "
           ++ error_name err ++ ": " ++ error_message err)).

(** A store as [initialize] leaves it: the index and the cache empty. *)
Definition initialized_anew (d : TelegramDB) : TelegramDB :=
  set_initialized true (set_documentCache [] (set_messageIndex [] d)).

(** ** Statistics *)

(** The store that holds John, after a second document without an [_id]
    was inserted: both have identifiers that begin with a time. *)
Definition store_with_two : @World ScriptedChat :=
  after (insert (JObj [("name", JStr "Jane")]) "users" store_with_john).

(** The number [getStats] reads at the head of the [_id] of a document;
    [None] is [NaN]. *)
Definition stamp (doc : value) : option Z :=
  match get_property doc "_id" with
  | JStr s => parseInt (before_hyphen s)
  | _ => None
  end.

(** The number is one the language holds exactly: [NaN], or an integer
    of at most [2^53] in absolute value.  [parseInt] rounds the others to
    the nearest number it has. *)
Definition exact (n : option Z) : bool :=
  match n with
  | Some z => Z.abs z <=? 2 ^ 53
  | None => true
  end.

(** The document is neither [null] nor [undefined] and its [_id] is a
    string. *)
Definition has_string_id (doc : value) : bool :=
  negb (nullish doc)
  && match get_property doc "_id" with JStr _ => true | _ => false end.

(** The documents [getStats] counts: those of the table when a table is
    given, and all those of the cache otherwise. *)
Definition stats_documents {Chat : Type} (w : @World Chat)
           (table : option string) : list value :=
  match table with
  | Some t =>
      if negb (String.eqb t EmptyString) then table_documents w t
      else Map_values (documentCache (db w))
  | None => Map_values (documentCache (db w))
  end.

(* ===================================================================== *)
(** * Properties *)
(* ===================================================================== *)

(** Induction over the nesting of arrays and objects. *)
Lemma value_nested_ind (P : value -> Prop) :
  P JUndefined -> P JNull -> (forall b, P (JBool b)) ->
  (forall n, P (JNum n)) -> (forall s, P (JStr s)) ->
  (forall items, Forall P items -> P (JArr items)) ->
  (forall props, Forall (fun kv => P (snd kv)) props -> P (JObj props)) ->
  forall v, P v.
Proof.
  intros Hu Hn Hb Hz Hs Ha Ho.
  refine (fix IH (v : value) : P v :=
            match v with
            | JUndefined => Hu | JNull => Hn | JBool b => Hb b
            | JNum n => Hz n | JStr s => Hs s
            | JArr items => Ha items _
            | JObj props => Ho props _
            end).
  - induction items as [ | x xs IHxs ]; constructor; [ apply IH | exact IHxs ].
  - induction props as [ | [k x] xs IHxs ]; constructor; [ apply IH | exact IHxs ].
Qed.

Lemma append_assoc (a b c : string) :
  ((a ++ b) ++ c = a ++ (b ++ c))%string.
Proof. induction a as [ | x a IH ]; simpl; [ reflexivity | now rewrite IH ]. Qed.

Lemma append_nil_r (a : string) : (a ++ EmptyString)%string = a.
Proof. induction a as [ | x a IH ]; simpl; [ reflexivity | now rewrite IH ]. Qed.

Lemma startsWith_append (prefix rest : string) :
  startsWith (prefix ++ rest) prefix = true.
Proof.
  unfold startsWith. induction prefix as [ | c p IH ]; simpl.
  - now destruct rest.
  - destruct (ascii_dec c c) as [ _ | Hne ]; [ exact IH | now elim Hne ].
Qed.

Lemma substring_from_append (prefix rest : string) :
  substring_from (String.length prefix) (prefix ++ rest) = rest.
Proof. induction prefix as [ | c p IH ]; simpl; [ reflexivity | exact IH ]. Qed.


(** ** Strings *)

Lemma length_append (a b : string) :
  String.length (a ++ b) = (String.length a + String.length b)%nat.
Proof. induction a as [ | x a IH ]; simpl; [ reflexivity | now rewrite IH ]. Qed.

(** ** The text of a string literal is read back *)

Module JSONFacts.
Import JSON.

Lemma parse_quote_char (c : ascii) (tail : string) :
  parse_chars (quote_char c ++ tail) = prepend c (parse_chars tail).
Proof.
  destruct c as [[] [] [] [] [] [] [] []]; reflexivity.
Qed.

Lemma parse_quote_chars (s rest : string) :
  parse_chars (quote_chars s ++ String dquote rest) = Some (s, rest).
Proof.
  induction s as [ | c s IH ]; [ reflexivity | ].
  cbn [quote_chars]. rewrite append_assoc, parse_quote_char, IH. reflexivity.
Qed.

Lemma quote_append (s rest : string) :
  (quote s ++ rest)%string = String dquote (quote_chars s ++ String dquote rest).
Proof. unfold quote. cbn [append]. now rewrite append_assoc. Qed.


(** ** Numerals *)

Lemma scan_digits_no_digit (rest : string) :
  no_digit_head rest = true -> scan_digits rest = (Nil, rest).
Proof.
  destruct rest as [ | c r ]; [ reflexivity | ].
  cbn. destruct (digit_of_char c); [ discriminate | reflexivity ].
Qed.

Lemma scan_digits_print (d : uint) (rest : string) :
  no_digit_head rest = true ->
  scan_digits (NilEmpty.string_of_uint d ++ rest) = (d, rest).
Proof.
  intros Hrest.
  induction d as [ | d IH | d IH | d IH | d IH | d IH | d IH | d IH | d IH
                   | d IH | d IH ];
    cbn; [ now apply scan_digits_no_digit | .. ]; now rewrite IH.
Qed.

Lemma int_numeral_unorm (d : uint) : int_numeral (unorm d) = true.
Proof.
  unfold unorm. generalize (nzhead_nonzero d).
  destruct (nzhead d) as [ | u | u | u | u | u | u | u | u | u | u ];
    intros Hnz; try reflexivity.
  now elim (Hnz u).
Qed.

Lemma int_numeral_to_uint (p : positive) : int_numeral (Pos.to_uint p) = true.
Proof.
  replace (Pos.to_uint p) with (unorm (Pos.to_uint p)).
  - apply int_numeral_unorm.
  - rewrite <- DecimalPos.Unsigned.to_of, DecimalPos.Unsigned.of_to.
    reflexivity.
Qed.

Lemma strip_minus_digits (d : uint) (rest : string) :
  d <> Nil ->
  strip_minus (NilEmpty.string_of_uint d ++ rest)
  = (false, (NilEmpty.string_of_uint d ++ rest)%string).
Proof. destruct d; intros Hd; try reflexivity. now elim Hd. Qed.

Lemma parse_number_print (n : Z) (rest : string) :
  no_digit_head rest = true ->
  parse_number (number_to_string n ++ rest) = Some (n, rest).
Proof.
  intros Hrest. destruct n as [ | p | p ]; unfold parse_number.
  - cbn. rewrite (scan_digits_no_digit rest Hrest). reflexivity.
  - cbn [number_to_string].
    rewrite strip_minus_digits by apply DecimalPos.Unsigned.to_uint_nonnil.
    rewrite scan_digits_print by assumption.
    rewrite int_numeral_to_uint. unfold N.of_uint.
    rewrite DecimalPos.Unsigned.of_to. reflexivity.
  - cbn [number_to_string append strip_minus].
    rewrite scan_digits_print by assumption.
    rewrite int_numeral_to_uint. unfold N.of_uint.
    rewrite DecimalPos.Unsigned.of_to. reflexivity.
Qed.

Lemma number_head (n : Z) :
  exists c t, number_to_string n = String c t /\ is_number_start c = true.
Proof.
  destruct n as [ | p | p ]; cbn [number_to_string].
  - now exists "0"%char, EmptyString.
  - generalize (DecimalPos.Unsigned.to_uint_nonnil p).
    destruct (Pos.to_uint p) as [ | u | u | u | u | u | u | u | u | u | u ];
      intros Hnil; [ now elim Hnil | .. ];
      cbn; eexists; eexists; split; reflexivity.
  - eexists; eexists; split; reflexivity.
Qed.

Lemma parse_value_number_start (fuel : nat) (c : ascii) (r : string) :
  is_number_start c = true ->
  parse_value (S fuel) (String c r)
  = match parse_number (String c r) with
    | Some (z, r') => Some (JNum z, r')
    | None => None
    end.
Proof.
  destruct c as [[] [] [] [] [] [] [] []]; intros H;
    try discriminate H; reflexivity.
Qed.

Lemma parse_value_number (fuel : nat) (n : Z) (rest : string) :
  no_digit_head rest = true ->
  parse_value (S fuel) (number_to_string n ++ rest) = Some (JNum n, rest).
Proof.
  intros Hrest. destruct (number_head n) as (c & t & Ht & Hc).
  pose proof (parse_number_print n rest Hrest) as Hp.
  rewrite Ht in *. cbn [append] in *.
  rewrite (parse_value_number_start fuel c _ Hc), Hp. reflexivity.
Qed.


(** ** Objects built from distinct members *)

Lemma set_property_fresh (k : string) (v : value) (props : list (string * value)) :
  existsb (String.eqb k) (map fst props) = false ->
  set_property k v props = props ++ [(k, v)].
Proof.
  induction props as [ | [k' v'] rest IH ]; cbn; [ reflexivity | ].
  intros H. apply orb_false_iff in H as [Hk Hrest].
  rewrite String.eqb_sym, Hk, IH by assumption. reflexivity.
Qed.

Lemma existsb_app_false (k : string) (a b : list string) :
  existsb (String.eqb k) (a ++ b) = false <->
  existsb (String.eqb k) a = false /\ existsb (String.eqb k) b = false.
Proof. rewrite existsb_app. apply orb_false_iff. Qed.

Lemma fold_set_property_distinct (kvs acc : list (string * value)) :
  distinct (map fst kvs) = true ->
  (forall k, In k (map fst kvs) ->
             existsb (String.eqb k) (map fst acc) = false) ->
  fold_left (fun props kv => set_property (fst kv) (snd kv) props) kvs acc
  = acc ++ kvs.
Proof.
  revert acc. induction kvs as [ | [k v] rest IH ]; intros acc Hd Hfresh.
  - cbn. now rewrite List.app_nil_r.
  - cbn in Hd. apply andb_true_iff in Hd as [Hk Hd].
    apply negb_true_iff in Hk.
    cbn [fold_left fst snd].
    rewrite set_property_fresh by (apply Hfresh; now left).
    rewrite IH; [ now rewrite <- List.app_assoc | assumption | ].
    intros k' Hin. rewrite List.map_app. apply existsb_app_false. split.
    + apply Hfresh. now right.
    + cbn. apply orb_false_iff. split; [ | reflexivity ].
      destruct (String.eqb_spec k' k) as [ -> | Hne ]; [ | reflexivity ].
      exfalso. apply (in_map (String.eqb k)) in Hin.
      rewrite String.eqb_refl in Hin.
      assert (Hex : existsb (String.eqb k) (map fst rest) = true).
      { apply existsb_exists. apply in_map_iff in Hin as (y & Hy & Hiny).
        exists y. split; [ assumption | exact Hy ]. }
      congruence.
Qed.

Lemma object_of_members_distinct (kvs : list (string * value)) :
  distinct (map fst kvs) = true -> object_of_members kvs = kvs.
Proof.
  intros Hd. unfold object_of_members.
  now rewrite fold_set_property_distinct.
Qed.

(** ** Texts of arrays and objects *)

Lemma serialize_arr (items : list value) :
  serialize (JArr items)
  = Some (String "[" (join_comma (map element_text items) ++ "]")).
Proof. reflexivity. Qed.

Lemma serialize_obj (props : list (string * value)) :
  serialize (JObj props)
  = Some (String "{" (join_comma (member_texts props) ++ "}")).
Proof. reflexivity. Qed.

Lemma serialize_head (v : value) (t : string) :
  serialize v = Some t ->
  exists c t', t = String c t' /\ is_value_start c = true.
Proof.
  destruct v as [ | | [] | n | s | items | props ]; intros H;
    try discriminate H;
    try (injection H as <-; eexists; eexists; split; reflexivity).
  injection H as <-. destruct (number_head n) as (c & t' & -> & Hc).
    exists c, t'. split; [ reflexivity | ].
    unfold is_value_start. now rewrite Hc.
Qed.

Lemma parse_value_array_start (fuel : nat) (c : ascii) (t : string) :
  is_value_start c = true ->
  parse_value (S fuel) (String "[" (String c t))
  = match parse_elements fuel (String c t) with
    | Some (xs, r') => Some (JArr xs, r')
    | None => None
    end.
Proof.
  destruct c as [[] [] [] [] [] [] [] []]; intros H;
    try discriminate H; reflexivity.
Qed.


Lemma parse_elements_next (f : nat) (s r : string) (x : value) :
  parse_value f s = Some (x, String "," r) ->
  parse_elements (S f) s
  = match parse_elements f r with
    | Some (xs, r') => Some (x :: xs, r')
    | None => None
    end.
Proof. intros H. cbn [parse_elements]. rewrite H. reflexivity. Qed.

Lemma parse_elements_last (f : nat) (s r : string) (x : value) :
  parse_value f s = Some (x, String "]" r) ->
  parse_elements (S f) s = Some ([x], r).
Proof. intros H. cbn [parse_elements]. rewrite H. reflexivity. Qed.

Lemma parse_members_next (f : nat) (k s r : string) (x : value) :
  parse_value f s = Some (x, String "," r) ->
  parse_members (S f) (quote k ++ String ":" s)
  = match parse_members f r with
    | Some (kvs, r') => Some ((k, x) :: kvs, r')
    | None => None
    end.
Proof.
  intros H. rewrite quote_append. cbn [parse_members skip_ws is_ws].
  cbn. rewrite parse_quote_chars. cbn. rewrite H. reflexivity.
Qed.

Lemma parse_members_last (f : nat) (k s r : string) (x : value) :
  parse_value f s = Some (x, String "}" r) ->
  parse_members (S f) (quote k ++ String ":" s) = Some ([(k, x)], r).
Proof.
  intros H. rewrite quote_append. cbn [parse_members skip_ws is_ws].
  cbn. rewrite parse_quote_chars. cbn. rewrite H. reflexivity.
Qed.

Lemma join_comma_cons (p q : string) (rest : list string) :
  join_comma (p :: q :: rest) = (p ++ String "," (join_comma (q :: rest)))%string.
Proof. reflexivity. Qed.

Lemma elements_read_back (items : list value) :
  Forall reads_back items -> items <> [] ->
  (elements_size items
   <= S (String.length (join_comma (map element_text items))))%nat
  /\ forall fuel rest,
       (elements_size items <= fuel)%nat ->
       parse_elements fuel
         (join_comma (map element_text items) ++ String "]" rest)
       = Some (items, rest).
Proof.
  induction 1 as [ | x xs Hx Hxs IH ]; intros Hne; [ now elim Hne | ].
  destruct Hx as (t & Ht & Hlen & Hparse).
  assert (Het : element_text x = t) by (unfold element_text; now rewrite Ht).
  destruct xs as [ | y ys ].
  - cbn [map join_comma elements_size fold_right]. rewrite Het.
    split; [ lia | ].
    intros [ | fuel ] rest Hfuel; [ lia | ].
    apply parse_elements_last. apply Hparse; [ lia | reflexivity ].
  - destruct IH as [IHlen IHparse]; [ discriminate | ].
    change (map element_text (x :: y :: ys))
      with (element_text x :: element_text y :: map element_text ys).
    rewrite join_comma_cons, Het.
    change (element_text y :: map element_text ys)
      with (map element_text (y :: ys)).
    change (elements_size (x :: y :: ys))
      with (S (size x + elements_size (y :: ys)))%nat.
    split.
    + rewrite length_append. cbn [String.length]. lia.
    + intros [ | fuel ] rest Hfuel; [ lia | ].
      rewrite append_assoc. cbn [append].
      erewrite parse_elements_next by (apply Hparse; [ lia | reflexivity ]).
      rewrite IHparse by lia. reflexivity.
Qed.

Lemma member_texts_cons (k : string) (x : value) (t : string)
      (rest : list (string * value)) :
  serialize x = Some t ->
  member_texts ((k, x) :: rest)
  = (quote k ++ String ":" t)%string :: member_texts rest.
Proof. intros H. cbn [member_texts]. now rewrite H. Qed.

Lemma members_read_back (props : list (string * value)) :
  Forall (fun kv => reads_back (snd kv)) props -> props <> [] ->
  (members_size props
   <= S (String.length (join_comma (member_texts props))))%nat
  /\ (exists k t, join_comma (member_texts props) = (quote k ++ t)%string)
  /\ forall fuel rest,
       (members_size props <= fuel)%nat ->
       parse_members fuel
         (join_comma (member_texts props) ++ String "}" rest)
       = Some (props, rest).
Proof.
  induction 1 as [ | [k x] xs Hx Hxs IH ]; intros Hne; [ now elim Hne | ].
  cbn [snd] in Hx. destruct Hx as (t & Ht & Hlen & Hparse).
  rewrite (member_texts_cons k x t xs Ht).
  destruct xs as [ | [k' y] ys ].
  - cbn [member_texts join_comma members_size fold_right snd].
    split; [ rewrite length_append; cbn [String.length]; lia | ].
    split; [ now exists k, (String ":" t) | ].
    intros [ | fuel ] rest Hfuel; [ lia | ].
    rewrite append_assoc. cbn [append].
    apply parse_members_last. apply Hparse; [ lia | reflexivity ].
  - destruct IH as (IHlen & (k0 & t0 & IHhead) & IHparse); [ discriminate | ].
    change (members_size ((k, x) :: (k', y) :: ys))
      with (S (size x + members_size ((k', y) :: ys)))%nat.
    assert (Hjoin :
      join_comma ((quote k ++ String ":" t)%string :: member_texts ((k', y) :: ys))
      = ((quote k ++ String ":" t)
         ++ String "," (join_comma (member_texts ((k', y) :: ys))))%string).
    { destruct (member_texts ((k', y) :: ys)) as [ | q qs ] eqn:Hm.
      - discriminate IHhead.
      - reflexivity. }
    rewrite Hjoin. split; [ | split ].
    + rewrite !length_append. cbn [String.length]. lia.
    + exists k. eexists. rewrite append_assoc. reflexivity.
    + intros [ | fuel ] rest Hfuel; [ lia | ].
      rewrite !append_assoc. cbn [append].
      erewrite parse_members_next by (apply Hparse; [ lia | reflexivity ]).
      rewrite IHparse by lia. reflexivity.
Qed.


Lemma elements_head (items : list value) :
  Forall reads_back items -> items <> [] ->
  exists c t,
    join_comma (map element_text items) = String c t
    /\ is_value_start c = true.
Proof.
  intros Hall Hne. destruct items as [ | x xs ]; [ now elim Hne | ].
  apply Forall_inv in Hall. destruct Hall as (t & Ht & _).
  destruct (serialize_head x t Ht) as (c & t' & -> & Hc).
  assert (Het : element_text x = String c t')
    by (unfold element_text; now rewrite Ht).
  destruct xs as [ | y ys ].
  - exists c, t'. cbn [map join_comma]. now rewrite Het.
  - change (map element_text (x :: y :: ys))
      with (element_text x :: element_text y :: map element_text ys).
    rewrite join_comma_cons, Het. cbn [append]. eexists; eexists.
    split; [ reflexivity | assumption ].
Qed.

Lemma literal_append (word : string) (v : value) (rest : string) :
  literal word v (word ++ rest) = Some (v, rest).
Proof.
  unfold literal. now rewrite startsWith_append, substring_from_append.
Qed.

Lemma parse_value_object_start (fuel : nat) (t : string) :
  parse_value (S fuel) (String "{" (String dquote t))
  = match parse_members fuel (String dquote t) with
    | Some (kvs, r') => Some (JObj (object_of_members kvs), r')
    | None => None
    end.
Proof. reflexivity. Qed.

(** Every value that is JSON data is read back from its text. *)
Lemma json_data_reads_back (v : value) :
  json_data v = true -> reads_back v.
Proof.
  induction v as [ | | b | n | s | items IH | props IH ] using value_nested_ind;
    intros Hdata.
  - discriminate Hdata.
  - exists "null". split; [ reflexivity | ]. split; [ cbn; lia | ].
    intros [ | fuel ] rest Hfuel _; [ cbn in Hfuel; lia | ].
    exact (literal_append "ull" JNull rest).
  - destruct b.
    + exists "true". split; [ reflexivity | ]. split; [ cbn; lia | ].
      intros [ | fuel ] rest Hfuel _; [ cbn in Hfuel; lia | ].
      exact (literal_append "rue" (JBool true) rest).
    + exists "false". split; [ reflexivity | ]. split; [ cbn; lia | ].
      intros [ | fuel ] rest Hfuel _; [ cbn in Hfuel; lia | ].
      exact (literal_append "alse" (JBool false) rest).
  - exists (number_to_string n). split; [ reflexivity | ]. split.
    + destruct (number_head n) as (c & t & -> & _). cbn. lia.
    + intros [ | fuel ] rest Hfuel Hrest; [ cbn in Hfuel; lia | ].
      now apply parse_value_number.
  - exists (quote s). split; [ reflexivity | ]. split; [ cbn; lia | ].
    intros [ | fuel ] rest Hfuel _; [ cbn in Hfuel; lia | ].
    rewrite quote_append. cbn. now rewrite parse_quote_chars.
  - assert (Hall : Forall reads_back items).
    { cbn [json_data] in Hdata. rewrite forallb_forall in Hdata.
      rewrite Forall_forall in *. intros x Hx. apply IH; auto. }
    unfold reads_back. rewrite serialize_arr. eexists. split; [ reflexivity | ].
    change (size (JArr items)) with (S (elements_size items)).
    destruct items as [ | x xs ].
    + split; [ cbn; lia | ].
      intros [ | fuel ] rest Hfuel _; [ lia | reflexivity ].
    + destruct (elements_read_back (x :: xs) Hall) as [Hlen Hparse];
        [ discriminate | ].
      destruct (elements_head (x :: xs) Hall) as (c & t & Hjoin & Hc);
        [ discriminate | ].
      split.
      * cbn [String.length]. rewrite length_append. cbn [String.length]. lia.
      * intros [ | fuel ] rest Hfuel _; [ lia | ].
        cbn [append]. rewrite append_assoc. cbn [append].
        specialize (Hparse fuel rest). rewrite Hjoin in *. cbn [append] in *.
        rewrite (parse_value_array_start fuel c _ Hc), Hparse by lia.
        reflexivity.
  - cbn [json_data] in Hdata. apply andb_true_iff in Hdata as [Hkeys Hdata].
    assert (Hall : Forall (fun kv => reads_back (snd kv)) props).
    { rewrite forallb_forall in Hdata.
      rewrite Forall_forall in *. intros x Hx. apply IH; auto. }
    unfold reads_back. rewrite serialize_obj. eexists. split; [ reflexivity | ].
    change (size (JObj props)) with (S (members_size props)).
    destruct props as [ | kx xs ].
    + split; [ cbn; lia | ].
      intros [ | fuel ] rest Hfuel _; [ lia | reflexivity ].
    + destruct (members_read_back (kx :: xs) Hall)
        as (Hlen & (k & t & Hjoin) & Hparse); [ discriminate | ].
      split.
      * cbn [String.length]. rewrite length_append. cbn [String.length]. lia.
      * intros [ | fuel ] rest Hfuel _; [ lia | ].
        cbn [append]. rewrite append_assoc. cbn [append].
        specialize (Hparse fuel rest). rewrite Hjoin in *.
        rewrite append_assoc in *. rewrite quote_append in *.
        rewrite parse_value_object_start, Hparse by lia.
        now rewrite object_of_members_distinct.
Qed.

(** [JSON.parse(JSON.stringify(v))] is [v] for every [v] that is JSON
    data. *)
Lemma parse_stringify (v : value) :
  json_data v = true ->
  exists t, stringify v = Some t /\ parse t = Returned v.
Proof.
  intros Hdata.
  destruct (json_data_reads_back v Hdata) as (t & Ht & Hlen & Hparse).
  exists t. split; [ exact Ht | ].
  unfold parse. rewrite <- (append_nil_r t) at 2.
  rewrite Hparse by (try reflexivity; lia). reflexivity.
Qed.

End JSONFacts.

(* ===================================================================== *)
(** * The codec *)
(* ===================================================================== *)




(** The payload [TDB:null] starts with the prefix and its remainder
    parses, to [null]; [decodeDocument] answers none all the same. *)
Lemma decode_null_literal_is_none :
  ~ decode_none_exactly_when "TDB:null" "TDB:".
Proof.
  unfold decode_none_exactly_when. intros [Hif _].
  destruct (Hif eq_refl) as [Hstart | [e He]].
  - discriminate Hstart.
  - discriminate He.
Qed.

(** C7 (amended).  [decodeDocument] is total and never throws; it answers
    none exactly when the payload does not start with the prefix, or its
    remainder fails to parse, or its remainder parses to [null];
    otherwise it answers the value its remainder parses to. *)
Theorem decodeDocument_total (messageText prefix : string) :
  exists v,
    decodeDocument messageText prefix = Returned v
    /\ (v = JNull
        <-> (startsWith messageText prefix = false
             \/ (exists e,
                   JSON.parse (substring_from (String.length prefix) messageText)
                   = Threw e)
             \/ JSON.parse (substring_from (String.length prefix) messageText)
                = Returned JNull))
    /\ (v <> JNull ->
        startsWith messageText prefix = true
        /\ JSON.parse (substring_from (String.length prefix) messageText)
           = Returned v).
Proof.
  unfold decodeDocument.
  destruct (startsWith messageText prefix); cbn [negb].
  - destruct (JSON.parse (substring_from (String.length prefix) messageText))
      as [ v | e ]; cbn [try_catch].
    + exists v. split; [ reflexivity | ]. split; [ | now split ]. split.
      * intros ->. right. right. reflexivity.
      * intros [H | [[e He] | H]]; [ discriminate | discriminate | ].
        now injection H.
    + exists JNull. split; [ reflexivity | ].
      split; [ | intros H; now elim H ]. split; [ | reflexivity ].
      intros _. right. left. now exists e.
  - exists JNull. split; [ reflexivity | ].
    split; [ | intros H; now elim H ]. split; [ | reflexivity ].
    intros _. now left.
Qed.

(* ===================================================================== *)
(** * The filter engine *)
(* ===================================================================== *)

Section FilterFacts.
Context {engine : RegExpEngine}.

Lemma all_entries_app (doc : value) (pre post : list (string * value)) :
  all_entries doc (pre ++ post)
  = bindO (all_entries doc pre)
          (fun ok => if ok then all_entries doc post else Returned false).
Proof.
  induction pre as [ | [key v] pre IH ]; cbn [all_entries List.app bindO].
  - reflexivity.
  - destruct (entry_matches doc key v) as [ [] | e ]; cbn [bindO];
      [ exact IH | reflexivity | reflexivity ].
Qed.

Lemma strict_equals_primitive (a b : value) :
  strict_equals a b = true -> isObject b = false /\ isArray b = false.
Proof. destruct a, b; cbn; intros H; try discriminate H; now split. Qed.

Lemma strict_equals_eq (a b : value) :
  strict_equals a b = true -> a = b.
Proof.
  destruct a, b; cbn; intros H; try discriminate H; try reflexivity.
  - f_equal. now apply Bool.eqb_prop.
  - f_equal. now apply Z.eqb_eq.
  - f_equal. now apply String.eqb_eq.
Qed.

Lemma member_get_property (doc id : value) (key : string) :
  member doc key = Returned id ->
  optional_get doc key = id /\ get_property doc key = id.
Proof.
  destruct doc; cbn; intros H; try discriminate H; injection H as <-;
    now split.
Qed.

(** The condition of the entry [_id] is the strict equality. *)
Lemma entry_matches_id (doc v : value) :
  entry_matches doc "_id" v
  = bindO (member doc "_id") (fun id => Returned (strict_equals id v)).
Proof.
  unfold entry_matches. cbn [String.eqb Ascii.eqb Bool.eqb].
  destruct (member doc "_id") as [ id | e ] eqn:Hid; cbn [bindO];
    [ | reflexivity ].
  destruct (strict_equals id v) eqn:Heq; cbn [negb]; [ | reflexivity ].
  destruct (strict_equals_primitive id v Heq) as [Hobj Harr].
  rewrite Hobj.
  destruct (member_get_property doc id "_id" Hid) as [Hget _].
  unfold getNestedValue. cbn [split_dot Ascii.eqb Bool.eqb fold_left].
  rewrite Hget.
  destruct v; try discriminate Harr; now rewrite Heq.
Qed.

(** C8.  A filter that has the field [_id] matches a document only if the
    [_id] of the document is strictly equal to the value given: the
    condition of that field is decided by [===] alone, and a value that
    is an operator object, which is strictly equal to no [_id], matches
    nothing. *)
Theorem id_compared_by_strict_equality
        (doc v : value) (pre post : list (string * value)) :
  (matchesFilter doc (JObj (pre ++ ("_id", v) :: post)) = Returned true ->
   exists id, member doc "_id" = Returned id /\ strict_equals id v = true)
  /\ (isObject v = true ->
      matchesFilter doc (JObj (pre ++ ("_id", v) :: post)) <> Returned true)
  /\ matchesFilter doc (JObj [("_id", v)])
     = bindO (member doc "_id") (fun id => Returned (strict_equals id v)).
Proof.
  assert (Hmatch :
    matchesFilter doc (JObj (pre ++ ("_id", v) :: post)) = Returned true ->
    exists id, member doc "_id" = Returned id /\ strict_equals id v = true).
  { unfold matchesFilter. cbn [own_entries].
    rewrite all_entries_app. cbn [all_entries].
    rewrite entry_matches_id.
    destruct (all_entries doc pre) as [ [] | e ]; cbn [bindO];
      try discriminate.
    destruct (member doc "_id") as [ id | e ]; cbn [bindO]; try discriminate.
    destruct (strict_equals id v) eqn:Heq; try discriminate.
    intros _. now exists id. }
  split; [ exact Hmatch | ]. split.
  - intros Hobj H. destruct (Hmatch H) as (id & _ & Heq).
    apply strict_equals_primitive in Heq as [Hno _]. congruence.
  - unfold matchesFilter. cbn [own_entries all_entries].
    rewrite entry_matches_id.
    destruct (member doc "_id") as [ id | e ]; cbn [bindO]; [ | reflexivity ].
    now destruct (strict_equals id v).
Qed.

Lemma operator_holds_unknown (docValue opValue : value) (op : string) :
  known_operator op = false ->
  operator_holds docValue op opValue = Returned true.
Proof.
  unfold known_operator. cbn [existsb]. intros H.
  repeat (apply orb_false_iff in H as [?H H]).
  unfold operator_holds.
  repeat match goal with
         | Hk : String.eqb op ?k = false |- _ => rewrite Hk; clear Hk
         end.
  reflexivity.
Qed.

Lemma all_operators_known_only (docValue : value) (ops : list (string * value)) :
  all_operators docValue ops
  = all_operators docValue (filter (fun kv => known_operator (fst kv)) ops).
Proof.
  induction ops as [ | [op opValue] ops IH ]; [ reflexivity | ].
  cbn [filter fst all_operators].
  destruct (known_operator op) eqn:Hk.
  - cbn [all_operators]. now rewrite IH.
  - rewrite operator_holds_unknown by assumption. exact IH.
Qed.

(** C10.  The keys of an operator object other than [$gt], [$gte], [$lt],
    [$lte], [$ne], [$in], [$nin], [$regex] and [$exists] are ignored:
    leaving them out changes nothing, and an operator object that has no
    other key matches every value. *)
Theorem unknown_operators_ignored
        (docValue : value) (ops : list (string * value)) :
  matchesOperators docValue (JObj ops)
  = matchesOperators docValue
      (JObj (filter (fun kv => known_operator (fst kv)) ops))
  /\ (forallb (fun kv => negb (known_operator (fst kv))) ops = true ->
      matchesOperators docValue (JObj ops) = Returned true).
Proof.
  unfold matchesOperators. cbn [own_entries]. split.
  - apply all_operators_known_only.
  - intros Hall. rewrite all_operators_known_only.
    replace (filter (fun kv => known_operator (fst kv)) ops) with
      (@nil (string * value)); [ reflexivity | ].
    induction ops as [ | [op opValue] ops IH ]; [ reflexivity | ].
    cbn [forallb fst] in Hall. apply andb_true_iff in Hall as [Hop Hall].
    apply negb_true_iff in Hop. cbn [filter fst]. rewrite Hop. now apply IH.
Qed.

End FilterFacts.

Lemma unknown_operators_ignored_witness :
  forallb (fun kv => negb (known_operator (fst kv)))
          [("$near", JNum 3); ("$size", JNum 2)] = true
  /\ matchesOperators (JStr "anything")
       (JObj [("$near", JNum 3); ("$size", JNum 2)]) = Returned true.
Proof.
  split; [ reflexivity | ].
  apply (unknown_operators_ignored (JStr "anything")
           [("$near", JNum 3); ("$size", JNum 2)]).
  reflexivity.
Defined.

Lemma id_compared_by_strict_equality_witness :
  matchesFilter sample_document
    (JObj ([("name", JStr "John")]
           ++ ("_id", JStr "1700000000000-k3x9") :: [("age", JNum 30)]))
  = Returned true
  /\ exists id,
       member sample_document "_id" = Returned id
       /\ strict_equals id (JStr "1700000000000-k3x9") = true.
Proof.
  split; [ reflexivity | ].
  apply (id_compared_by_strict_equality sample_document
           (JStr "1700000000000-k3x9")
           [("name", JStr "John")] [("age", JNum 30)]).
  reflexivity.
Defined.

(* ===================================================================== *)
(** * deepMerge and the updated document *)
(* ===================================================================== *)

Lemma lookup_set_same (k : string) (v : value) (props : list (string * value)) :
  lookup k (set_property k v props) = Some v.
Proof.
  induction props as [ | [k' v'] props IH ]; cbn.
  - now rewrite String.eqb_refl.
  - destruct (String.eqb k' k) eqn:Hk; cbn; rewrite ?Hk;
      [ now rewrite String.eqb_refl | exact IH ].
Qed.

Lemma lookup_set_other (k k' : string) (v : value)
      (props : list (string * value)) :
  k <> k' -> lookup k (set_property k' v props) = lookup k props.
Proof.
  intros Hne. induction props as [ | [k0 v0] props IH ]; cbn.
  - destruct (String.eqb_spec k' k) as [ -> | _ ]; [ now elim Hne | reflexivity ].
  - destruct (String.eqb_spec k0 k') as [ -> | Hk0 ]; cbn.
    + destruct (String.eqb_spec k' k) as [ -> | _ ]; [ now elim Hne | ].
      reflexivity.
    + now rewrite IH.
Qed.

Lemma deepMerge_objects (tprops sprops : list (string * value)) :
  deepMerge (JObj tprops) (JObj sprops)
  = JObj (merge_entries (JObj tprops) tprops sprops tprops).
Proof.
  cbn [deepMerge own_entries]. f_equal. unfold merge_entries.
  match goal with
  | |- ?F sprops tprops = fold_left ?G sprops tprops =>
      assert (H : forall output, F sprops output = fold_left G sprops output);
        [ | apply H ]
  end.
  induction sprops as [ | [key sv] sprops IH ]; intros output; [ reflexivity | ].
  cbn [fold_left fst snd]. rewrite <- IH. reflexivity.
Qed.

(** A key that the source has not keeps the value of the copy. *)
Lemma merge_entries_absent (target : value) (tprops entries output
                            : list (string * value)) (key : string) :
  has_property entries key = false ->
  lookup key (merge_entries target tprops entries output) = lookup key output.
Proof.
  unfold merge_entries. revert output.
  induction entries as [ | [k sv] entries IH ]; intros output Habsent;
    [ reflexivity | ].
  unfold has_property in Habsent. cbn [lookup] in Habsent.
  cbn [fold_left fst snd].
  destruct (String.eqb_spec k key) as [ -> | Hne ]; [ discriminate Habsent | ].
  rewrite IH by exact Habsent.
  destruct sv; try destruct (negb (has_property tprops k));
    apply lookup_set_other; congruence.
Qed.

(** A key that the source has once, with a value that is no object, takes
    that value. *)
Lemma merge_entries_scalar (target : value) (tprops pre post output
                            : list (string * value)) (key : string) (sv : value) :
  isObject sv = false ->
  has_property post key = false ->
  lookup key (merge_entries target tprops (pre ++ (key, sv) :: post) output)
  = Some sv.
Proof.
  intros Hsv Hpost. unfold merge_entries. rewrite fold_left_app.
  cbn [fold_left fst snd].
  fold (merge_entries target tprops pre output).
  match goal with
  | |- lookup key (fold_left ?f post ?out) = _ =>
      change (fold_left f post out) with (merge_entries target tprops post out)
  end.
  rewrite merge_entries_absent by assumption.
  destruct sv; try discriminate Hsv; apply lookup_set_same.
Qed.

Lemma has_property_set_other (k k' : string) (v : value)
      (props : list (string * value)) :
  k <> k' ->
  has_property (set_property k' v props) k = has_property props k.
Proof. intros Hne. unfold has_property. now rewrite lookup_set_other. Qed.

(** In an object of distinct keys, [set_property] leaves one entry of the
    key, with nothing of that key after it. *)
Lemma set_property_split (k : string) (v : value)
      (props : list (string * value)) :
  distinct (map fst props) = true ->
  exists pre post,
    set_property k v props = pre ++ (k, v) :: post
    /\ has_property post k = false.
Proof.
  induction props as [ | [k' v'] props IH ]; intros Hd.
  - exists [], []. now split.
  - cbn [map fst distinct] in Hd. apply andb_true_iff in Hd as [Hfresh Hd].
    cbn [set_property]. destruct (String.eqb_spec k' k) as [ -> | Hne ].
    + exists [], props. split; [ reflexivity | ].
      apply negb_true_iff in Hfresh. unfold has_property.
      destruct (lookup k props) as [ x | ] eqn:Hl; [ | reflexivity ].
      exfalso. clear -Hfresh Hl.
      induction props as [ | [k0 v0] props IH ]; [ discriminate Hl | ].
      cbn in Hfresh, Hl. apply orb_false_iff in Hfresh as [Hk Hrest].
      rewrite String.eqb_sym, Hk in Hl. now apply IH.
    + destruct (IH Hd) as (pre & post & Hsplit & Hpost).
      exists ((k', v') :: pre), post. split; [ | exact Hpost ].
      cbn [List.app]. now rewrite Hsplit.
Qed.

Lemma get_property_object (props : list (string * value)) (key : string) :
  get_property (JObj props) key
  = match lookup key props with Some x => x | None => JUndefined end.
Proof. reflexivity. Qed.

(** C4 (amended).  The document [update] makes of a matched document
    from a patch of distinct fields.  In replace mode it keeps the [_id],
    and every field other than [_id] and [_table] is the field of the
    patch.  In merge mode it keeps the [_id] (an [_id] that is no object,
    as a string is), and it keeps the [_table] whenever the patch has no
    field [_table]. *)
Theorem updated_document_fields
        (update : value) (options : UpdateOptions)
        (props : list (string * value)) :
  let doc := JObj props in
  let id := get_property doc "_id" in
  let updated := updated_document update options doc id in
  distinct (map fst (own_entries update)) = true ->
  (replace options = true ->
   get_property updated "_id" = id
   /\ forall key, key <> "_id"%string -> key <> "_table"%string ->
                  get_property updated key
                  = get_property (JObj (own_entries update)) key)
  /\ (replace options = false ->
      (isObject id = false -> get_property updated "_id" = id)
      /\ (has_property (own_entries update) "_table" = false ->
          get_property updated "_table" = get_property doc "_table")).
Proof.
  intros doc id updated Hdistinct. subst updated.
  unfold updated_document.
  destruct (set_property_split "_id" id (own_entries update) Hdistinct)
    as (pre & post & Hsplit & Hpost).
  split; intros Hmode; rewrite Hmode; split.
  - rewrite get_property_object. now rewrite lookup_set_same.
  - intros key Hkey _. rewrite !get_property_object.
    now rewrite lookup_set_other.
  - intros Hid. subst doc.
    rewrite deepMerge_objects, get_property_object, Hsplit.
    now rewrite merge_entries_scalar.
  - intros Htable. subst doc.
    rewrite deepMerge_objects, !get_property_object.
    rewrite merge_entries_absent; [ reflexivity | ].
    rewrite has_property_set_other by discriminate. exact Htable.
Qed.

(* ===================================================================== *)
(** * Map objects *)
(* ===================================================================== *)

(** A key that the map finds is a primitive: it is equal to itself. *)
Lemma Map_get_truthy_key (m : JsMap) (id : value) :
  truthy (Map_get m id) = true -> strict_equals id id = true.
Proof.
  induction m as [ | [k v] m IH ]; cbn [Map_get]; [ discriminate | ].
  destruct (strict_equals k id) eqn:Hk; [ | exact IH ].
  intros _. pose proof (strict_equals_eq k id Hk) as ->. exact Hk.
Qed.

Lemma Map_delete_incl (id : value) (m : JsMap) (kv : value * value) :
  In kv (Map_delete id m) -> In kv m.
Proof.
  induction m as [ | [k v] m IH ]; cbn [Map_delete]; [ auto | ].
  destruct (strict_equals k id); cbn [In]; intuition.
Qed.

Lemma Map_delete_other (id : value) (m : JsMap) (k v : value) :
  In (k, v) m -> strict_equals k id = false -> In (k, v) (Map_delete id m).
Proof.
  intros Hin Hk. induction m as [ | [k0 v0] m IH ]; [ contradiction | ].
  cbn [Map_delete]. destruct Hin as [Heq | Hin].
  - injection Heq as -> ->. rewrite Hk. now left.
  - destruct (strict_equals k0 id); [ exact Hin | right; now apply IH ].
Qed.

Lemma Map_get_delete_other (id id' : value) (m : JsMap) :
  strict_equals id' id = false ->
  Map_get (Map_delete id' m) id = Map_get m id.
Proof.
  intros Hne. induction m as [ | [k v] m IH ]; [ reflexivity | ].
  cbn [Map_delete Map_get].
  destruct (strict_equals k id') eqn:Hk.
  - apply strict_equals_eq in Hk. subst k. now rewrite Hne.
  - cbn [Map_get]. now rewrite IH.
Qed.

(** In a map of distinct keys, the key deleted is gone. *)
Lemma Map_delete_gone (id : value) (m : JsMap) (k v : value) :
  distinct_keys m = true ->
  In (k, v) (Map_delete id m) -> strict_equals k id = false.
Proof.
  induction m as [ | [k0 v0] m IH ]; cbn [Map_delete distinct_keys];
    [ contradiction | ].
  intros Hd Hin. apply andb_true_iff in Hd as [Hfresh Hd].
  apply negb_true_iff in Hfresh.
  destruct (strict_equals k0 id) eqn:Hk0.
  - apply strict_equals_eq in Hk0. subst k0.
    destruct (strict_equals k id) eqn:Hk; [ | reflexivity ].
    assert (Hex : existsb (fun kv => strict_equals (fst kv) id) m = true).
    { apply existsb_exists. exists (k, v). now split. }
    congruence.
  - destruct Hin as [Heq | Hin]; [ now injection Heq as <- <- | ].
    now apply IH.
Qed.

Lemma distinct_keys_delete (id : value) (m : JsMap) :
  distinct_keys m = true -> distinct_keys (Map_delete id m) = true.
Proof.
  induction m as [ | [k v] m IH ]; cbn [Map_delete distinct_keys];
    [ reflexivity | ].
  intros Hd. apply andb_true_iff in Hd as [Hfresh Hd].
  destruct (strict_equals k id); [ exact Hd | ].
  cbn [distinct_keys]. rewrite IH by assumption.
  rewrite andb_true_r. apply negb_true_iff in Hfresh. apply negb_true_iff.
  destruct (existsb (fun kv => strict_equals (fst kv) k) (Map_delete id m))
    eqn:Hex; [ | reflexivity ].
  apply existsb_exists in Hex as ([k' v'] & Hin & Hk').
  apply Map_delete_incl in Hin.
  assert (Hex : existsb (fun kv => strict_equals (fst kv) k) m = true).
  { apply existsb_exists. now exists (k', v'). }
  congruence.
Qed.

Lemma keyed_by_id_delete (id : value) (m : JsMap) :
  keyed_by_id m = true -> keyed_by_id (Map_delete id m) = true.
Proof.
  unfold keyed_by_id. rewrite !forallb_forall. intros H kv Hin.
  apply H. now apply Map_delete_incl in Hin.
Qed.

Lemma cache_well_formed_delete (id : value) (m : JsMap) :
  cache_well_formed m = true -> cache_well_formed (Map_delete id m) = true.
Proof.
  unfold cache_well_formed. intros H. apply andb_true_iff in H as [Hd Hk].
  now rewrite distinct_keys_delete, keyed_by_id_delete.
Qed.

(** A document of a well-formed cache is kept under its [_id]. *)
Lemma cached_under_id (m : JsMap) (k doc : value) :
  keyed_by_id m = true -> In (k, doc) m ->
  member doc "_id" = Returned (get_property doc "_id")
  /\ k = get_property doc "_id"
  /\ strict_equals k k = true.
Proof.
  unfold keyed_by_id. rewrite forallb_forall. intros H Hin.
  specialize (H (k, doc) Hin). cbn [fst snd] in H.
  destruct (member doc "_id") as [ id | e ] eqn:Hm; [ | discriminate H ].
  destruct (member_get_property doc id "_id" Hm) as [_ Hget].
  pose proof (strict_equals_eq k id H) as Hk. subst k.
  rewrite Hget. repeat split. exact H.
Qed.

Lemma removed_locally_incl (index cache : JsMap) (documents : list value)
      (kv : value * value) :
  In kv (snd (removed_locally index cache documents)) -> In kv cache.
Proof.
  revert index cache. induction documents as [ | doc rest IH ];
    intros index cache; cbn [removed_locally]; [ auto | ].
  destruct (truthy (Map_get index (get_property doc "_id"))).
  - intros H. apply IH in H. now apply Map_delete_incl in H.
  - apply IH.
Qed.

(** A matching document that has a message id in the index is in the
    cache no more. *)
Lemma removed_locally_removes (index cache : JsMap) (documents : list value)
      (doc : value) :
  cache_well_formed cache = true ->
  In doc documents ->
  truthy (Map_get index (get_property doc "_id")) = true ->
  ~ In doc (Map_values (snd (removed_locally index cache documents))).
Proof.
  revert index cache. induction documents as [ | doc1 rest IH ];
    intros index cache Hwf Hin Hid; [ contradiction | ].
  cbn [removed_locally].
  destruct (truthy (Map_get index (get_property doc1 "_id"))) eqn:Hid1.
  - destruct (strict_equals (get_property doc1 "_id") (get_property doc "_id"))
      eqn:Hsame.
    + apply strict_equals_eq in Hsame.
      intros Hcached. unfold Map_values in Hcached.
      apply in_map_iff in Hcached as ([k v] & Hv & Hkv). cbn [snd] in Hv.
      subst v. apply removed_locally_incl in Hkv.
      apply andb_true_iff in Hwf as [Hdistinct Hkeyed].
      pose proof (Map_delete_gone _ _ _ _ Hdistinct Hkv) as Hgone.
      apply Map_delete_incl in Hkv.
      destruct (cached_under_id cache k doc Hkeyed Hkv) as (_ & Hk & Hrefl).
      rewrite Hsame, <- Hk, Hrefl in Hgone. discriminate Hgone.
    + destruct Hin as [Heq | Hin].
      * subst doc1. apply Map_get_truthy_key in Hid. congruence.
      * apply IH; [ now apply cache_well_formed_delete | exact Hin | ].
        now rewrite Map_get_delete_other.
  - destruct Hin as [Heq | Hin]; [ subst doc1; congruence | ].
    now apply IH.
Qed.

Lemma strict_equals_sym (a b : value) :
  strict_equals a b = strict_equals b a.
Proof.
  destruct a, b; cbn; try reflexivity.
  - now destruct b, b0.
  - apply Z.eqb_sym.
  - apply String.eqb_sym.
Qed.

(** A cached document that has no message id in the index stays in the
    cache. *)
Lemma removed_locally_keeps (index cache : JsMap) (documents : list value)
      (k doc : value) :
  keyed_by_id cache = true ->
  In (k, doc) cache ->
  truthy (Map_get index (get_property doc "_id")) = false ->
  In (k, doc) (snd (removed_locally index cache documents)).
Proof.
  revert index cache. induction documents as [ | doc1 rest IH ];
    intros index cache Hkeyed Hin Hid; [ exact Hin | ].
  cbn [removed_locally].
  destruct (truthy (Map_get index (get_property doc1 "_id"))) eqn:Hid1;
    [ | now apply IH ].
  destruct (cached_under_id cache k doc Hkeyed Hin) as (_ & Hk & _).
  assert (Hother : strict_equals k (get_property doc1 "_id") = false).
  { destruct (strict_equals k (get_property doc1 "_id")) eqn:Hsame;
      [ | reflexivity ].
    apply strict_equals_eq in Hsame. congruence. }
  apply IH.
  - now apply keyed_by_id_delete.
  - now apply Map_delete_other.
  - rewrite Map_get_delete_other; [ exact Hid | ].
    now rewrite strict_equals_sym, <- Hk.
Qed.

Lemma Map_get_absent (m : JsMap) (id : value) :
  existsb (fun kv => strict_equals (fst kv) id) m = false ->
  Map_get m id = JUndefined.
Proof.
  induction m as [ | [k v] m IH ]; cbn [existsb fst Map_get];
    [ reflexivity | ].
  intros H. apply orb_false_iff in H as [Hk Hm]. now rewrite Hk, IH.
Qed.

(** In a map of distinct keys, nothing is left under the key deleted. *)
Lemma Map_get_deleted (id : value) (m : JsMap) :
  distinct_keys m = true -> Map_get (Map_delete id m) id = JUndefined.
Proof.
  induction m as [ | [k v] m IH ]; cbn [Map_delete distinct_keys];
    [ reflexivity | ].
  intros Hd. apply andb_true_iff in Hd as [Hfresh Hd].
  apply negb_true_iff in Hfresh.
  destruct (strict_equals k id) eqn:Hk.
  - apply strict_equals_eq in Hk. subst k. now apply Map_get_absent.
  - cbn [Map_get]. rewrite Hk. now apply IH.
Qed.

(** The loop of [delete] adds nothing to the index. *)
Lemma removed_locally_stays_absent (index cache : JsMap)
      (documents : list value) (id : value) :
  Map_get index id = JUndefined ->
  Map_get (fst (removed_locally index cache documents)) id = JUndefined.
Proof.
  revert index cache. induction documents as [ | doc rest IH ];
    intros index cache Hid; cbn [removed_locally]; [ exact Hid | ].
  destruct (truthy (Map_get index (get_property doc "_id"))) eqn:Hdoc;
    [ | now apply IH ].
  apply IH.
  destruct (strict_equals (get_property doc "_id") id) eqn:Hsame.
  - apply strict_equals_eq in Hsame. rewrite Hsame in Hdoc.
    rewrite Hid in Hdoc. discriminate Hdoc.
  - now rewrite Map_get_delete_other.
Qed.

(** A matching document that has a message id in the index has none
    there after the loop. *)
Lemma removed_locally_unindexes (index cache : JsMap)
      (documents : list value) (doc : value) :
  distinct_keys index = true ->
  In doc documents ->
  truthy (Map_get index (get_property doc "_id")) = true ->
  Map_get (fst (removed_locally index cache documents))
          (get_property doc "_id") = JUndefined.
Proof.
  revert index cache. induction documents as [ | doc1 rest IH ];
    intros index cache Hd Hin Hid; [ contradiction | ].
  cbn [removed_locally].
  destruct (truthy (Map_get index (get_property doc1 "_id"))) eqn:Hid1.
  - destruct (strict_equals (get_property doc1 "_id") (get_property doc "_id"))
      eqn:Hsame.
    + apply strict_equals_eq in Hsame. rewrite Hsame.
      apply removed_locally_stays_absent. now apply Map_get_deleted.
    + destruct Hin as [ -> | Hin ].
      * pose proof (Map_get_truthy_key _ _ Hid) as Hself. congruence.
      * apply IH; [ now apply distinct_keys_delete | exact Hin | ].
        now rewrite Map_get_delete_other.
  - destruct Hin as [ -> | Hin ]; [ congruence | now apply IH ].
Qed.

Lemma select_incl {engine : RegExpEngine} (docs found : list value)
      (query : value) :
  select docs query = Returned found -> incl found docs.
Proof.
  revert found. induction docs as [ | doc docs IH ]; intros found;
    cbn [select].
  - intros H. injection H as <-. apply incl_refl.
  - destruct (matchesFilter doc query) as [ ok | e ]; cbn [bindO];
      [ | discriminate ].
    destruct (select docs query) as [ rest | e ]; cbn [bindO];
      [ | discriminate ].
    intros H. injection H as <-. specialize (IH rest eq_refl).
    destruct ok; [ | now apply incl_tl ].
    intros x [ <- | Hx ]; [ now left | right; now apply IH ].
Qed.

(* ===================================================================== *)
(** * The store *)
(* ===================================================================== *)

Section StoreFacts.
Context {engine : RegExpEngine} {Chat : Type} {telegram : Telegram Chat}.
Implicit Types w : @World Chat.
Local Abbreviation M := (@M Chat).

Lemma ensureInitialized_ready w :
  initialized (db w) = true -> ensureInitialized w = (Returned tt, w).
Proof.
  intros H. unfold ensureInitialized, bind, this. rewrite H. reflexivity.
Qed.

Lemma world_eta w : mkWorld (db w) (channel w) = w.
Proof. now destruct w. Qed.

(** On an initialized store [find] reads the cache and changes nothing. *)
Lemma find_ready w (filter : value) (table : string) :
  initialized (db w) = true ->
  find filter table w = (found_in w filter table, w).
Proof.
  intros H. unfold find, bind at 1. rewrite (ensureInitialized_ready w H).
  unfold found_in, try_, bind, this, lift, reloadCacheFromIndex, try_, bind,
    this, ret, message_of, throw.
  cbn beta iota delta [db fst snd].
  destruct (documentCache (db w)) as [ | kv cache ] eqn:Hcache.
  - cbn. destruct (truthy (indexMessageId (db w))); cbn; rewrite Hcache;
      reflexivity.
  - destruct (select (Map_values (kv :: cache)) (with_table filter table))
      as [ docs | [ err | ] ]; reflexivity.
Qed.


Lemma reloadCacheFromIndex_idle w : reloadCacheFromIndex w = (Returned tt, w).
Proof.
  unfold reloadCacheFromIndex, try_, bind, this, ret.
  now destruct (truthy (indexMessageId (db w))).
Qed.

(** C6 (amended).  When [find] is called on an initialized store whose
    cache is empty, the reload it performs makes no call to the chat and
    leaves the index and the cache as they are; [find] scans the cache,
    still empty, again and answers the empty list, the store and the chat
    being unchanged. *)
Theorem find_on_empty_cache w (filter : value) (table : string) :
  initialized (db w) = true ->
  documentCache (db w) = [] ->
  reloadCacheFromIndex w = (Returned tt, w)
  /\ find filter table w = (Returned [], w).
Proof.
  intros Hinit Hcache. split; [ apply reloadCacheFromIndex_idle | ].
  rewrite (find_ready w filter table Hinit).
  unfold found_in. rewrite Hcache. reflexivity.
Qed.

Lemma select_table (docs : list value) (table : string) :
  select docs (with_table (JObj []) table)
  = Returned
      (filter (fun doc => strict_equals (optional_get doc "_table") (JStr table))
              docs).
Proof.
  induction docs as [ | doc docs IH ]; [ reflexivity | ].
  cbn [select filter]. rewrite IH.
  unfold matchesFilter, with_table. cbn [own_entries set_property all_entries].
  unfold entry_matches, getNestedValue.
  cbn [String.eqb Ascii.eqb Bool.eqb bindO isObject split_dot fold_left].
  now destruct (strict_equals (optional_get doc "_table") (JStr table)).
Qed.

Lemma filter_idempotent {A : Type} (p : A -> bool) (l : list A) :
  filter p (filter p l) = filter p l.
Proof.
  induction l as [ | x l IH ]; [ reflexivity | ].
  cbn [filter]. destruct (p x) eqn:Hp; [ | exact IH ].
  cbn [filter]. now rewrite Hp, IH.
Qed.

Lemma find_matching_ready w (filter : value) (table : string) :
  initialized (db w) = true ->
  find_matching filter table w
  = (bindO (found_in w (JObj []) table)
           (fun docs => select docs (with_table filter table)), w).
Proof.
  intros Hinit. unfold find_matching, bind.
  rewrite (find_ready w (JObj []) table Hinit).
  destruct (found_in w (JObj []) table) as [ docs | e ]; reflexivity.
Qed.

Lemma found_in_table w (table : string) :
  found_in w (JObj []) table = Returned (table_documents w table).
Proof. unfold found_in. now rewrite select_table. Qed.

(** C9.  The empty filter matches every document; on an initialized store
    [find] with the empty filter answers every cached document of the
    table, these are the documents [delete] with the empty filter
    resolves, and [deleteAll] and [dropTable] are that [delete]: they
    work on every document of the table. *)
Theorem empty_filter_matches_all w (table : string) :
  initialized (db w) = true ->
  (forall doc, matchesFilter doc (JObj []) = Returned true)
  /\ find (JObj []) table w = (Returned (table_documents w table), w)
  /\ find_matching (JObj []) table w = (Returned (table_documents w table), w)
  /\ deleteAll table w
     = try_ (delete_documents (table_documents w table))
            (failed "Failed to delete documents: ") w
  /\ dropTable table w = deleteAll table w.
Proof.
  intros Hinit.
  assert (Hmatching :
    find_matching (JObj []) table w = (Returned (table_documents w table), w)).
  { rewrite (find_matching_ready w (JObj []) table Hinit), found_in_table.
    cbn [bindO]. rewrite select_table. unfold table_documents.
    now rewrite filter_idempotent. }
  split; [ reflexivity | ].
  split; [ now rewrite (find_ready w (JObj []) table Hinit), found_in_table | ].
  split; [ exact Hmatching | ].
  split; [ | reflexivity ].
  unfold deleteAll, delete, bind at 1.
  rewrite (ensureInitialized_ready w Hinit).
  unfold try_, bind. now rewrite Hmatching.
Qed.


(** ** What a method may raise *)

Lemma never_raises_errors_only {A : Type} (m : M A) :
  never_raises m -> raises_errors_only m.
Proof.
  intros H w Hw o w' Hrun. destruct (H w Hw) as (a & w1 & Ha & Hready).
  rewrite Ha in Hrun. injection Hrun as <- <-. split; [ exact Hready | ].
  intros e He. discriminate He.
Qed.

Lemma never_raises_ret {A : Type} (a : A) : never_raises (@ret Chat A a).
Proof. intros w Hw. now exists a, w. Qed.

Lemma never_raises_bind {A B : Type} (m : M A) (k : A -> M B) :
  never_raises m -> (forall a, never_raises (k a)) -> never_raises (bind m k).
Proof.
  intros Hm Hk w Hw. destruct (Hm w Hw) as (a & w1 & Ha & H1).
  destruct (Hk a w1 H1) as (b & w2 & Hb & H2).
  exists b, w2. unfold bind. now rewrite Ha.
Qed.

Lemma errors_only_bind {A B : Type} (m : M A) (k : A -> M B) :
  raises_errors_only m -> (forall a, raises_errors_only (k a)) ->
  raises_errors_only (bind m k).
Proof.
  intros Hm Hk w Hw o w' Hrun. unfold bind in Hrun.
  destruct (m w) as [[a | e] w1] eqn:Hmw.
  - destruct (Hm w Hw _ _ Hmw) as [H1 _]. exact (Hk a w1 H1 o w' Hrun).
  - injection Hrun as <- <-. destruct (Hm w Hw _ _ Hmw) as [H1 Hsome].
    split; [ exact H1 | ]. intros e' He'. injection He' as <-.
    now apply (Hsome e).
Qed.

Lemma never_raises_this {B : Type} (k : TelegramDB -> M B) :
  (forall d, ready d -> never_raises (k d)) -> never_raises (bind this k).
Proof. intros Hk w Hw. unfold bind, this. exact (Hk (db w) Hw w Hw). Qed.

Lemma errors_only_this {B : Type} (k : TelegramDB -> M B) :
  (forall d, ready d -> raises_errors_only (k d)) ->
  raises_errors_only (bind this k).
Proof. intros Hk w Hw. unfold bind, this. exact (Hk (db w) Hw w Hw). Qed.

Lemma errors_only_lift {A : Type} (o : Outcome A) :
  (forall e, o = Threw e -> e <> None) -> raises_errors_only (@lift Chat A o).
Proof.
  intros Ho w Hw o' w' Hrun. unfold lift in Hrun. injection Hrun as <- <-.
  now split.
Qed.

Lemma errors_only_call {A : Type} (request : Chat -> reply A * Chat) :
  raises_errors_only (call request).
Proof.
  intros w Hw o w' Hrun. unfold call in Hrun.
  destruct (request (channel w)) as [[a | err] c]; injection Hrun as <- <-;
    (split; [ exact Hw
            | intros e He; first [ discriminate He | now injection He as <- ] ]).
Qed.

Lemma never_raises_ask {A : Type} (request : Chat -> A * Chat) :
  never_raises (ask request).
Proof.
  intros w Hw. unfold ask. destruct (request (channel w)) as [a c].
  now exists a, (mkWorld (db w) c).
Qed.

Lemma never_raises_modify (f : TelegramDB -> TelegramDB) :
  (forall d, ready d -> ready (f d)) -> never_raises (@modify Chat f).
Proof.
  intros Hf w Hw. exists tt, (mkWorld (f (db w)) (channel w)).
  split; [ reflexivity | now apply Hf ].
Qed.

Lemma never_raises_try {A : Type} (body : M A) (handler : thrown -> M A) :
  raises_errors_only body ->
  (forall err, never_raises (handler (Some err))) ->
  never_raises (try_ body handler).
Proof.
  intros Hbody Hhandler w Hw. unfold try_.
  destruct (body w) as [[a | e] w1] eqn:Hrun;
    destruct (Hbody w Hw _ _ Hrun) as [H1 Hsome].
  - now exists a, w1.
  - destruct e as [ err | ]; [ exact (Hhandler err w1 H1) | ].
    now elim (Hsome None).
Qed.

Lemma errors_only_try {A : Type} (body : M A) (handler : thrown -> M A) :
  raises_errors_only body ->
  (forall err, raises_errors_only (handler (Some err))) ->
  raises_errors_only (try_ body handler).
Proof.
  intros Hbody Hhandler w Hw o w' Hrun'. unfold try_ in Hrun'.
  destruct (body w) as [[a | e] w1] eqn:Hrun;
    destruct (Hbody w Hw _ _ Hrun) as [H1 Hsome].
  - injection Hrun' as <- <-. split; [ exact H1 | discriminate ].
  - destruct e as [ err | ]; [ exact (Hhandler err w1 H1 o w' Hrun') | ].
    now elim (Hsome None).
Qed.

Lemma ready_set_messageIndex (m : JsMap) (d : TelegramDB) :
  ready d -> ready (set_messageIndex m d).
Proof. exact (fun H => H). Qed.

Lemma ready_set_documentCache (m : JsMap) (d : TelegramDB) :
  ready d -> ready (set_documentCache m d).
Proof. exact (fun H => H). Qed.

Lemma ready_set_indexMessageId (v : value) (d : TelegramDB) :
  ready d -> ready (set_indexMessageId v d).
Proof. exact (fun H => H). Qed.

(** Once an attempt was made, or an error is at hand, what the loop of
    [retryOperation] throws is an [Error]. *)
Lemma errors_only_retry_from {A : Type} (operation : M A) (n i : Z)
      (remaining : nat) (lastError : thrown) :
  raises_errors_only operation ->
  (lastError <> None \/ remaining <> O) ->
  raises_errors_only (retry_from operation n i remaining lastError).
Proof.
  intros Hop. revert i lastError.
  induction remaining as [ | k IH ]; intros i lastError Hlast.
  - destruct Hlast as [Hlast | Hk]; [ | now elim Hk ].
    intros w Hw o w' Hrun. cbn in Hrun. unfold throw in Hrun.
    injection Hrun as <- <-. split; [ exact Hw | ].
    intros e He. now injection He as <-.
  - cbn [retry_from]. apply errors_only_try; [ exact Hop | ].
    intros err. apply errors_only_bind.
    + destruct (i <? n - 1); apply never_raises_errors_only;
        apply never_raises_ret.
    + intros _. apply IH. left. discriminate.
Qed.

Lemma errors_only_retry {A : Type} (operation : M A) (n : Z) :
  0 < n -> raises_errors_only operation ->
  raises_errors_only (retryOperation operation n).
Proof.
  intros Hn Hop. unfold retryOperation. apply errors_only_retry_from;
    [ exact Hop | ]. right. lia.
Qed.

(** The error [retryOperation] throws when its attempts are used up is
    the one the last attempt threw. *)
Lemma retry_from_last_error {A : Type} (operation : M A) (n i : Z)
      (remaining : nat) (lastError : thrown) w (e : thrown) w' :
  remaining <> O ->
  retry_from operation n i remaining lastError w = (Threw e, w') ->
  exists w0, operation w0 = (Threw e, w').
Proof.
  revert i lastError w. induction remaining as [ | k IH ];
    intros i lastError w Hk Hrun; [ now elim Hk | ].
  cbn [retry_from] in Hrun. unfold try_ in Hrun.
  destruct (operation w) as [[a | err] w1] eqn:Hop; [ discriminate Hrun | ].
  unfold bind in Hrun.
  assert (Hpause :
    (if i <? n - 1 then sleep (1000 * (i + 1)) else ret tt) w1
    = (Returned tt, w1)) by (now destruct (i <? n - 1)).
  rewrite Hpause in Hrun.
  destruct k as [ | k' ].
  - cbn in Hrun. unfold throw in Hrun. injection Hrun as <- <-.
    now exists w.
  - apply (IH (i + 1) err w1); [ discriminate | exact Hrun ].
Qed.

Lemma never_raises_failed (what : string) (err : Error) :
  never_raises (@failed Chat what (Some err)).
Proof. intros w Hw. unfold failed, message_of, bind, ret. eauto. Qed.

Lemma never_raises_ensureInitialized : never_raises (@ensureInitialized Chat telegram).
Proof.
  intros w Hw. rewrite (ensureInitialized_ready w (proj1 Hw)). now exists tt, w.
Qed.

Lemma never_raises_saveMessageIndex : never_raises (@saveMessageIndex Chat telegram).
Proof.
  unfold saveMessageIndex. apply never_raises_try.
  - apply errors_only_this. intros d Hd.
    apply errors_only_bind;
      [ apply never_raises_errors_only, never_raises_ask | ].
    intros now. apply never_raises_errors_only. apply never_raises_bind.
    + destruct (truthy (indexMessageId d)); [ | apply never_raises_ret ].
      apply never_raises_try; [ apply errors_only_call | ].
      intros _. apply never_raises_ret.
    + intros _. apply never_raises_this. intros d' Hd'.
      destruct (Map_size (messageIndex d') >? 0); [ | apply never_raises_ret ].
      apply never_raises_try.
      * apply errors_only_bind; [ apply errors_only_call | ].
        intros sent. apply never_raises_errors_only, never_raises_modify.
        intros d0. apply ready_set_indexMessageId.
      * intros _. apply never_raises_ret.
  - intros _. apply never_raises_ret.
Qed.


(** ** What the conversions throw *)

Lemma ToString_raises_error (v : value) (e : thrown) :
  ToString v = Threw e -> e <> None.
Proof.
  revert e. pattern v. apply value_nested_ind; clear v;
    try (intros; cbn in *; discriminate).
  - intros [ | ] e; discriminate.
  - intros items IH e. cbn [ToString].
    match goal with
    | |- context [bindO (?f items) _] => set (each := f)
    end.
    assert (Heach : forall e', each items = Threw e' -> e' <> None).
    { induction IH as [ | x xs Hx _ IHxs ]; intros e'; [ discriminate | ].
      change (each (x :: xs))
        with (bindO (match x with
                     | JUndefined | JNull => Returned EmptyString
                     | _ => ToString x
                     end)
                    (fun t => bindO (each xs) (fun ts => Returned (t :: ts)))).
      destruct (match x with
                | JUndefined | JNull => Returned EmptyString
                | _ => ToString x
                end) as [ t | e0 ] eqn:Hhead; cbn [bindO].
      - destruct (each xs) as [ ts | e1 ]; cbn [bindO]; [ discriminate | ].
        intros H. injection H as <-. now apply IHxs.
      - intros H. injection H as <-. apply Hx.
        destruct x; first [ discriminate Hhead | exact Hhead ]. }
    destruct (each items) as [ ts | e1 ]; cbn [bindO]; [ discriminate | ].
    intros H. injection H as <-. now apply Heach.
  - intros props _ e. cbn [ToString].
    destruct (has_property props "toString"); [ | discriminate ].
    intros H. injection H as <-. discriminate.
Qed.

Lemma ToPrimitive_raises_error (v : value) (e : thrown) :
  ToPrimitive v = Threw e -> e <> None.
Proof.
  destruct v; cbn [ToPrimitive]; try discriminate;
    match goal with
    | |- bindO (ToString ?v) _ = _ -> _ =>
        destruct (ToString v) as [ t | e0 ] eqn:Ht; cbn [bindO];
        [ discriminate | ];
        intros H; injection H as <-;
        exact (ToString_raises_error _ _ Ht)
    end.
Qed.

Lemma IsLessThan_raises_error (x y : value) (leftFirst : bool) (e : thrown) :
  IsLessThan x y leftFirst = Threw e -> e <> None.
Proof.
  unfold IsLessThan.
  destruct (ToPrimitive x) as [ px | ex ] eqn:Hx;
    destruct (ToPrimitive y) as [ py | ey ] eqn:Hy;
    destruct leftFirst; cbn [bindO]; try discriminate;
    intros H; injection H as <-;
    first [ exact (ToPrimitive_raises_error _ _ Hx)
          | exact (ToPrimitive_raises_error _ _ Hy) ].
Qed.

Lemma comparison_raises_error (x y : value) (e : thrown) :
  (js_lt x y = Threw e -> e <> None)
  /\ (js_gt x y = Threw e -> e <> None)
  /\ (js_le x y = Threw e -> e <> None)
  /\ (js_ge x y = Threw e -> e <> None).
Proof.
  unfold js_lt, js_gt, js_le, js_ge.
  repeat split;
    match goal with
    | |- bindO (IsLessThan ?a ?b ?l) _ = _ -> _ =>
        destruct (IsLessThan a b l) as [ r | e0 ] eqn:Hr; cbn [bindO];
        [ discriminate | ];
        intros H; injection H as <-;
        exact (IsLessThan_raises_error _ _ _ _ Hr)
    end.
Qed.

Lemma operator_holds_raises_error (docValue opValue : value) (op : string)
      (e : thrown) :
  operator_holds docValue op opValue = Threw e -> e <> None.
Proof.
  unfold operator_holds.
  destruct (comparison_raises_error docValue opValue e)
    as (Hlt & Hgt & Hle & Hge).
  repeat match goal with
         | |- context [if ?c then _ else _] => destruct c
         end; try discriminate; try assumption.
  destruct docValue; try discriminate.
  unfold pattern_source.
  assert (Htest : forall pattern,
             match regexp_test pattern s with
             | Some b => Returned b
             | None => Threw (SyntaxError ("Invalid regular expression: /"
                                           ++ pattern ++ "/"))
             end = Threw e -> e <> None).
  { intros pattern. destruct (regexp_test pattern s); [ discriminate | ].
    intros H. injection H as <-. discriminate. }
  destruct opValue; cbn [bindO]; try apply Htest;
    match goal with
    | |- bindO (ToString ?v) _ = _ -> _ =>
        destruct (ToString v) as [ t | e0 ] eqn:Ht; cbn [bindO];
        [ apply Htest | ];
        intros H; injection H as <-;
        exact (ToString_raises_error _ _ Ht)
    end.
Qed.

Lemma all_operators_raises_error (docValue : value)
      (ops : list (string * value)) (e : thrown) :
  all_operators docValue ops = Threw e -> e <> None.
Proof.
  induction ops as [ | [op opValue] ops IH ]; cbn [all_operators];
    [ discriminate | ].
  destruct (operator_holds docValue op opValue) as [ [] | e' ] eqn:Hop;
    cbn [bindO]; [ exact IH | discriminate | ].
  intros H. injection H as <-. exact (operator_holds_raises_error _ _ _ _ Hop).
Qed.

Lemma member_raises_error (v : value) (key : string) (e : thrown) :
  member v key = Threw e -> e <> None.
Proof.
  destruct v; cbn; intros H; try discriminate H; injection H as <-;
    discriminate.
Qed.

Lemma entry_matches_raises_error (doc v : value) (key : string) (e : thrown) :
  entry_matches doc key v = Threw e -> e <> None.
Proof.
  unfold entry_matches.
  destruct (String.eqb key "_id").
  - destruct (member doc "_id") as [ id | e' ] eqn:Hm; cbn [bindO].
    + destruct (negb (strict_equals id v)); [ discriminate | ].
      destruct (isObject v);
        [ apply all_operators_raises_error | destruct v; discriminate ].
    + intros H. injection H as <-. exact (member_raises_error _ _ _ Hm).
  - cbn [bindO].
    destruct (isObject v);
      [ apply all_operators_raises_error | destruct v; discriminate ].
Qed.

Lemma matchesFilter_raises_error (doc filter : value) (e : thrown) :
  matchesFilter doc filter = Threw e -> e <> None.
Proof.
  unfold matchesFilter.
  induction (own_entries filter) as [ | [key v] entries IH ];
    cbn [all_entries]; [ discriminate | ].
  destruct (entry_matches doc key v) as [ [] | e' ] eqn:He; cbn [bindO];
    [ exact IH | discriminate | ].
  intros H. injection H as <-. exact (entry_matches_raises_error _ _ _ _ He).
Qed.

Lemma select_raises_error (docs : list value) (query : value) (e : thrown) :
  select docs query = Threw e -> e <> None.
Proof.
  induction docs as [ | doc docs IH ]; cbn [select]; [ discriminate | ].
  destruct (matchesFilter doc query) as [ ok | e' ] eqn:Hm; cbn [bindO].
  - destruct (select docs query) as [ found | e' ]; cbn [bindO];
      [ discriminate | ].
    intros H. injection H as <-. now apply IH.
  - intros H. injection H as <-. exact (matchesFilter_raises_error _ _ _ Hm).
Qed.

Lemma errors_only_find (filter : value) (table : string) :
  raises_errors_only (find filter table).
Proof.
  intros w Hw o w' Hrun. rewrite (find_ready w filter table (proj1 Hw)) in Hrun.
  injection Hrun as <- <-. split; [ exact Hw | ].
  unfold found_in.
  destruct (select (Map_values (documentCache (db w))) (with_table filter table))
    as [ docs | [ err | ] ]; intros e He; try discriminate He;
    injection He as <-; discriminate.
Qed.

Lemma errors_only_find_matching (filter : value) (table : string) :
  raises_errors_only (find_matching filter table).
Proof.
  unfold find_matching. apply errors_only_bind; [ apply errors_only_find | ].
  intros docs. apply errors_only_lift. apply select_raises_error.
Qed.

Lemma never_raises_generateId : never_raises (@generateId Chat telegram).
Proof.
  unfold generateId. apply never_raises_bind; [ apply never_raises_ask | ].
  intros now. apply never_raises_bind; [ apply never_raises_ask | ].
  intros token. apply never_raises_ret.
Qed.

Lemma errors_only_send (text : string) (d : TelegramDB) :
  ready d ->
  raises_errors_only (retryOperation (call (sendMessage text)) (maxRetries d)).
Proof.
  intros Hd. apply errors_only_retry; [ exact (proj2 Hd) | ].
  apply errors_only_call.
Qed.

Lemma never_raises_insert (doc : value) (table : string) :
  never_raises (insert doc table).
Proof.
  unfold insert. apply never_raises_bind;
    [ apply never_raises_ensureInitialized | ].
  intros _. apply never_raises_try; [ | apply never_raises_failed ].
  apply errors_only_bind;
    [ apply errors_only_lift, member_raises_error | ].
  intros id0. apply errors_only_bind.
  { destruct (truthy id0); apply never_raises_errors_only;
      [ apply never_raises_ret | apply never_raises_generateId ]. }
  intros id. apply errors_only_this. intros d Hd.
  apply errors_only_bind; [ now apply errors_only_send | ].
  intros sent. apply never_raises_errors_only.
  apply never_raises_bind;
    [ apply never_raises_modify; intros d0; apply ready_set_messageIndex | ].
  intros _. apply never_raises_bind;
    [ apply never_raises_modify; intros d0; apply ready_set_documentCache | ].
  intros _. apply never_raises_bind; [ apply never_raises_saveMessageIndex | ].
  intros _. apply never_raises_ret.
Qed.

Lemma errors_only_update_one (patch : value) (options : UpdateOptions)
      (doc : value) :
  raises_errors_only (update_one patch options doc).
Proof.
  unfold update_one. apply errors_only_bind;
    [ apply errors_only_lift, member_raises_error | ].
  intros id. apply errors_only_bind.
  { apply never_raises_errors_only. unfold delete_old_message.
    apply never_raises_this. intros d Hd.
    destruct (truthy (Map_get (messageIndex d) id)); [ | apply never_raises_ret ].
    apply never_raises_try; [ apply errors_only_call | ].
    intros _. apply never_raises_ret. }
  intros _. apply errors_only_this. intros d' Hd'.
  apply errors_only_bind; [ now apply errors_only_send | ].
  intros sent. apply never_raises_errors_only.
  apply never_raises_bind;
    [ apply never_raises_modify; intros d0; apply ready_set_messageIndex | ].
  intros _. apply never_raises_bind;
    [ apply never_raises_modify; intros d0; apply ready_set_documentCache | ].
  intros _. apply never_raises_ret.
Qed.

Lemma errors_only_update_each (patch : value) (options : UpdateOptions)
      (documents updatedDocs : list value) :
  raises_errors_only (update_each patch options documents updatedDocs).
Proof.
  revert updatedDocs. induction documents as [ | doc rest IH ];
    intros updatedDocs; cbn [update_each].
  - apply never_raises_errors_only, never_raises_ret.
  - apply errors_only_bind; [ apply errors_only_update_one | ].
    intros updated. apply IH.
Qed.

Lemma never_raises_update (filter patch : value) (table : string)
      (options : UpdateOptions) :
  never_raises (update filter patch table options).
Proof.
  unfold update. apply never_raises_bind;
    [ apply never_raises_ensureInitialized | ].
  intros _. apply never_raises_try; [ | apply never_raises_failed ].
  apply errors_only_bind; [ apply errors_only_find_matching | ].
  intros documents. unfold update_documents.
  destruct documents as [ | doc rest ].
  - apply never_raises_errors_only. destruct (upsert options);
      [ apply never_raises_insert | apply never_raises_ret ].
  - apply errors_only_bind; [ apply errors_only_update_each | ].
    intros updatedDocs. apply never_raises_errors_only.
    apply never_raises_bind; [ apply never_raises_saveMessageIndex | ].
    intros _. apply never_raises_ret.
Qed.

Lemma never_raises_remove_locally (id : value) :
  never_raises (@remove_locally Chat id).
Proof.
  unfold remove_locally. apply never_raises_bind;
    [ apply never_raises_modify; intros d0; apply ready_set_messageIndex | ].
  intros _. apply never_raises_modify. intros d0. apply ready_set_documentCache.
Qed.

Lemma errors_only_delete_one (doc : value) :
  raises_errors_only (delete_one doc).
Proof.
  unfold delete_one. apply errors_only_bind;
    [ apply errors_only_lift, member_raises_error | ].
  intros id. apply errors_only_this. intros d Hd.
  apply never_raises_errors_only.
  destruct (truthy (Map_get (messageIndex d) id)); [ | apply never_raises_ret ].
  apply never_raises_try.
  - apply errors_only_bind; [ apply errors_only_call | ].
    intros _. apply never_raises_errors_only.
    apply never_raises_bind; [ apply never_raises_remove_locally | ].
    intros _. apply never_raises_ret.
  - intros _. apply never_raises_bind; [ apply never_raises_remove_locally | ].
    intros _. apply never_raises_ret.
Qed.

Lemma errors_only_delete_each (documents : list value) (deletedCount : nat) :
  raises_errors_only (delete_each documents deletedCount).
Proof.
  revert deletedCount. induction documents as [ | doc rest IH ];
    intros deletedCount; cbn [delete_each].
  - apply never_raises_errors_only, never_raises_ret.
  - apply errors_only_bind; [ apply errors_only_delete_one | ].
    intros deleted. apply IH.
Qed.

Lemma never_raises_delete (filter : value) (table : string) :
  never_raises (delete filter table).
Proof.
  unfold delete. apply never_raises_bind;
    [ apply never_raises_ensureInitialized | ].
  intros _. apply never_raises_try; [ | apply never_raises_failed ].
  apply errors_only_bind; [ apply errors_only_find_matching | ].
  intros documents. unfold delete_documents.
  destruct documents as [ | doc rest ].
  - apply never_raises_errors_only, never_raises_ret.
  - apply errors_only_bind; [ apply errors_only_delete_each | ].
    intros deletedCount. apply never_raises_errors_only.
    apply never_raises_bind; [ apply never_raises_saveMessageIndex | ].
    intros _. apply never_raises_ret.
Qed.

Lemma never_raises_insert_each (docs : list value) (table : string)
      (pause : Z) (stop : bool) (results : list OperationResult) :
  never_raises (insert_each docs table pause stop results).
Proof.
  revert results. induction docs as [ | doc rest IH ]; intros results;
    cbn [insert_each].
  - apply never_raises_ret.
  - apply never_raises_bind; [ apply never_raises_insert | ].
    intros result. destruct (negb (success result) && stop);
      [ apply never_raises_ret | ].
    apply never_raises_bind; [ | intros _; apply IH ].
    destruct (pause >? 0); apply never_raises_ret.
Qed.

Lemma never_raises_insertMany (docs : list value) (table : string)
      (options : option BatchOptions) :
  never_raises (insertMany docs table options).
Proof.
  unfold insertMany. apply never_raises_bind;
    [ apply never_raises_ensureInitialized | ].
  intros _. apply never_raises_this. intros d Hd.
  apply never_raises_insert_each.
Qed.

(** [generateId] reads the clock and the random source of the chat and
    leaves the store as it is. *)
Lemma generateId_effect w :
  exists now token c,
    generateId w
    = (Returned (JStr (JSON.number_to_string now ++ "-" ++ token)),
       mkWorld (db w) c).
Proof.
  unfold generateId, bind, ask, ret. cbn [channel db].
  destruct (Date_now (channel w)) as [now c1]. cbn [channel db].
  destruct (random_token c1) as [token c2]. now exists now, token, c2.
Qed.

(** The failed result of [insert] carries the error that used up the
    attempts to send, whether the document came with its [_id] or was
    given one. *)
Lemma insert_reports_send_error w (doc id0 id : value) (table : string)
      w1 (err : Error) w' :
  initialized (db w) = true ->
  member doc "_id" = Returned id0 ->
  (if truthy id0 then ret id0 else generateId) w = (Returned id, w1) ->
  retryOperation
    (call (sendMessage (encodeDocument (new_document doc id table)
                                       (prefix (db w1)))))
    (maxRetries (db w1)) w1 = (Threw (Some err), w') ->
  insert doc table w
  = (Returned (failure "Failed to insert document: " err), w').
Proof.
  intros Hinit Hid0 Hid Hsend. unfold insert, bind at 1.
  rewrite (ensureInitialized_ready w Hinit).
  unfold try_, bind at 1, lift. rewrite Hid0.
  unfold bind at 1. rewrite Hid.
  unfold bind at 1, this. cbn [db]. unfold bind at 1. rewrite Hsend.
  reflexivity.
Qed.

(** The results of the loop of [insertMany] are the results of [insert]
    for the documents, one after the other. *)
Lemma insert_each_inserts (docs : list value) (table : string) (pause : Z)
      (stop : bool) (results : list OperationResult) w :
  ready (db w) ->
  exists rs w',
    insert_each docs table pause stop results w = (Returned (results ++ rs), w')
    /\ Forall2 (fun doc r =>
                  exists w1 w2,
                    ready (db w1) /\ insert doc table w1 = (Returned r, w2))
               (firstn (List.length rs) docs) rs.
Proof.
  revert results w. induction docs as [ | doc rest IH ]; intros results w Hw;
    cbn [insert_each].
  - exists [], w. rewrite List.app_nil_r. split; [ reflexivity | constructor ].
  - destruct (never_raises_insert doc table w Hw) as (r & w1 & Hrun & Hw1).
    unfold bind at 1. rewrite Hrun.
    destruct (negb (success r) && stop).
    + exists [r], w1. split; [ reflexivity | ].
      cbn [List.length firstn]. constructor; [ | constructor ].
      now exists w, w1.
    + unfold bind at 1.
      assert (Hpause : (if pause >? 0 then sleep pause else ret tt) w1
                       = (Returned tt, w1)) by (now destruct (pause >? 0)).
      rewrite Hpause.
      destruct (IH (results ++ [r]) w1 Hw1) as (rs & w' & Hrest & Hall).
      exists (r :: rs), w'. split.
      * rewrite Hrest. now rewrite <- List.app_assoc.
      * cbn [List.length firstn]. constructor; [ | exact Hall ].
        now exists w, w1.
Qed.

Lemma findOne_ready w (filter : value) (table : string) :
  initialized (db w) = true ->
  findOne filter table w
  = (bindO (found_in w filter table)
           (fun results => Returned (hd JNull results)), w).
Proof.
  intros Hinit. unfold findOne, bind.
  rewrite (find_ready w filter table Hinit).
  now destruct (found_in w filter table) as [ [ | first rest ] | e ].
Qed.

Lemma count_ready w (filter : value) (table : string) :
  initialized (db w) = true ->
  count filter table w
  = (bindO (select (table_documents w table) (with_table filter table))
           (fun matching => Returned (List.length matching)), w).
Proof.
  intros Hinit. unfold count, bind.
  rewrite (find_ready w (JObj []) table Hinit), found_in_table.
  unfold lift.
  now destruct (select (table_documents w table) (with_table filter table)).
Qed.

(** A method called on a store that fails to initialize raises what
    [ensureInitialized] raises. *)
Lemma raised_by_ensureInitialized w (e : thrown) w' :
  ensureInitialized w = (Threw e, w') ->
  forall doc filter patch table options,
    insert doc table w = (Threw e, w')
    /\ find filter table w = (Threw e, w')
    /\ update filter patch table options w = (Threw e, w')
    /\ delete filter table w = (Threw e, w').
Proof.
  intros Hinit doc filter patch table options.
  unfold insert, find, update, delete, bind. now rewrite Hinit.
Qed.

(** [ensureInitialized] raises when the store is not initialized and the
    chat cannot be reached. *)
Lemma ensureInitialized_unreachable w (err : Error) (c : Chat) :
  initialized (db w) = false ->
  getMe (channel w) = (Failed err, c) ->
  ensureInitialized w
  = (Threw (Some (mkError "Error"
                    ("Failed to initialize Telegram DB: "
                     ++ error_name err ++ ": " ++ error_message err))),
     mkWorld (db w) c).
Proof.
  intros Hinit Hme. unfold ensureInitialized, bind at 1, this.
  rewrite Hinit. cbn [negb]. unfold initialize, bind at 1, this.
  rewrite Hinit. unfold try_, bind at 1, call. rewrite Hme. reflexivity.
Qed.


(** ** update: a failed send ends the loop *)

Lemma update_each_app (patch : value) (options : UpdateOptions)
      (pre post updatedDocs : list value) w :
  update_each patch options (pre ++ post) updatedDocs w
  = match update_each patch options pre updatedDocs w with
    | (Returned done, w1) => update_each patch options post done w1
    | (Threw e, w1) => (Threw e, w1)
    end.
Proof.
  revert updatedDocs w. induction pre as [ | doc pre IH ];
    intros updatedDocs w; [ reflexivity | ].
  cbn [List.app update_each]. unfold bind.
  destruct (update_one patch options doc w) as [[updated | e] w1];
    [ apply IH | reflexivity ].
Qed.

Lemma delete_old_message_returns (id : value) w :
  exists c, delete_old_message id w = (Returned tt, mkWorld (db w) c).
Proof.
  unfold delete_old_message, bind, this, try_, call, ret.
  destruct (truthy (Map_get (messageIndex (db w)) id)).
  - destruct (deleteMessage (Map_get (messageIndex (db w)) id) (channel w))
      as [[[] | err] c]; now exists c.
  - exists (channel w). now rewrite world_eta.
Qed.

(** The sends of [retryOperation] change the chat and leave the store as
    it is. *)
Lemma retry_send_keeps_db (text : string) (n i : Z) (remaining : nat)
      (lastError : thrown) w (o : Outcome Z) w' :
  retry_from (call (sendMessage text)) n i remaining lastError w = (o, w') ->
  db w' = db w.
Proof.
  revert i lastError w. induction remaining as [ | k IH ];
    intros i lastError w Hrun.
  - cbn in Hrun. unfold throw in Hrun. now injection Hrun as _ <-.
  - cbn [retry_from] in Hrun. unfold try_, call in Hrun.
    destruct (sendMessage text (channel w)) as [[sent | err] c].
    + now injection Hrun as _ <-.
    + unfold bind in Hrun.
      assert (Hpause : forall w1 : @World Chat,
        (if i <? n - 1 then sleep (1000 * (i + 1)) else ret tt) w1
        = (Returned tt, w1)) by (intros w1; now destruct (i <? n - 1)).
      rewrite Hpause in Hrun. apply IH in Hrun. exact Hrun.
Qed.

(** The failed result of [update] carries the error that used up the
    attempts to send one of the matching documents; the store is left as
    the documents before it left it. *)
Lemma update_reports_send_error
        w (filter patch : value) (table : string) (options : UpdateOptions)
        (pre post done : list value) (doc id : value) w1 (err : Error) w2 :
  initialized (db w) = true ->
  find_matching filter table w = (Returned (pre ++ doc :: post), w) ->
  update_each patch options pre [] w = (Returned done, w1) ->
  member doc "_id" = Returned id ->
  retryOperation
    (call (sendMessage
             (encodeDocument (updated_document patch options doc id)
                             (prefix (db w1)))))
    (maxRetries (db w1)) (after (delete_old_message id w1))
  = (Threw (Some err), w2) ->
  update filter patch table options w
  = (Returned (failure "Failed to update documents: " err), w2)
  /\ db w2 = db w1.
Proof.
  intros Hinit Hfind Hpre Hid Hsend.
  destruct (delete_old_message_returns id w1) as (c & Hold).
  rewrite Hold in Hsend. unfold after in Hsend. cbn [snd db] in Hsend.
  split.
  - unfold update, bind at 1. rewrite (ensureInitialized_ready w Hinit).
    unfold try_, bind at 1. rewrite Hfind.
    assert (Hloop :
      update_documents filter patch table options (pre ++ doc :: post) w
      = (Threw (Some err), w2)).
    { unfold update_documents.
      destruct (pre ++ doc :: post) as [ | x xs ] eqn:Hdocs;
        [ now destruct pre | ].
      rewrite <- Hdocs. unfold bind at 1.
      rewrite update_each_app, Hpre. cbn [update_each]. unfold bind at 1.
      unfold update_one, bind at 1, lift. rewrite Hid.
      unfold bind at 1. rewrite Hold. unfold bind at 1, this. cbn [db].
      unfold bind at 1. rewrite Hsend. reflexivity. }
    rewrite Hloop. reflexivity.
  - unfold retryOperation in Hsend. apply retry_send_keeps_db in Hsend.
    exact Hsend.
Qed.

(** C3 (amended).  In [update] with several matching documents, a send
    that fails for one of them, its attempts used up, ends the operation:
    the documents after it are not attempted, the result is a failure
    that carries the error and no list of documents, and the store is left
    as the documents before the failing one left it. *)
Theorem update_stops_at_failed_send
        w (filter patch : value) (table : string) (options : UpdateOptions)
        (pre post done : list value) (doc id : value) w1 (err : Error) w2 :
  initialized (db w) = true ->
  find_matching filter table w = (Returned (pre ++ doc :: post), w) ->
  update_each patch options pre [] w = (Returned done, w1) ->
  member doc "_id" = Returned id ->
  retryOperation
    (call (sendMessage
             (encodeDocument (updated_document patch options doc id)
                             (prefix (db w1)))))
    (maxRetries (db w1)) (after (delete_old_message id w1))
  = (Threw (Some err), w2) ->
  update filter patch table options w
  = (Returned (failure "Failed to update documents: " err), w2)
  /\ db w2 = db w1.
Proof.
  exact (update_reports_send_error w filter patch table options
           pre post done doc id w1 err w2).
Qed.

(** C5 (amended).  On a store that is initialized and gives every send at
    least one attempt, insert, insertMany, update, updateById, delete,
    deleteById and deleteAll raise nothing: they return a result.  When
    the attempts of a send are used up, the error of the last attempt is
    returned in a failed result: by [insert], whether the document came
    with its [_id] or was given one; by [insertMany], whose results are
    those of [insert] for the documents, one after the other; by [update]
    and [updateById], for the first matching document whose send fails.
    The reads may raise: [find] changes nothing and returns the matching
    documents or raises the error of its scan wrapped in a new [Error],
    [findOne] and [findById] raise what [find] raises, and [count] raises
    the error of its own scan.  A method called while the store cannot be
    initialized raises the error of [ensureInitialized]. *)
Theorem writes_return_results :
  (forall doc table, never_raises (insert doc table))
  /\ (forall docs table options, never_raises (insertMany docs table options))
  /\ (forall filter patch table options,
         never_raises (update filter patch table options))
  /\ (forall id patch table options,
         never_raises (updateById id patch table options))
  /\ (forall filter table, never_raises (delete filter table))
  /\ (forall id table, never_raises (deleteById id table))
  /\ (forall table, never_raises (deleteAll table))
  /\ (forall w doc id0 id table w1 err w',
         ready (db w) ->
         member doc "_id" = Returned id0 ->
         (if truthy id0 then ret id0 else generateId) w = (Returned id, w1) ->
         let send :=
           call (sendMessage (encodeDocument (new_document doc id table)
                                             (prefix (db w1)))) in
         retryOperation send (maxRetries (db w1)) w1 = (Threw (Some err), w') ->
         (exists w0, send w0 = (Threw (Some err), w'))
         /\ insert doc table w
            = (Returned (failure "Failed to insert document: " err), w'))
  /\ (forall w docs table options,
         ready (db w) ->
         exists results w',
           insertMany docs table options w = (Returned results, w')
           /\ Forall2 (fun doc r =>
                         exists w1 w2,
                           ready (db w1)
                           /\ insert doc table w1 = (Returned r, w2))
                      (firstn (List.length results) docs) results)
  /\ (forall w filter patch table options pre post done doc id w1 err w2,
         ready (db w) ->
         find_matching filter table w = (Returned (pre ++ doc :: post), w) ->
         update_each patch options pre [] w = (Returned done, w1) ->
         member doc "_id" = Returned id ->
         let send :=
           call (sendMessage
                   (encodeDocument (updated_document patch options doc id)
                                   (prefix (db w1)))) in
         retryOperation send (maxRetries (db w1))
                        (after (delete_old_message id w1))
         = (Threw (Some err), w2) ->
         (0 < maxRetries (db w1) ->
          exists w0, send w0 = (Threw (Some err), w2))
         /\ update filter patch table options w
            = (Returned (failure "Failed to update documents: " err), w2)
         /\ (forall id', filter = JObj [("_id", id')] ->
             updateById id' patch table options w
             = (Returned (failure "Failed to update documents: " err), w2)))
  /\ (forall w filter table,
         ready (db w) ->
         find filter table w = (found_in w filter table, w)
         /\ findOne filter table w
            = (bindO (found_in w filter table)
                     (fun results => Returned (hd JNull results)), w)
         /\ (forall id,
                findById id table w
                = (bindO (found_in w (JObj [("_id", id)]) table)
                         (fun results => Returned (hd JNull results)), w))
         /\ count filter table w
            = (bindO (select (table_documents w table)
                             (with_table filter table))
                     (fun matching => Returned (List.length matching)), w))
  /\ (forall w e w',
         ensureInitialized w = (Threw e, w') ->
         forall doc filter patch table options,
           insert doc table w = (Threw e, w')
           /\ find filter table w = (Threw e, w')
           /\ update filter patch table options w = (Threw e, w')
           /\ delete filter table w = (Threw e, w')).
Proof.
  split; [ exact never_raises_insert | ].
  split; [ exact never_raises_insertMany | ].
  split; [ exact never_raises_update | ].
  split; [ intros id patch table options; apply never_raises_update | ].
  split; [ exact never_raises_delete | ].
  split; [ intros id table; apply never_raises_delete | ].
  split; [ intros table; apply never_raises_delete | ].
  split; [ | split; [ | split; [ | split ] ] ].
  - intros w doc id0 id table w1 err w' [Hinit Hn] Hid0 Hid send Hsend. split.
    + assert (Hdb : db w1 = db w).
      { destruct (truthy id0).
        - unfold ret in Hid. now injection Hid as _ <-.
        - destruct (generateId_effect w) as (now & token & c & Hgen).
          rewrite Hgen in Hid. now injection Hid as _ <-. }
      unfold retryOperation in Hsend.
      apply retry_from_last_error in Hsend; [ exact Hsend | ].
      rewrite Hdb. lia.
    + now apply (insert_reports_send_error w doc id0 id table w1).
  - intros w docs table options Hw. unfold insertMany, bind at 1.
    rewrite (ensureInitialized_ready w (proj1 Hw)).
    unfold bind at 1, this.
    match goal with
    | |- context [insert_each docs table ?pause ?stop [] w] =>
        destruct (insert_each_inserts docs table pause stop [] w Hw)
          as (rs & w' & Hrun & Hall)
    end.
    exists rs, w'. split; [ exact Hrun | exact Hall ].
  - intros w filter patch table options pre post done doc id w1 err w2
           [Hinit _] Hfind Hpre Hid send Hsend.
    destruct (update_reports_send_error w filter patch table options
                pre post done doc id w1 err w2 Hinit Hfind Hpre Hid Hsend)
      as [Hrun _].
    split; [ | split; [ exact Hrun | ] ].
    + intros Hn. unfold retryOperation in Hsend.
      apply retry_from_last_error in Hsend; [ exact Hsend | lia ].
    + intros id' ->. exact Hrun.
  - intros w filter table [Hinit _].
    split; [ now apply find_ready | ].
    split; [ now apply findOne_ready | ].
    split; [ intros id; now apply findOne_ready | now apply count_ready ].
  - exact raised_by_ensureInitialized.
Qed.


(** ** delete: what is removed, and what is counted *)

Lemma saveMessageIndex_keeps_maps w :
  exists w',
    saveMessageIndex w = (Returned tt, w')
    /\ messageIndex (db w') = messageIndex (db w)
    /\ documentCache (db w') = documentCache (db w)
    /\ initialized (db w') = initialized (db w).
Proof.
  unfold saveMessageIndex, try_, bind, this, ask, call, modify, ret.
  repeat (cbn beta iota delta [db channel fst snd];
          match goal with
          | |- context [Date_now ?c] => destruct (Date_now c) as [? ?]
          | |- context [truthy ?v] => destruct (truthy v)
          | |- context [deleteMessage ?v ?c] =>
              destruct (deleteMessage v c) as [[[] | ?] ?]
          | |- context [?a >? ?b] => destruct (a >? b)
          | |- context [sendMessage ?t ?c] =>
              destruct (sendMessage t c) as [[? | ?] ?]
          end);
    cbn [db channel]; eexists; repeat split; reflexivity.
Qed.

(** The loop of [delete]: the count is the number of deletions the chat
    accepted; the index and the cache are what [removed_locally] says,
    whatever the chat answered. *)
Lemma delete_each_effect (documents : list value) (n0 : nat) w :
  (forall doc, In doc documents ->
               member doc "_id" = Returned (get_property doc "_id")) ->
  exists w',
    delete_each documents n0 w
    = (Returned (n0 + accepted_deletes (messageIndex (db w)) documents
                                       (channel w))%nat, w')
    /\ messageIndex (db w')
       = fst (removed_locally (messageIndex (db w)) (documentCache (db w))
                              documents)
    /\ documentCache (db w')
       = snd (removed_locally (messageIndex (db w)) (documentCache (db w))
                              documents)
    /\ initialized (db w') = initialized (db w).
Proof.
  revert n0 w. induction documents as [ | doc rest IH ]; intros n0 w Hids.
  - exists w. cbn. rewrite Nat.add_0_r. now repeat split.
  - assert (Hid : member doc "_id" = Returned (get_property doc "_id"))
      by (apply Hids; now left).
    assert (Hrest : forall d, In d rest ->
                    member d "_id" = Returned (get_property d "_id"))
      by (intros d Hd; apply Hids; now right).
    cbn [delete_each accepted_deletes removed_locally].
    unfold bind at 1. unfold delete_one, bind at 1, lift. rewrite Hid.
    unfold bind at 1, this. cbn [db].
    destruct (truthy (Map_get (messageIndex (db w)) (get_property doc "_id"))).
    + unfold try_, bind, call, remove_locally, bind, modify, ret.
      cbn [db channel].
      destruct (deleteMessage
                  (Map_get (messageIndex (db w)) (get_property doc "_id"))
                  (channel w)) as [[[] | err] c]; cbn [db channel];
        match goal with
        | |- context [delete_each rest ?n ?w1] =>
            destruct (IH n w1 Hrest) as (w' & Hrun & Hindex & Hcache & Hinit)
        end;
        cbn [db channel messageIndex documentCache set_documentCache
             set_messageIndex initialized] in *;
        exists w'; rewrite Hrun;
        (split; [ do 2 f_equal; lia | now repeat split ]).
    + unfold ret.
      destruct (IH n0 w Hrest) as (w' & Hrun & Hindex & Hcache & Hinit).
      exists w'. now rewrite Hrun.
Qed.

(** C2 (amended).  For every [delete] on an initialized store with a
    well-formed cache: each matching document that has a message id in
    the index is removed from the index and the cache whether the chat
    accepts or refuses to delete its message (the index, which holds no
    key twice, has no entry for it any more), and no later [find] answers
    it; a matching document without a message id in the index stays in
    the cache; [deletedCount] is the number of deletions the chat
    accepted. *)
Theorem delete_removes_indexed_matches
        w (filter : value) (table : string) (documents : list value) :
  initialized (db w) = true ->
  cache_well_formed (documentCache (db w)) = true ->
  find_matching filter table w = (Returned documents, w) ->
  documents <> [] ->
  let deletedCount :=
    accepted_deletes (messageIndex (db w)) documents (channel w) in
  exists w',
    delete filter table w
    = (Returned {| success := true;
                   message := Some ("Deleted " ++ count_text deletedCount
                                    ++ " document(s)")%string;
                   data := JObj [("deletedCount",
                                  JNum (Z.of_nat deletedCount))];
                   error := None |}, w')
    /\ documentCache (db w')
       = snd (removed_locally (messageIndex (db w)) (documentCache (db w))
                              documents)
    /\ messageIndex (db w')
       = fst (removed_locally (messageIndex (db w)) (documentCache (db w))
                              documents)
    /\ (forall doc,
           In doc documents -> has_message_id w doc = true ->
           ~ In doc (Map_values (documentCache (db w')))
           /\ (distinct_keys (messageIndex (db w)) = true ->
               Map_get (messageIndex (db w')) (get_property doc "_id")
               = JUndefined)
           /\ forall filter' table' found w'',
                find filter' table' w' = (Returned found, w'') ->
                ~ In doc found)
    /\ (forall doc,
           In doc documents -> has_message_id w doc = false ->
           In doc (Map_values (documentCache (db w')))).
Proof.
  intros Hinit Hwf Hfind Hsome deletedCount.
  assert (Hcached : incl documents (Map_values (documentCache (db w)))).
  { rewrite (find_matching_ready w filter table Hinit) in Hfind.
    injection Hfind as Hfind. unfold found_in in Hfind.
    destruct (select (Map_values (documentCache (db w)))
                     (with_table (JObj []) table)) as [ docs | [ err | ] ] eqn:Hall;
      cbn [bindO] in Hfind; try discriminate Hfind.
    apply select_incl in Hfind. apply select_incl in Hall.
    now apply incl_tran with docs. }
  pose proof Hwf as Hwf'. apply andb_true_iff in Hwf' as [Hdistinct Hkeyed].
  assert (Hentry : forall doc, In doc documents ->
                   exists k, In (k, doc) (documentCache (db w))).
  { intros doc Hdoc. apply Hcached in Hdoc. unfold Map_values in Hdoc.
    apply in_map_iff in Hdoc as ([k v] & Hv & Hkv). cbn [snd] in Hv.
    subst v. now exists k. }
  assert (Hids : forall doc, In doc documents ->
                 member doc "_id" = Returned (get_property doc "_id")).
  { intros doc Hdoc. destruct (Hentry doc Hdoc) as (k & Hk).
    now destruct (cached_under_id _ k doc Hkeyed Hk). }
  destruct (delete_each_effect documents 0 w Hids)
    as (w1 & Hloop & Hindex1 & Hcache1 & Hinit1).
  destruct (saveMessageIndex_keeps_maps w1)
    as (w2 & Hsave & Hindex2 & Hcache2 & Hinit2).
  exists w2.
  assert (Hcache : documentCache (db w2)
                   = snd (removed_locally (messageIndex (db w))
                                          (documentCache (db w)) documents))
    by congruence.
  assert (Hindex : messageIndex (db w2)
                   = fst (removed_locally (messageIndex (db w))
                                          (documentCache (db w)) documents))
    by congruence.
  split; [ | split; [ exact Hcache | split; [ exact Hindex | split ] ] ].
  - unfold delete, bind at 1. rewrite (ensureInitialized_ready w Hinit).
    unfold try_, bind at 1. rewrite Hfind. unfold delete_documents.
    destruct documents as [ | doc rest ]; [ now elim Hsome | ].
    unfold bind at 1. rewrite Hloop. unfold bind at 1. rewrite Hsave.
    reflexivity.
  - intros doc Hdoc Hid. unfold has_message_id in Hid.
    assert (Hgone : ~ In doc (Map_values (documentCache (db w2)))).
    { rewrite Hcache. now apply removed_locally_removes. }
    split; [ exact Hgone | ].
    split; [ intros Hd; rewrite Hindex; now apply removed_locally_unindexes | ].
    intros filter' table' found w'' Hlater Hfound. apply Hgone.
    rewrite find_ready in Hlater by congruence.
    injection Hlater as Hlater _. unfold found_in in Hlater.
    destruct (select (Map_values (documentCache (db w2)))
                     (with_table filter' table')) as [ docs | [ err | ] ] eqn:Hall;
      try discriminate Hlater.
    injection Hlater as ->. apply select_incl in Hall. now apply Hall.
  - intros doc Hdoc Hid. unfold has_message_id in Hid.
    destruct (Hentry doc Hdoc) as (k & Hk).
    rewrite Hcache. unfold Map_values.
    apply in_map_iff. exists (k, doc). split; [ reflexivity | ].
    now apply removed_locally_keeps.
Qed.

End StoreFacts.

Lemma find_on_empty_cache_witness :
  initialized (db restarted) = true
  /\ documentCache (db restarted) = []
  /\ find (JObj []) "users" restarted = (Returned [], restarted).
Proof.
  split; [ reflexivity | ]. split; [ reflexivity | ].
  apply (find_on_empty_cache restarted (JObj []) "users"); reflexivity.
Defined.

(** The history of the chat holds the document of John, in the table
    [users]; a store initialized on that chat has an empty cache, and its
    [find] answers nothing. *)
Lemma find_after_restart_finds_nothing :
  ~ find_rehydrates restarted (JObj []) "users".
Proof.
  intros H. destruct (H eq_refl) as (docs & w' & Hfind & Hall).
  vm_compute in Hfind. injection Hfind as Hdocs _. subst docs.
  apply (Hall (JObj [("name", JStr "John"); ("age", JNum 30);
                     ("_id", JStr "1700000000000-k3x9");
                     ("_table", JStr "users")])).
  - vm_compute. left. reflexivity.
  - vm_compute. reflexivity.
Qed.

Lemma empty_filter_matches_all_witness :
  initialized (db (after (insert john "users" (mkWorld fresh_store empty_chat))))
  = true
  /\ find (JObj []) "users"
          (after (insert john "users" (mkWorld fresh_store empty_chat)))
     = (Returned
          (table_documents
             (after (insert john "users" (mkWorld fresh_store empty_chat)))
             "users"),
        after (insert john "users" (mkWorld fresh_store empty_chat))).
Proof.
  split; [ reflexivity | ].
  apply (empty_filter_matches_all
           (after (insert john "users" (mkWorld fresh_store empty_chat)))
           "users").
  reflexivity.
Defined.

Lemma updated_document_fields_witness :
  distinct (map fst (own_entries (JObj [("age", JNum 31)]))) = true
  /\ get_property
       (updated_document (JObj [("age", JNum 31)]) merge_mode
          (JObj [("name", JStr "John"); ("age", JNum 30);
                 ("_id", JStr "1700000000000-k3x9"); ("_table", JStr "users")])
          (JStr "1700000000000-k3x9"))
       "_table"
     = JStr "users".
Proof.
  split; [ reflexivity | ].
  apply (updated_document_fields (JObj [("age", JNum 31)]) merge_mode
           [("name", JStr "John"); ("age", JNum 30);
            ("_id", JStr "1700000000000-k3x9"); ("_table", JStr "users")]);
    reflexivity.
Defined.

(** In merge mode a patch that has the field [_table] moves the document
    to another table; in replace mode the document is left without
    [_table]. *)
Lemma update_changes_table :
  ~ update_preserves_table store_with_john (JObj [("name", JStr "John")])
      (JObj [("age", JNum 31); ("_table", JStr "orders")]) "users" merge_mode
  /\ ~ update_preserves_table store_with_john (JObj [("name", JStr "John")])
         (JObj [("age", JNum 31)]) "users" replace_mode.
Proof.
  split; intros H; unfold update_preserves_table in H;
    match type of H with
    | forall r w', ?run = _ -> _ =>
        let v := eval vm_compute in run in
        assert (Hrun : run = v) by (vm_compute; reflexivity)
    end;
    specialize (H _ _ Hrun eq_refl _ (or_introl eq_refl));
    vm_compute in H; discriminate H.
Qed.

Lemma writes_return_results_witness :
  ready (db (mkWorld fresh_store refusing_chat))
  /\ insert john "users" (mkWorld fresh_store refusing_chat)
     = (Returned (failure "Failed to insert document: "
                          (mkError "TelegramError" "429: Too Many Requests")),
        mkWorld fresh_store (mkChat [] 1 [] [] true 1700000000001)).
Proof.
  split; [ split; reflexivity | ].
  destruct writes_return_results as (_ & _ & _ & _ & _ & _ & _ & Hinsert & _).
  apply (Hinsert (mkWorld fresh_store refusing_chat) john JUndefined
                 (JStr "1700000000000-k3x9") "users"
                 (mkWorld fresh_store
                          (mkChat [] 1 [false; false; false] [] true
                                  1700000000001))).
  - split; reflexivity.
  - reflexivity.
  - vm_compute. reflexivity.
  - vm_compute. reflexivity.
Defined.

(** On the store that holds John, [find] with a filter whose regular
    expression does not compile raises. *)
Lemma find_raises_on_invalid_pattern :
  ~ returns (find unterminated_group_filter "users") store_with_john.
Proof.
  intros (docs & w' & Hrun). vm_compute in Hrun. discriminate Hrun.
Qed.

Lemma update_stops_at_failed_send_witness :
  exists w2,
    update (JObj []) (JObj [("age", JNum 1)]) "users" merge_mode
           store_on_flaky_chat
    = (Returned (failure "Failed to update documents: "
                   (mkError "TelegramError" "429: Too Many Requests")), w2)
    /\ documentCache (db w2)
       = [(JStr "a", JObj [("_id", JStr "a"); ("name", JStr "Alice");
                           ("_table", JStr "users"); ("age", JNum 1)]);
          (JStr "b", JObj [("_id", JStr "b"); ("name", JStr "Bob");
                           ("_table", JStr "users")]);
          (JStr "c", JObj [("_id", JStr "c"); ("name", JStr "Carol");
                           ("_table", JStr "users")])].
Proof.
  pose (first :=
    JObj [("_id", JStr "a"); ("name", JStr "Alice"); ("_table", JStr "users")]).
  pose (second :=
    JObj [("_id", JStr "b"); ("name", JStr "Bob"); ("_table", JStr "users")]).
  pose (third :=
    JObj [("_id", JStr "c"); ("name", JStr "Carol"); ("_table", JStr "users")]).
  pose (run := update_each (JObj [("age", JNum 1)]) merge_mode [first] []
                           store_on_flaky_chat).
  pose (w1 := snd run).
  pose (failing :=
    retryOperation
      (call (sendMessage
               (encodeDocument
                  (updated_document (JObj [("age", JNum 1)]) merge_mode second
                                    (JStr "b"))
                  (prefix (db w1)))))
      (maxRetries (db w1)) (after (delete_old_message (JStr "b") w1))).
  exists (snd failing).
  destruct (update_stops_at_failed_send store_on_flaky_chat
              (JObj []) (JObj [("age", JNum 1)]) "users" merge_mode
              [first] [third]
              [updated_document (JObj [("age", JNum 1)]) merge_mode first
                                (JStr "a")]
              second (JStr "b") w1
              (mkError "TelegramError" "429: Too Many Requests")
              (snd failing))
    as [Hresult Hdb];
    try (vm_compute; reflexivity).
  split; [ exact Hresult | ].
  rewrite Hdb. vm_compute. reflexivity.
Defined.

(** Three documents match and the chat refuses the send of the second:
    the result of [update] is a failure without a list, not the list of
    the first and the third updated. *)
Lemma update_gives_up_after_failed_send :
  ~ continues_past_failure store_on_flaky_chat (JObj [])
      (JObj [("age", JNum 1)]) "users" merge_mode
      (JObj [("_id", JStr "a"); ("name", JStr "Alice"); ("_table", JStr "users")])
      (JObj [("_id", JStr "c"); ("name", JStr "Carol"); ("_table", JStr "users")]).
Proof.
  intros (r & w' & Hrun & Hdata).
  vm_compute in Hrun. injection Hrun as <- _. discriminate Hdata.
Qed.

Lemma delete_removes_indexed_matches_witness :
  exists w',
    delete (JObj [("name", JStr "John")]) "users" store_with_john
    = (Returned {| success := true;
                   message := Some "Deleted 1 document(s)";
                   data := JObj [("deletedCount", JNum 1)];
                   error := None |}, w')
    /\ documentCache (db w') = []
    /\ messageIndex (db w') = [].
Proof.
  destruct (delete_removes_indexed_matches store_with_john
              (JObj [("name", JStr "John")]) "users"
              [JObj [("name", JStr "John"); ("age", JNum 30);
                     ("_id", JStr "1700000000000-k3x9");
                     ("_table", JStr "users")]])
    as (w' & Hrun & Hcache & Hindex & _);
    try (vm_compute; reflexivity); try discriminate.
  exists w'. split; [ exact Hrun | ].
  split; [ rewrite Hcache | rewrite Hindex ]; reflexivity.
Defined.

(** The listener has replaced the index by the snapshot of another
    writer, which knows nothing of John: [delete] matches John, passes
    over him for want of a message id, and leaves him in the cache. *)
Lemma delete_passes_over_unindexed_match :
  ~ delete_removes_every_match store_after_snapshot
      (JObj [("name", JStr "John")]) "users".
Proof.
  intros H. unfold delete_removes_every_match in H.
  pose (doc := JObj [("name", JStr "John"); ("age", JNum 30);
                     ("_id", JStr "1700000000000-k3x9");
                     ("_table", JStr "users")]).
  assert (Hfind :
    find_matching (JObj [("name", JStr "John")]) "users" store_after_snapshot
    = (Returned [doc], store_after_snapshot)) by (vm_compute; reflexivity).
  pose (run := delete (JObj [("name", JStr "John")]) "users"
                      store_after_snapshot).
  assert (Hrun : exists r, run = (Returned r, snd run))
    by (eexists; vm_compute; reflexivity).
  destruct Hrun as (r & Hrun).
  apply (H [doc] Hfind r (snd run) Hrun doc (or_introl eq_refl)).
  vm_compute. left. reflexivity.
Qed.

(* ===================================================================== *)
(** * The examples of the specification, run on the embedding *)
(* ===================================================================== *)

Example filter_examples :
  matchesFilter (JObj [("age", JNum 20)])
                (JObj [("age", JObj [("$gt", JNum 18)])]) = Returned true
  /\ matchesFilter (JObj [("age", JNum 16)])
                   (JObj [("age", JObj [("$gt", JNum 18)])]) = Returned false
  /\ matchesFilter (JObj [("city", JStr "Paris")])
                   (JObj [("city", JObj [("$in", JArr [JStr "Paris";
                                                       JStr "Berlin"])])])
     = Returned true
  /\ matchesFilter (JObj [])
                   (JObj [("phone", JObj [("$exists", JBool true)])])
     = Returned false
  /\ matchesFilter (JObj [("email", JStr "a@gmail.com")])
                   (JObj [("email", JObj [("$regex", JStr "@gmail\.com$")])])
     = Returned true
  /\ matchesFilter (JObj [("address", JObj [("city", JStr "London")])])
                   (JObj [("address.city", JStr "London")])
     = Returned true.
Proof. repeat split; reflexivity. Qed.

Example insert_then_find :
  fst (find (JObj [("name", JStr "John")]) "users" store_with_john)
  = Returned [JObj [("name", JStr "John"); ("age", JNum 30);
                    ("_id", JStr "1700000000000-k3x9");
                    ("_table", JStr "users")]]
  /\ fst (find (JObj []) "orders" store_with_john) = Returned [].
Proof. split; vm_compute; reflexivity. Qed.

Example update_merges_or_replaces :
  updated_document (JObj [("age", JNum 31)]) merge_mode
    (JObj [("name", JStr "John"); ("age", JNum 30); ("_id", JStr "1")])
    (JStr "1")
  = JObj [("name", JStr "John"); ("age", JNum 31); ("_id", JStr "1")]
  /\ updated_document (JObj [("age", JNum 31)]) replace_mode
       (JObj [("name", JStr "John"); ("age", JNum 30); ("_id", JStr "1")])
       (JStr "1")
     = JObj [("age", JNum 31); ("_id", JStr "1")].
Proof. split; reflexivity. Qed.

Example upsert_inserts_the_merge :
  exists r w',
    update (JObj [("name", JStr "New")]) (JObj [("age", JNum 25)]) "users"
           {| upsert := true; replace := false |}
           (mkWorld fresh_store empty_chat)
    = (Returned r, w')
    /\ success r = true
    /\ Map_values (documentCache (db w'))
       = [JObj [("name", JStr "New"); ("age", JNum 25);
                ("_id", JStr "1700000000000-k3x9");
                ("_table", JStr "users")]].
Proof. eexists; eexists. vm_compute. repeat split; reflexivity. Qed.

(** With a retry budget below one, [retryOperation] throws [undefined],
    and the [catch] of [insert] raises on [error.message]. *)
Example insert_raises_without_attempts :
  fst (insert john "users"
         (mkWorld (set_initialized true
                     (new_TelegramDB
                        {| config_chatId := "-1001"; messagePrefix := None;
                           config_batchDelay := None;
                           config_maxRetries := Some (-1) |}))
                  empty_chat))
  = Threw (TypeError "Cannot read properties of undefined (reading 'message')").
Proof. vm_compute. reflexivity. Qed.

(** A store that cannot reach the chat raises from any method. *)
Example insert_raises_when_unreachable :
  fst (insert john "users"
         (mkWorld (new_TelegramDB default_config)
                  (mkChat [] 1 [] [] false 1700000000000)))
  = Threw (Some (mkError "Error"
                   ("Failed to initialize Telegram DB: "
                    ++ "FetchError: request to api.telegram.org failed"))).
Proof. vm_compute. reflexivity. Qed.

(* ===================================================================== *)
(** * More of the filter engine *)
(* ===================================================================== *)

Section FilterLaws.
Context {engine : RegExpEngine}.

Lemma matchesFilter_single (doc : value) (key : string) (v : value) :
  matchesFilter doc (JObj [(key, v)]) = entry_matches doc key v.
Proof.
  unfold matchesFilter. cbn [own_entries all_entries].
  now destruct (entry_matches doc key v) as [ [] | e ].
Qed.

Lemma all_entries_each (doc : value) (entries : list (string * value)) :
  all_entries doc entries = Returned true
  <-> Forall (fun kv => entry_matches doc (fst kv) (snd kv) = Returned true)
             entries.
Proof.
  induction entries as [ | [key v] entries IH ]; cbn [all_entries].
  - split; [ constructor | reflexivity ].
  - split.
    + destruct (entry_matches doc key v) as [ [] | e ] eqn:He; cbn [bindO];
        try discriminate.
      intros H. constructor; [ exact He | now apply IH ].
    + intros H. inversion H as [ | kv l Hkv Hrest ]; subst.
      cbn [fst snd] in Hkv. rewrite Hkv. cbn [bindO]. now apply IH.
Qed.

(** X1.  A filter is the conjunction of its fields: a document matches
    it exactly when it matches each filter made of one of the fields
    alone. *)
Theorem filter_is_conjunction (doc : value) (entries : list (string * value)) :
  matchesFilter doc (JObj entries) = Returned true
  <-> Forall (fun kv => matchesFilter doc (JObj [kv]) = Returned true) entries.
Proof.
  unfold matchesFilter at 1. cbn [own_entries]. rewrite all_entries_each.
  split; intros H; induction H as [ | [key v] l Hkv Hl IH ]; constructor;
    try assumption.
  - now rewrite matchesFilter_single.
  - now rewrite matchesFilter_single in Hkv.
Qed.

Lemma matchesOperators_single (docValue : value) (op : string) (v : value) :
  matchesOperators docValue (JObj [(op, v)]) = operator_holds docValue op v.
Proof.
  unfold matchesOperators. cbn [own_entries all_operators].
  now destruct (operator_holds docValue op v) as [ [] | e ].
Qed.

(** X2.  On numbers the operators of order are the order of the
    integers, and two of them in one operator object bound a range. *)
Theorem comparisons_on_numbers (n m lo hi : Z) :
  matchesOperators (JNum n) (JObj [("$gt", JNum m)]) = Returned (m <? n)
  /\ matchesOperators (JNum n) (JObj [("$gte", JNum m)]) = Returned (m <=? n)
  /\ matchesOperators (JNum n) (JObj [("$lt", JNum m)]) = Returned (n <? m)
  /\ matchesOperators (JNum n) (JObj [("$lte", JNum m)]) = Returned (n <=? m)
  /\ matchesOperators (JNum n) (JObj [("$gte", JNum lo); ("$lte", JNum hi)])
     = Returned ((lo <=? n) && (n <=? hi)).
Proof.
  rewrite !matchesOperators_single.
  unfold matchesOperators. cbn [own_entries all_operators].
  unfold operator_holds. cbn [String.eqb Ascii.eqb Bool.eqb].
  unfold js_gt, js_ge, js_lt, js_le, IsLessThan.
  cbn [ToPrimitive ToNumber bindO fst snd].
  rewrite <- !Z.leb_antisym.
  repeat split.
  destruct (lo <=? n); cbn [andb bindO]; [ | reflexivity ].
  now destruct (n <=? hi).
Qed.

Lemma entry_matches_operators (doc : value) (key : string)
      (ops : list (string * value)) :
  key <> "_id"%string ->
  entry_matches doc key (JObj ops)
  = matchesOperators (getNestedValue doc key) (JObj ops).
Proof.
  intros Hkey. unfold entry_matches.
  destruct (String.eqb_spec key "_id") as [ -> | _ ]; [ now elim Hkey | ].
  reflexivity.
Qed.

(** Comparing [undefined] with anything is false, once the other operand
    is converted. *)
Lemma compared_with_undefined (v : value) :
  js_gt JUndefined v = bindO (ToPrimitive v) (fun _ => Returned false)
  /\ js_ge JUndefined v = bindO (ToPrimitive v) (fun _ => Returned false)
  /\ js_lt JUndefined v = bindO (ToPrimitive v) (fun _ => Returned false)
  /\ js_le JUndefined v = bindO (ToPrimitive v) (fun _ => Returned false).
Proof.
  unfold js_gt, js_ge, js_lt, js_le, IsLessThan. cbn [ToPrimitive bindO].
  destruct (ToPrimitive v) as [ p | e ]; cbn [bindO fst snd ToNumber];
    [ | now repeat split ].
  destruct p; cbn [ToNumber]; repeat split;
    match goal with
    | |- context [match ?x with _ => _ end] => now destruct x
    end.
Qed.

(** X3.  A field the document has not satisfies none of the operators of
    order: the comparison is false once the operand is converted to a
    primitive, and raises what that conversion raises.  The field
    satisfies [$exists: false], and [$ne] of an operand that is not
    [undefined].  The field is read along a path of own properties. *)
Theorem missing_field (doc : value) (key op : string) (operand : value) :
  key <> "_id"%string ->
  own_path doc (split_dot key) = true ->
  getNestedValue doc key = JUndefined ->
  (comparison op = true ->
   matchesFilter doc (JObj [(key, JObj [(op, operand)])])
   = bindO (ToPrimitive operand) (fun _ => Returned false))
  /\ matchesFilter doc (JObj [(key, JObj [("$exists", JBool false)])])
     = Returned true
  /\ (operand <> JUndefined ->
      matchesFilter doc (JObj [(key, JObj [("$ne", operand)])])
      = Returned true).
Proof.
  intros Hkey _ Hmissing.
  rewrite !matchesFilter_single, !entry_matches_operators by exact Hkey.
  rewrite Hmissing, !matchesOperators_single.
  split; [ | split ].
  - unfold comparison. cbn [existsb]. rewrite orb_false_r. intros Hop.
    destruct (compared_with_undefined operand) as (Hgt & Hge & Hlt & Hle).
    repeat (apply orb_true_iff in Hop as [Hop | Hop]);
      apply String.eqb_eq in Hop; subst op; unfold operator_holds;
      cbn [String.eqb Ascii.eqb Bool.eqb]; assumption.
  - reflexivity.
  - intros Hoperand. unfold operator_holds.
    cbn [String.eqb Ascii.eqb Bool.eqb].
    destruct operand; try reflexivity. now elim Hoperand.
Qed.

(** X4.  [$exists] compares its operand with a boolean by [===]: an
    operand that is no boolean matches no document, and a field that is
    [null] counts as absent. *)
Theorem exists_operator (docValue operand : value) :
  ((forall b, operand <> JBool b) ->
   matchesOperators docValue (JObj [("$exists", operand)]) = Returned false)
  /\ (forall b,
        matchesOperators docValue (JObj [("$exists", JBool b)])
        = Returned (Bool.eqb b (present docValue)))
  /\ matchesOperators JNull (JObj [("$exists", JBool false)]) = Returned true.
Proof.
  rewrite matchesOperators_single. split; [ | split ].
  - intros Hb. unfold operator_holds. cbn [String.eqb Ascii.eqb Bool.eqb].
    destruct operand; try reflexivity. now elim (Hb b).
  - intros b. rewrite matchesOperators_single. reflexivity.
  - reflexivity.
Qed.

Lemma split_dot_field (field rest : string) :
  no_dot field = true ->
  split_dot (field ++ String "." rest) = field :: split_dot rest.
Proof.
  induction field as [ | c field IH ]; cbn [no_dot append split_dot].
  - reflexivity.
  - intros H. apply andb_true_iff in H as [Hc Hfield].
    apply negb_true_iff in Hc. rewrite Hc, IH by assumption. reflexivity.
Qed.

Lemma split_dot_no_dot (field : string) :
  no_dot field = true -> split_dot field = [field].
Proof.
  induction field as [ | c field IH ]; cbn [no_dot split_dot].
  - reflexivity.
  - intros H. apply andb_true_iff in H as [Hc Hfield].
    apply negb_true_iff in Hc. rewrite Hc, IH by assumption. reflexivity.
Qed.

Lemma descend_from_undefined (path : list string) :
  fold_left optional_get path JUndefined = JUndefined.
Proof. induction path as [ | key path IH ]; [ reflexivity | exact IH ]. Qed.

(** X5.  A dotted path descends one field for each of its segments, and
    gives [undefined], raising nothing, from the first segment that is
    missing on. *)
Theorem dotted_path_descends (doc : value) (field rest : string) :
  no_dot field = true ->
  getNestedValue doc field = optional_get doc field
  /\ getNestedValue doc (field ++ String "." rest)
     = getNestedValue (optional_get doc field) rest
  /\ (optional_get doc field = JUndefined ->
      getNestedValue doc (field ++ String "." rest) = JUndefined).
Proof.
  intros Hfield. unfold getNestedValue.
  rewrite split_dot_field, split_dot_no_dot by exact Hfield.
  cbn [fold_left]. repeat split.
  intros ->. apply descend_from_undefined.
Qed.

(** ** Values that have a primitive *)














End FilterLaws.

(* ===================================================================== *)
(** * More of deepMerge *)
(* ===================================================================== *)

(** What [deepMerge] makes of the field [sv] of the source. *)
Lemma merge_entries_field (target : value) (tprops pre post output
                           : list (string * value)) (key : string) (sv : value) :
  has_property post key = false ->
  lookup key (merge_entries target tprops (pre ++ (key, sv) :: post) output)
  = Some (if isObject sv && has_property tprops key
          then deepMerge (get_property target key) sv
          else sv).
Proof.
  intros Hpost. unfold merge_entries. rewrite fold_left_app.
  cbn [fold_left fst snd].
  match goal with
  | |- lookup key (fold_left ?f post ?out) = _ =>
      change (fold_left f post out) with (merge_entries target tprops post out)
  end.
  rewrite merge_entries_absent by assumption.
  destruct sv; cbn [isObject andb]; try apply lookup_set_same.
  destruct (has_property tprops key); cbn [negb]; apply lookup_set_same.
Qed.

Lemma lookup_split (key : string) (props : list (string * value)) (v : value) :
  distinct (map fst props) = true ->
  lookup key props = Some v ->
  exists pre post,
    props = pre ++ (key, v) :: post /\ has_property post key = false.
Proof.
  induction props as [ | [k x] props IH ]; cbn [map fst distinct lookup];
    [ discriminate | ].
  intros Hd Hl. apply andb_true_iff in Hd as [Hfresh Hd].
  destruct (String.eqb_spec k key) as [ -> | Hne ].
  - injection Hl as ->. exists [], props. split; [ reflexivity | ].
    apply negb_true_iff in Hfresh. unfold has_property.
    destruct (lookup key props) as [ y | ] eqn:Hy; [ | reflexivity ].
    exfalso. clear -Hfresh Hy.
    induction props as [ | [k0 v0] props IH ]; [ discriminate Hy | ].
    cbn in Hfresh, Hy. apply orb_false_iff in Hfresh as [Hk Hrest].
    rewrite String.eqb_sym, Hk in Hy. now apply IH.
  - destruct (IH Hd Hl) as (pre & post & -> & Hpost).
    now exists ((k, x) :: pre), post.
Qed.

(** X6.  The fields of a merged object, one by one: a field the patch
    has not keeps the value of the target; a field of the patch that is
    an object, met by a field of the target, is merged into it; any other
    field of the patch replaces the field of the target or is added.
    The patch and the objects in it have no field by a name that objects
    inherit (for such a name [key in target] holds without a field). *)
Theorem deepMerge_field (tprops sprops : list (string * value)) (key : string) :
  distinct (map fst sprops) = true ->
  plainly_named (JObj sprops) = true ->
  get_property (deepMerge (JObj tprops) (JObj sprops)) key
  = match lookup key sprops with
    | None => get_property (JObj tprops) key
    | Some sv =>
        if isObject sv && has_property tprops key
        then deepMerge (get_property (JObj tprops) key) sv
        else sv
    end.
Proof.
  intros Hd _. rewrite deepMerge_objects, !get_property_object.
  destruct (lookup key sprops) as [ sv | ] eqn:Hl.
  - destruct (lookup_split key sprops sv Hd Hl) as (pre & post & -> & Hpost).
    now rewrite merge_entries_field.
  - rewrite merge_entries_absent; [ reflexivity | ].
    unfold has_property. now rewrite Hl.
Qed.

(** X7.  [deepMerge] merges two plain objects only.  A field of the
    patch that is an object, met by a field of the target that is none (a
    number, a string, [null], an array), is merged with it all the same:
    the result is the copy of the own fields of that field of the target,
    empty for a number or [null], and nothing of the patch. *)
Theorem deepMerge_object_onto_scalar
        (tprops sprops sfields : list (string * value))
        (key : string) (tv : value) :
  distinct (map fst sprops) = true ->
  lookup key tprops = Some tv -> isObject tv = false ->
  lookup key sprops = Some (JObj sfields) ->
  deepMerge tv (JObj sfields) = JObj (own_entries tv)
  /\ get_property (deepMerge (JObj tprops) (JObj sprops)) key
     = JObj (own_entries tv).
Proof.
  intros Hd Ht Htv Hs.
  assert (Hcopy : deepMerge tv (JObj sfields) = JObj (own_entries tv))
    by (destruct tv; try discriminate Htv; reflexivity).
  split; [ exact Hcopy | ].
  rewrite deepMerge_objects, get_property_object.
  destruct (lookup_split key sprops _ Hd Hs) as (pre & post & -> & Hpost).
  rewrite merge_entries_field by assumption.
  cbn [isObject andb]. unfold has_property. rewrite Ht.
  now rewrite get_property_object, Ht.
Qed.

Lemma keys_set_property (k : string) (v : value)
      (props : list (string * value)) :
  map fst (set_property k v props)
  = if has_property props k then map fst props else map fst props ++ [k].
Proof.
  unfold has_property.
  induction props as [ | [k' v'] props IH ]; cbn [set_property lookup map fst].
  - reflexivity.
  - destruct (String.eqb_spec k' k) as [ -> | Hne ]; cbn [map fst];
      [ reflexivity | ].
    rewrite IH. now destruct (lookup k props).
Qed.

Lemma has_property_set (k k' : string) (v : value)
      (props : list (string * value)) :
  has_property (set_property k' v props) k
  = String.eqb k' k || has_property props k.
Proof.
  destruct (String.eqb_spec k' k) as [ -> | Hne ].
  - unfold has_property. now rewrite lookup_set_same.
  - rewrite has_property_set_other by congruence. reflexivity.
Qed.

Lemma keys_merge_entries (target : value) (tprops entries output
                          : list (string * value)) :
  distinct (map fst entries) = true ->
  map fst (merge_entries target tprops entries output)
  = map fst output
    ++ filter (fun k => negb (has_property output k)) (map fst entries).
Proof.
  unfold merge_entries. revert output.
  induction entries as [ | [k sv] entries IH ]; intros output Hd;
    cbn [fold_left map fst snd filter distinct] in *.
  - now rewrite List.app_nil_r.
  - apply andb_true_iff in Hd as [Hfresh Hd]. apply negb_true_iff in Hfresh.
    set (merged := match sv with
                   | JObj _ =>
                       if negb (has_property tprops k)
                       then set_property k sv output
                       else set_property k
                              (deepMerge (get_property target k) sv) output
                   | _ => set_property k sv output
                   end).
    assert (Hmerged : exists x, merged = set_property k x output).
    { subst merged. destruct sv; eauto.
      destruct (negb (has_property tprops k)); eauto. }
    destruct Hmerged as [x ->]. rewrite IH by exact Hd.
    rewrite keys_set_property.
    assert (Hrest :
      filter (fun k0 => negb (has_property (set_property k x output) k0))
             (map fst entries)
      = filter (fun k0 => negb (has_property output k0)) (map fst entries)).
    { apply filter_ext_in. intros k0 Hk0. rewrite has_property_set.
      destruct (String.eqb_spec k k0) as [ <- | _ ]; [ | reflexivity ].
      exfalso. assert (Hex : existsb (String.eqb k) (map fst entries) = true).
      { apply existsb_exists. exists k. split; [ exact Hk0 | ].
        apply String.eqb_refl. }
      congruence. }
    rewrite Hrest.
    destruct (has_property output k); cbn [negb]; [ reflexivity | ].
    now rewrite <- List.app_assoc.
Qed.

(** X8.  [deepMerge] drops no field of the target and keeps their order;
    the fields that are new in the patch follow, in the order of the
    patch.  No field of the target or of the patch is named by an array
    index (the language lists such names first), and none of the patch by
    a name that objects inherit. *)
Theorem deepMerge_keeps_fields (tprops sprops : list (string * value)) :
  distinct (map fst sprops) = true ->
  forallb no_index (map fst tprops ++ map fst sprops) = true ->
  forallb (fun k => negb (inherited k)) (map fst sprops) = true ->
  map fst (own_entries (deepMerge (JObj tprops) (JObj sprops)))
  = map fst tprops
    ++ filter (fun k => negb (has_property tprops k)) (map fst sprops).
Proof.
  intros Hd _ _. rewrite deepMerge_objects. cbn [own_entries].
  now apply keys_merge_entries.
Qed.

(* ===================================================================== *)
(** * What the store keeps *)
(* ===================================================================== *)

Lemma Map_set_entries (k v : value) (m : JsMap) (k' v' : value) :
  In (k', v') (Map_set k v m) -> In (k', v') m \/ (k' = k /\ v' = v).
Proof.
  induction m as [ | [k0 v0] m IH ]; cbn [Map_set].
  - intros [H | []]. injection H as <- <-. now right.
  - destruct (strict_equals k0 k) eqn:Hk.
    + apply strict_equals_eq in Hk. subst k0.
      intros [H | H]; [ injection H as <- <-; now right | left; now right ].
    + intros [H | H]; [ left; now left | ].
      destruct (IH H) as [Hin | Heq]; [ left; now right | now right ].
Qed.

Lemma distinct_keys_set (k v : value) (m : JsMap) :
  distinct_keys m = true -> distinct_keys (Map_set k v m) = true.
Proof.
  induction m as [ | [k0 v0] m IH ]; cbn [Map_set distinct_keys];
    [ reflexivity | ].
  intros Hd. apply andb_true_iff in Hd as [Hfresh Hd].
  destruct (strict_equals k0 k) eqn:Hk.
  - apply strict_equals_eq in Hk. subst k0. cbn [distinct_keys].
    now rewrite Hfresh, Hd.
  - cbn [distinct_keys]. rewrite IH by assumption. rewrite andb_true_r.
    apply negb_true_iff in Hfresh. apply negb_true_iff.
    destruct (existsb (fun kv => strict_equals (fst kv) k0) (Map_set k v m))
      eqn:Hex; [ | reflexivity ].
    apply existsb_exists in Hex as ([k' v'] & Hin & Hk'). cbn [fst] in Hk'.
    apply Map_set_entries in Hin as [Hin | [-> ->]].
    + assert (Hex : existsb (fun kv => strict_equals (fst kv) k0) m = true).
      { apply existsb_exists. now exists (k', v'). }
      congruence.
    + rewrite strict_equals_sym in Hk'. congruence.
Qed.

Lemma under_own_id_set (k v : value) (m : JsMap) :
  under_own_id m -> member v "_id" = Returned k ->
  under_own_id (Map_set k v m).
Proof.
  intros Hm Hv k' v' Hin.
  apply Map_set_entries in Hin as [Hin | [-> ->]]; [ now apply Hm | exact Hv ].
Qed.

Lemma under_own_id_delete (k : value) (m : JsMap) :
  under_own_id m -> under_own_id (Map_delete k m).
Proof. intros Hm k' v' Hin. apply Hm. now apply Map_delete_incl in Hin. Qed.

Lemma Map_from_distinct (iterable : value) (m : JsMap) :
  Map_from iterable = Returned m -> distinct_keys m = true.
Proof.
  destruct iterable as [ | | | | s | entries | ]; cbn [Map_from];
    try discriminate.
  - destruct s; [ | discriminate ]. intros H. now injection H as <-.
  - assert (Hfold : forall (acc : Outcome JsMap),
      (forall m0, acc = Returned m0 -> distinct_keys m0 = true) ->
      forall m1,
        fold_left
          (fun acc entry =>
             bindO acc (fun m =>
               match entry with
               | JArr _ | JObj _ =>
                   Returned (Map_set (get_property entry "0")
                                     (get_property entry "1") m)
               | _ => Threw (TypeError ("Iterator value " ++ primitive_text entry
                                        ++ " is not an entry object"))
               end))
          entries acc = Returned m1 ->
        distinct_keys m1 = true).
    { induction entries as [ | entry entries IH ]; intros acc Hacc m1;
        cbn [fold_left]; [ apply Hacc | ].
      apply IH. intros m0. destruct acc as [ m' | e ]; cbn [bindO];
        [ | discriminate ].
      specialize (Hacc m' eq_refl).
      destruct entry; try discriminate; intros H; injection H as <-;
        now apply distinct_keys_set. }
    apply Hfold. intros m0 H. now injection H as <-.
Qed.

Lemma deepMerge_is_object (target source : value) :
  exists props, deepMerge target source = JObj props.
Proof.
  destruct target, source; cbn [deepMerge]; eauto.
Qed.

Section StoreLaws.
Context {engine : RegExpEngine} {Chat : Type} {telegram : Telegram Chat}.
Implicit Types w : @World Chat.
Local Abbreviation M := (@M Chat).

(** ** The rules of [keeps_with] *)

Section Rules.
Variable I : TelegramDB -> Prop.

Lemma keeps_weaken {A : Type} (m : M A) (Q R : A -> Prop) :
  keeps_with I m Q -> (forall a, Q a -> R a) -> keeps_with I m R.
Proof.
  intros Hm HQ w o w' Hw Hrun. destruct (Hm w o w' Hw Hrun) as [H1 H2].
  split; [ exact H1 | ]. intros a Ha. now apply HQ, H2.
Qed.

Lemma keeps_ret {A : Type} (a : A) (Q : A -> Prop) :
  Q a -> keeps_with I (@ret Chat A a) Q.
Proof.
  intros Ha w o w' Hw Hrun. unfold ret in Hrun. injection Hrun as <- <-.
  split; [ exact Hw | ]. intros a' H. now injection H as <-.
Qed.

Lemma keeps_throw {A : Type} (e : thrown) (Q : A -> Prop) :
  keeps_with I (@throw Chat A e) Q.
Proof.
  intros w o w' Hw Hrun. unfold throw in Hrun. injection Hrun as <- <-.
  split; [ exact Hw | discriminate ].
Qed.

Lemma keeps_bind {A B : Type} (m : M A) (k : A -> M B)
      (Q : A -> Prop) (R : B -> Prop) :
  keeps_with I m Q -> (forall a, Q a -> keeps_with I (k a) R) ->
  keeps_with I (bind m k) R.
Proof.
  intros Hm Hk w o w' Hw Hrun. unfold bind in Hrun.
  destruct (m w) as [[a | e] w1] eqn:Hmw;
    destruct (Hm w _ w1 Hw Hmw) as [H1 HQ].
  - exact (Hk a (HQ a eq_refl) w1 o w' H1 Hrun).
  - injection Hrun as <- <-. split; [ exact H1 | discriminate ].
Qed.

Lemma keeps_then {A B : Type} (m : M A) (k : A -> M B) (R : B -> Prop) :
  keeps I m -> (forall a, keeps_with I (k a) R) ->
  keeps_with I (bind m k) R.
Proof. intros Hm Hk. apply (keeps_bind m k (fun _ => True)); auto. Qed.

Lemma keeps_try {A : Type} (body : M A) (handler : thrown -> M A)
      (Q : A -> Prop) :
  keeps_with I body Q -> (forall e, keeps_with I (handler e) Q) ->
  keeps_with I (try_ body handler) Q.
Proof.
  intros Hbody Hhandler w o w' Hw Hrun. unfold try_ in Hrun.
  destruct (body w) as [[a | e] w1] eqn:Hb;
    destruct (Hbody w _ w1 Hw Hb) as [H1 HQ].
  - injection Hrun as <- <-. now split.
  - exact (Hhandler e w1 o w' H1 Hrun).
Qed.

Lemma keeps_lift {A : Type} (o : Outcome A) :
  keeps_with I (@lift Chat A o) (fun a => o = Returned a).
Proof.
  intros w o' w' Hw Hrun. unfold lift in Hrun. injection Hrun as <- <-.
  split; [ exact Hw | ]. now intros a ->.
Qed.

Lemma keeps_this : keeps_with I (@this Chat) I.
Proof.
  intros w o w' Hw Hrun. unfold this in Hrun. injection Hrun as <- <-.
  split; [ exact Hw | ]. intros a H. now injection H as <-.
Qed.

Lemma keeps_call {A : Type} (request : Chat -> reply A * Chat) :
  keeps I (call request).
Proof.
  intros w o w' Hw Hrun. unfold call in Hrun.
  destruct (request (channel w)) as [[a | err] c]; injection Hrun as <- <-;
    now split.
Qed.

Lemma keeps_ask {A : Type} (request : Chat -> A * Chat) :
  keeps I (ask request).
Proof.
  intros w o w' Hw Hrun. unfold ask in Hrun.
  destruct (request (channel w)) as [a c]. injection Hrun as <- <-.
  now split.
Qed.

Lemma keeps_modify (f : TelegramDB -> TelegramDB) :
  (forall d, I d -> I (f d)) -> keeps I (@modify Chat f).
Proof.
  intros Hf w o w' Hw Hrun. unfold modify in Hrun. injection Hrun as <- <-.
  split; [ now apply Hf | auto ].
Qed.

Lemma keeps_retry_from {A : Type} (operation : M A) (n i : Z)
      (remaining : nat) (lastError : thrown) (Q : A -> Prop) :
  keeps_with I operation Q ->
  keeps_with I (retry_from operation n i remaining lastError) Q.
Proof.
  intros Hop. revert i lastError.
  induction remaining as [ | k IH ]; intros i lastError; cbn [retry_from].
  - apply keeps_throw.
  - apply keeps_try; [ exact Hop | ]. intros e.
    apply keeps_then; [ | intros _; apply IH ].
    destruct (i <? n - 1); now apply keeps_ret.
Qed.

Lemma keeps_retry {A : Type} (operation : M A) (n : Z) :
  keeps I operation -> keeps I (retryOperation operation n).
Proof. apply keeps_retry_from. Qed.

Lemma keeps_any {A : Type} (m : M A) (Q : A -> Prop) :
  keeps_with I m Q -> keeps I m.
Proof. intros Hm. apply (keeps_weaken m Q); auto. Qed.

Lemma keeps_lift_any {A : Type} (o : Outcome A) : keeps I (@lift Chat A o).
Proof. apply (keeps_any _ _ (keeps_lift o)). Qed.

Lemma keeps_failed (what : string) (e : thrown) :
  keeps I (@failed Chat what e).
Proof.
  unfold failed. apply keeps_then; [ | intros msg; now apply keeps_ret ].
  destruct e; [ now apply keeps_ret | apply keeps_throw ].
Qed.

Lemma keeps_generateId : keeps I (@generateId Chat telegram).
Proof.
  unfold generateId. apply keeps_then; [ apply keeps_ask | ]. intros now.
  apply keeps_then; [ apply keeps_ask | ]. intros token. now apply keeps_ret.
Qed.

Lemma keeps_reloadCacheFromIndex : keeps I (@reloadCacheFromIndex Chat).
Proof.
  intros w o w' Hw Hrun. rewrite reloadCacheFromIndex_idle in Hrun.
  injection Hrun as <- <-. now split.
Qed.

End Rules.

(** ** The methods that set no entry of the cache *)

Section Methods.
Variable I : TelegramDB -> Prop.
Hypothesis HI : stable I.

Lemma keeps_loadMessageIndex : keeps I (@loadMessageIndex Chat).
Proof.
  assert (Hclear : keeps I
            (bind (@modify Chat (set_messageIndex []))
                  (fun _ => modify (set_documentCache [])))).
  { apply keeps_then; [ | intros _ ]; apply keeps_modify;
      [ apply (stable_index_clear I HI) | apply (stable_cache_clear I HI) ]. }
  unfold loadMessageIndex. apply keeps_try; [ exact Hclear | ].
  intros _. exact Hclear.
Qed.

Lemma keeps_initialize : keeps I (@initialize Chat telegram).
Proof.
  unfold initialize. apply (keeps_bind _ _ _ _ _ (keeps_this _)).
  intros d Hd. destruct (initialized d); [ now apply keeps_ret | ].
  apply keeps_try; [ | intros e; apply keeps_throw ].
  apply keeps_then; [ apply keeps_call | intros _ ].
  apply keeps_then; [ apply keeps_call | intros _ ].
  apply keeps_then; [ apply keeps_loadMessageIndex | intros _ ].
  apply keeps_then; [ now apply keeps_ret | intros _ ].
  apply keeps_modify. apply (stable_initialized I HI).
Qed.

Lemma keeps_ensureInitialized : keeps I (@ensureInitialized Chat telegram).
Proof.
  unfold ensureInitialized. apply (keeps_bind _ _ _ _ _ (keeps_this _)).
  intros d Hd. destruct (negb (initialized d));
    [ apply keeps_initialize | now apply keeps_ret ].
Qed.

Lemma keeps_saveMessageIndex : keeps I (@saveMessageIndex Chat telegram).
Proof.
  unfold saveMessageIndex. apply keeps_try; [ | intros _; now apply keeps_ret ].
  apply (keeps_bind _ _ _ _ _ (keeps_this _)). intros d Hd.
  apply keeps_then; [ apply keeps_ask | intros now ].
  apply keeps_then.
  - destruct (truthy (indexMessageId d)); [ | now apply keeps_ret ].
    apply keeps_try; [ apply keeps_call | intros _; now apply keeps_ret ].
  - intros _. apply (keeps_bind _ _ _ _ _ (keeps_this _)). intros d1 Hd1.
    destruct (Map_size (messageIndex d1) >? 0); [ | now apply keeps_ret ].
    apply keeps_try; [ | intros _; now apply keeps_ret ].
    apply keeps_then; [ apply keeps_call | intros sent ].
    apply keeps_modify. apply (stable_indexMessageId I HI).
Qed.

Lemma keeps_send (text : string) (n : Z) :
  keeps I (retryOperation (call (sendMessage text)) n).
Proof. apply keeps_retry, keeps_call. Qed.

Lemma keeps_delete_old_message (id : value) :
  keeps I (delete_old_message id).
Proof.
  unfold delete_old_message. apply (keeps_bind _ _ _ _ _ (keeps_this _)).
  intros d Hd. destruct (truthy (Map_get (messageIndex d) id));
    [ | now apply keeps_ret ].
  apply keeps_try; [ apply keeps_call | intros _; now apply keeps_ret ].
Qed.

Lemma keeps_remove_locally (id : value) : keeps I (@remove_locally Chat id).
Proof.
  unfold remove_locally. apply keeps_then; [ | intros _ ]; apply keeps_modify;
    [ apply (stable_index_delete I HI) | apply (stable_cache_delete I HI) ].
Qed.

Lemma keeps_delete_one (doc : value) : keeps I (delete_one doc).
Proof.
  unfold delete_one. apply keeps_then; [ apply keeps_lift_any | intros id ].
  apply (keeps_bind _ _ _ _ _ (keeps_this _)). intros d Hd.
  destruct (truthy (Map_get (messageIndex d) id)); [ | now apply keeps_ret ].
  apply keeps_try.
  - apply keeps_then; [ apply keeps_call | intros _ ].
    apply keeps_then; [ apply keeps_remove_locally | intros _ ].
    now apply keeps_ret.
  - intros _. apply keeps_then; [ apply keeps_remove_locally | intros _ ].
    now apply keeps_ret.
Qed.

Lemma keeps_delete_each (documents : list value) (deletedCount : nat) :
  keeps I (delete_each documents deletedCount).
Proof.
  revert deletedCount. induction documents as [ | doc rest IH ];
    intros deletedCount; cbn [delete_each]; [ now apply keeps_ret | ].
  apply keeps_then; [ apply keeps_delete_one | intros deleted; apply IH ].
Qed.

(** The documents [find] answers were in the cache: they have every
    property [P] that the values of the cache have. *)
Section Found.
Variable P : value -> Prop.
Hypothesis HP :
  forall d doc, I d -> In doc (Map_values (documentCache d)) -> P doc.

Lemma keeps_find (filter : value) (table : string) :
  keeps_with I (find filter table) (Forall P).
Proof.
  assert (Hscan : forall d query,
    I d ->
    keeps_with I (@lift Chat _ (select (Map_values (documentCache d)) query))
               (Forall P)).
  { intros d query Hd. apply (keeps_weaken _ _ _ _ (keeps_lift _ _)).
    intros docs Hdocs. apply select_incl in Hdocs. apply Forall_forall.
    intros doc Hdoc. apply (HP d); [ exact Hd | now apply Hdocs ]. }
  unfold find. apply keeps_then; [ apply keeps_ensureInitialized | intros _ ].
  apply keeps_try.
  - apply (keeps_bind _ _ _ _ _ (keeps_this _)). intros d Hd.
    apply (keeps_bind _ _ _ _ _ (Hscan d _ Hd)). intros documents Hdocs.
    apply (keeps_bind _ _ _ _ _ (keeps_this _)). intros d1 Hd1.
    destruct (Map_size (documentCache d1) =? 0); [ | now apply keeps_ret ].
    apply keeps_then; [ apply keeps_reloadCacheFromIndex | intros _ ].
    apply (keeps_bind _ _ _ _ _ (keeps_this _)). intros d2 Hd2.
    apply (keeps_bind _ _ _ _ _ (Hscan d2 _ Hd2)). intros more Hmore.
    apply keeps_ret. apply Forall_app. now split.
  - intros e. apply keeps_then; [ | intros msg; apply keeps_throw ].
    destruct e; [ now apply keeps_ret | apply keeps_throw ].
Qed.

Lemma keeps_find_matching (filter : value) (table : string) :
  keeps_with I (find_matching filter table) (Forall P).
Proof.
  unfold find_matching.
  apply (keeps_bind _ _ _ _ _ (keeps_find _ _)). intros docs Hdocs.
  apply (keeps_weaken _ _ _ _ (keeps_lift _ _)).
  intros found Hfound. apply select_incl in Hfound.
  apply Forall_forall. intros doc Hdoc.
  rewrite Forall_forall in Hdocs. now apply Hdocs, Hfound.
Qed.

End Found.

Lemma keeps_find_any (filter : value) (table : string) :
  keeps I (find filter table).
Proof.
  apply (keeps_any _ _ (Forall (fun _ => True))). now apply keeps_find.
Qed.

Lemma keeps_delete (filter : value) (table : string) :
  keeps I (delete filter table).
Proof.
  unfold delete. apply keeps_then; [ apply keeps_ensureInitialized | intros _ ].
  apply keeps_try; [ | intros e; apply keeps_failed ].
  apply keeps_then.
  { apply (keeps_any _ _ (Forall (fun _ => True))).
    now apply keeps_find_matching. }
  intros documents. unfold delete_documents.
  destruct documents as [ | doc rest ]; [ now apply keeps_ret | ].
  apply keeps_then; [ apply keeps_delete_each | intros deletedCount ].
  apply keeps_then; [ apply keeps_saveMessageIndex | intros _ ].
  now apply keeps_ret.
Qed.

Lemma keeps_count (filter : value) (table : string) :
  keeps I (count filter table).
Proof.
  unfold count. apply keeps_then; [ apply keeps_find_any | intros documents ].
  apply keeps_then; [ apply keeps_lift_any | intros matching ].
  now apply keeps_ret.
Qed.

Lemma keeps_findOne (filter : value) (table : string) :
  keeps I (findOne filter table).
Proof.
  unfold findOne. apply keeps_then; [ apply keeps_find_any | intros results ].
  now apply keeps_ret.
Qed.

Lemma keeps_getTables : keeps I (@getTables Chat telegram).
Proof.
  unfold getTables.
  apply keeps_then; [ apply keeps_ensureInitialized | intros _ ].
  apply (keeps_bind _ _ _ _ _ (keeps_this _)). intros d Hd.
  apply keeps_lift_any.
Qed.

Lemma keeps_getStats (table : option string) : keeps I (getStats table).
Proof.
  assert (Hvalues : keeps I
            (bind (@this Chat) (fun d => ret (Map_values (documentCache d))))).
  { apply (keeps_bind _ _ _ _ _ (keeps_this _)). intros d Hd.
    now apply keeps_ret. }
  unfold getStats.
  apply keeps_then; [ apply keeps_ensureInitialized | intros _ ].
  apply keeps_then.
  { destruct table as [ t | ]; [ | exact Hvalues ].
    destruct (negb (String.eqb t EmptyString));
      [ apply keeps_find_any | exact Hvalues ]. }
  intros documents. apply keeps_then.
  { unfold getAllMessages. apply (keeps_bind _ _ _ _ _ (keeps_this _)).
    intros d Hd. now apply keeps_ret. }
  intros messages.
  apply keeps_then; [ apply keeps_lift_any | intros oldestDoc ].
  apply keeps_then; [ apply keeps_lift_any | intros newestDoc ].
  now apply keeps_ret.
Qed.

Lemma keeps_close : keeps I (@close Chat).
Proof. unfold close. apply keeps_modify. apply (stable_initialized I HI). Qed.

(** [insert] and the loop of [update], given that the entry they set in
    the cache keeps the property. *)
Section Setting.
Variable fits : value -> Prop.
Hypothesis Hset :
  forall d v, I d -> fits v ->
    I (set_documentCache (Map_set (get_property v "_id") v (documentCache d)) d).

Lemma keeps_insert (doc : value) (table : string) :
  (forall id0 id,
      member doc "_id" = Returned id0 ->
      (truthy id0 = true -> id = id0) -> (truthy id0 = false -> primitive id = true) ->
      fits (new_document doc id table)) ->
  keeps I (insert doc table).
Proof.
  intros Hfits. unfold insert.
  apply keeps_then; [ apply keeps_ensureInitialized | intros _ ].
  apply keeps_try; [ | intros e; apply keeps_failed ].
  apply (keeps_bind _ _ _ _ _ (keeps_lift _ _)). intros id0 Hid0.
  apply keeps_bind
    with (Q := fun id => (truthy id0 = true -> id = id0)
                         /\ (truthy id0 = false -> primitive id = true)).
  { destruct (truthy id0).
    - apply keeps_ret. split; [ reflexivity | discriminate ].
    - intros w o w' Hw Hrun. split.
      + exact (proj1 (keeps_generateId I w o w' Hw Hrun)).
      + intros id ->. destruct (generateId_effect w) as (now & token & c & Hgen).
        rewrite Hgen in Hrun. injection Hrun as <- _.
        split; [ discriminate | intros _; apply String.eqb_refl ]. }
  intros id [Hgiven Hgenerated].
  apply (keeps_bind _ _ _ _ _ (keeps_this _)). intros d Hd.
  apply keeps_then; [ apply keeps_send | intros sent ].
  apply keeps_then;
    [ apply keeps_modify; apply (stable_index_set I HI) | intros _ ].
  apply keeps_then; [ | intros _ ].
  { apply keeps_modify. intros d1 Hd1. apply Hset; [ exact Hd1 | ].
    now apply (Hfits id0). }
  apply keeps_then; [ apply keeps_saveMessageIndex | intros _ ].
  now apply keeps_ret.
Qed.

Lemma keeps_insert_each (docs : list value) (table : string) (pause : Z)
      (stop : bool) (results : list OperationResult) :
  (forall doc, In doc docs -> keeps I (insert doc table)) ->
  keeps I (insert_each docs table pause stop results).
Proof.
  revert results. induction docs as [ | doc rest IH ]; intros results Hdocs;
    cbn [insert_each]; [ now apply keeps_ret | ].
  apply keeps_then; [ apply Hdocs; now left | intros result ].
  destruct (negb (success result) && stop); [ now apply keeps_ret | ].
  apply keeps_then; [ | intros _; apply IH; intros d Hd; apply Hdocs; now right ].
  destruct (pause >? 0); now apply keeps_ret.
Qed.

Lemma keeps_insertMany (docs : list value) (table : string)
      (options : option BatchOptions) :
  (forall doc, In doc docs -> keeps I (insert doc table)) ->
  keeps I (insertMany docs table options).
Proof.
  intros Hdocs. unfold insertMany.
  apply keeps_then; [ apply keeps_ensureInitialized | intros _ ].
  apply (keeps_bind _ _ _ _ _ (keeps_this _)). intros d Hd.
  now apply keeps_insert_each.
Qed.

Lemma keeps_update_one (patch : value) (options : UpdateOptions) (doc : value) :
  (forall id, member doc "_id" = Returned id ->
              fits (updated_document patch options doc id)) ->
  keeps I (update_one patch options doc).
Proof.
  intros Hfits. unfold update_one.
  apply (keeps_bind _ _ _ _ _ (keeps_lift _ _)). intros id Hid.
  apply keeps_then; [ apply keeps_delete_old_message | intros _ ].
  apply (keeps_bind _ _ _ _ _ (keeps_this _)). intros d Hd.
  apply keeps_then; [ apply keeps_send | intros sent ].
  apply keeps_then;
    [ apply keeps_modify; apply (stable_index_set I HI) | intros _ ].
  apply keeps_then; [ | intros _; now apply keeps_ret ].
  apply keeps_modify. intros d1 Hd1. apply Hset; [ exact Hd1 | ].
  now apply Hfits.
Qed.

Lemma keeps_update_each (patch : value) (options : UpdateOptions)
      (documents updatedDocs : list value) :
  (forall doc id, In doc documents -> member doc "_id" = Returned id ->
                  fits (updated_document patch options doc id)) ->
  keeps I (update_each patch options documents updatedDocs).
Proof.
  revert updatedDocs. induction documents as [ | doc rest IH ];
    intros updatedDocs Hfits; cbn [update_each]; [ now apply keeps_ret | ].
  apply keeps_then.
  - apply keeps_update_one. intros id. apply Hfits. now left.
  - intros updated. apply IH. intros d id Hd. apply Hfits. now right.
Qed.

Variable P : value -> Prop.
Hypothesis HP :
  forall d doc, I d -> In doc (Map_values (documentCache d)) -> P doc.

Lemma keeps_update (filter patch : value) (table : string)
      (options : UpdateOptions) :
  (forall doc id, P doc -> member doc "_id" = Returned id ->
                  fits (updated_document patch options doc id)) ->
  (upsert options = true -> keeps I (insert (deepMerge filter patch) table)) ->
  keeps I (update filter patch table options).
Proof.
  intros Hfits Hupsert. unfold update.
  apply keeps_then; [ apply keeps_ensureInitialized | intros _ ].
  apply keeps_try; [ | intros e; apply keeps_failed ].
  apply (keeps_bind _ _ _ _ _ (keeps_find_matching P HP _ _)).
  intros documents Hdocs. rewrite Forall_forall in Hdocs.
  unfold update_documents. destruct documents as [ | doc rest ].
  - destruct (upsert options); [ now apply Hupsert | now apply keeps_ret ].
  - apply keeps_then; [ | intros updatedDocs ].
    { apply keeps_update_each. intros d id Hd. apply Hfits. now apply Hdocs. }
    apply keeps_then; [ apply keeps_saveMessageIndex | intros _ ].
    now apply keeps_ret.
Qed.

End Setting.

End Methods.

(** ** The methods keep a sound store sound *)

Section Sound.
Variable d0 : TelegramDB.

Lemma sound_set_messageIndex (m : JsMap) (d : TelegramDB) :
  distinct_keys m = true -> sound d0 d -> sound d0 (set_messageIndex m d).
Proof.
  intros Hm (H1 & H2 & H3 & H4 & H5 & H6 & H7). now repeat split.
Qed.

Lemma sound_set_documentCache (m : JsMap) (d : TelegramDB) :
  under_own_id m -> distinct_keys m = true ->
  sound d0 d -> sound d0 (set_documentCache m d).
Proof.
  intros Hown Hm (H1 & H2 & H3 & H4 & H5 & H6 & H7). now repeat split.
Qed.

Lemma sound_cache_set (d : TelegramDB) (v : value) :
  sound d0 d -> member v "_id" = Returned (get_property v "_id") ->
  sound d0 (set_documentCache
              (Map_set (get_property v "_id") v (documentCache d)) d).
Proof.
  intros H Hv. apply sound_set_documentCache; [ | | exact H ].
  - apply under_own_id_set; [ apply H | exact Hv ].
  - apply distinct_keys_set, H.
Qed.

Lemma sound_stable : stable (sound d0).
Proof.
  split.
  - intros b d H. exact H.
  - intros v d H. exact H.
  - intros k v d H. apply sound_set_messageIndex; [ | exact H ].
    apply distinct_keys_set, H.
  - intros k d H. apply sound_set_messageIndex; [ | exact H ].
    apply distinct_keys_delete, H.
  - intros d H. now apply sound_set_messageIndex.
  - intros k d H. apply sound_set_documentCache; [ | | exact H ].
    + apply under_own_id_delete, H.
    + apply distinct_keys_delete, H.
  - intros d H.
    apply sound_set_documentCache; [ intros k doc [] | reflexivity | exact H ].
Qed.

Lemma updated_document_member (patch : value) (options : UpdateOptions)
      (doc id : value) :
  member (updated_document patch options doc id) "_id"
  = Returned (get_property (updated_document patch options doc id) "_id").
Proof.
  unfold updated_document. destruct (replace options); [ reflexivity | ].
  now destruct (deepMerge_is_object doc
                  (JObj (set_property "_id" id (own_entries patch))))
    as [props ->].
Qed.

Lemma sound_insert (doc : value) (table : string) :
  keeps (sound d0) (insert doc table).
Proof.
  apply (keeps_insert _ sound_stable
           (fun v => member v "_id" = Returned (get_property v "_id"))
           sound_cache_set).
  reflexivity.
Qed.

Lemma sound_update (filter patch : value) (table : string)
      (options : UpdateOptions) :
  keeps (sound d0) (update filter patch table options).
Proof.
  apply (keeps_update _ sound_stable
           (fun v => member v "_id" = Returned (get_property v "_id"))
           sound_cache_set (fun _ => True)).
  - auto.
  - intros doc id _ _. apply updated_document_member.
  - intros _. apply sound_insert.
Qed.

Lemma sound_cache_each (docs : list value) :
  keeps (sound d0) (@cache_each Chat docs).
Proof.
  induction docs as [ | doc rest IH ]; cbn [cache_each];
    [ now apply keeps_ret | ].
  apply (keeps_bind _ _ _ _ _ (keeps_lift _ _)). intros id Hid.
  apply keeps_then; [ | intros _; exact IH ].
  apply keeps_modify. intros d Hd.
  destruct (member_get_property doc id "_id" Hid) as [_ Hget].
  rewrite <- Hget. apply sound_cache_set; [ exact Hd | ]. now rewrite Hget.
Qed.

Lemma sound_onMessage (ctx : Message) :
  keeps (sound d0) (@onMessage Chat ctx).
Proof.
  unfold onMessage. destruct (text ctx) as [ text | ]; [ | now apply keeps_ret ].
  destruct (String.eqb text EmptyString); [ now apply keeps_ret | ].
  apply (keeps_bind _ _ _ _ _ (keeps_this _)). intros d Hd.
  destruct (negb (String.eqb (chat ctx) (chatId d))); [ now apply keeps_ret | ].
  destruct (startsWith text (prefix d)
            && negb (startsWith text (prefix d ++ "INDEX:"))).
  - apply keeps_then; [ apply keeps_lift_any | intros doc ].
    destruct (truthy doc); [ | now apply keeps_ret ].
    apply (keeps_bind _ _ _ _ _ (keeps_lift _ _)). intros id Hid.
    destruct (truthy id); [ | now apply keeps_ret ].
    apply keeps_then; [ | intros _ ]; apply keeps_modify.
    + apply (stable_index_set _ sound_stable).
    + intros d1 Hd1. destruct (member_get_property doc id "_id" Hid) as [_ Hget].
      rewrite <- Hget. apply sound_cache_set; [ exact Hd1 | ].
      now rewrite Hget.
  - destruct (startsWith text (prefix d ++ "INDEX:")); [ | now apply keeps_ret ].
    apply keeps_then; [ apply keeps_lift_any | intros indexData ].
    match goal with
    | |- context [if ?c then _ else _] => destruct c
    end; [ | now apply keeps_ret ].
    apply (keeps_bind _ _ _ _ _ (keeps_lift _ _)). intros index Hindex.
    apply keeps_then.
    { apply keeps_modify. intros d1. apply sound_set_messageIndex.
      exact (Map_from_distinct _ _ Hindex). }
    intros _. apply keeps_then.
    { destruct (get_property indexData "documents");
        try apply keeps_throw. apply sound_cache_each. }
    intros _. apply keeps_modify. apply (stable_indexMessageId _ sound_stable).
Qed.

Lemma sound_perform (op : operation) w :
  sound d0 (db w) -> sound d0 (db (perform op w)).
Proof.
  intros Hw.
  assert (Hkeeps : forall (A : Type) (m : M A),
            keeps (sound d0) m -> sound d0 (db (after (m w)))).
  { intros A m Hm. destruct (m w) as [o w'] eqn:Hrun.
    exact (proj1 (Hm w o w' Hw Hrun)). }
  pose proof sound_stable as Hstable.
  destruct op; cbn [perform]; apply Hkeeps.
  - now apply keeps_initialize.
  - now apply keeps_close.
  - apply sound_insert.
  - apply keeps_insertMany; [ exact Hstable | ]. intros d _. apply sound_insert.
  - now apply keeps_find_any.
  - now apply keeps_findOne.
  - now apply keeps_findOne.
  - now apply keeps_count.
  - apply sound_update.
  - apply sound_update.
  - now apply keeps_delete.
  - now apply keeps_delete.
  - now apply keeps_delete.
  - now apply keeps_delete.
  - now apply keeps_getTables.
  - now apply keeps_getStats.
  - apply sound_onMessage.
Qed.

Lemma sound_run_all (ops : list operation) w :
  sound d0 (db w) -> sound d0 (db (run_all ops w)).
Proof.
  revert w. induction ops as [ | op ops IH ]; intros w Hw; [ exact Hw | ].
  cbn [run_all fold_left]. apply IH. now apply sound_perform.
Qed.

End Sound.

Lemma sound_new_TelegramDB (config : TelegramDBConfig) :
  sound (new_TelegramDB config) (new_TelegramDB config).
Proof. repeat split. intros k doc []. Qed.

End StoreLaws.

Section Reachable.
Context {engine : RegExpEngine} {Chat : Type} {telegram : Telegram Chat}.
Implicit Types w : @World Chat.

Lemma under_own_id_not_nullish (m : JsMap) (doc : value) :
  under_own_id m -> In doc (Map_values m) -> nullish doc = false.
Proof.
  intros Hm Hin. unfold Map_values in Hin.
  apply in_map_iff in Hin as ([k v] & Hv & Hkv). cbn [snd] in Hv. subst v.
  specialize (Hm k doc Hkv). now destruct doc.
Qed.

(** X9.  Whatever is done to a store made by the constructor (calls of
    its methods that return or raise, messages that come to its
    listener), its configuration stays what the constructor made it,
    every value of its cache is cached under its own [_id] and is neither
    [null] nor [undefined], and neither the cache nor the index has two
    entries of one key. *)
Theorem used_store_is_sound
        (config : TelegramDBConfig) (c : Chat) (ops : list operation) :
  let d0 := new_TelegramDB config in
  let d := db (used_store config c ops) in
  (chatId d = chatId d0 /\ prefix d = prefix d0
   /\ batchDelay d = batchDelay d0 /\ maxRetries d = maxRetries d0)
  /\ (forall k doc,
        In (k, doc) (documentCache d) ->
        member doc "_id" = Returned k /\ nullish doc = false)
  /\ distinct_keys (documentCache d) = true
  /\ distinct_keys (messageIndex d) = true.
Proof.
  intros d0 d.
  assert (Hsound : sound d0 d).
  { subst d. unfold used_store. apply sound_run_all. cbn [db].
    apply sound_new_TelegramDB. }
  destruct Hsound as (H1 & H2 & H3 & H4 & H5 & H6 & H7).
  repeat split; try assumption.
  - now apply H5.
  - apply (under_own_id_not_nullish _ doc H5). unfold Map_values.
    apply in_map_iff. now exists (k, doc).
Qed.

Lemma select_is_filter (docs : list value) (query : value) :
  (forall doc, In doc docs -> exists b, matchesFilter doc query = Returned b) ->
  select docs query = Returned (filter (matches query) docs).
Proof.
  induction docs as [ | doc docs IH ]; intros Hall; [ reflexivity | ].
  cbn [select filter]. unfold matches at 1.
  destruct (Hall doc (or_introl eq_refl)) as [b ->]. cbn [bindO].
  rewrite IH by (intros d Hd; apply Hall; now right). reflexivity.
Qed.





End Reachable.

(* ===================================================================== *)
(** * Identifiers: findById, insert and update *)
(* ===================================================================== *)

Lemma Map_get_set_same (m : JsMap) (id v : value) :
  primitive id = true -> Map_get (Map_set id v m) id = v.
Proof.
  intros Hid. induction m as [ | [k v'] m IH ]; cbn [Map_set Map_get].
  - unfold primitive in Hid. now rewrite Hid.
  - destruct (strict_equals k id) eqn:Hk; cbn [Map_get]; now rewrite Hk.
Qed.

Lemma Map_get_set_other (m : JsMap) (id id' v : value) :
  strict_equals id' id = false ->
  Map_get (Map_set id' v m) id = Map_get m id.
Proof.
  intros Hne. induction m as [ | [k v'] m IH ]; cbn [Map_set Map_get].
  - now rewrite Hne.
  - destruct (strict_equals k id') eqn:Hk; cbn [Map_get].
    + apply strict_equals_eq in Hk. subst k. now rewrite Hne.
    + now rewrite IH.
Qed.

Lemma keyed_by_id_set (k v : value) (m : JsMap) :
  primitive k = true -> member v "_id" = Returned k ->
  keyed_by_id m = true -> keyed_by_id (Map_set k v m) = true.
Proof.
  intros Hk Hv. unfold keyed_by_id. rewrite !forallb_forall.
  intros Hm [k' v'] Hin. apply Map_set_entries in Hin as [Hin | [-> ->]].
  - now apply Hm.
  - cbn [fst snd]. now rewrite Hv.
Qed.

Lemma cache_well_formed_set (k v : value) (m : JsMap) :
  primitive k = true -> member v "_id" = Returned k ->
  cache_well_formed m = true -> cache_well_formed (Map_set k v m) = true.
Proof.
  unfold cache_well_formed. intros Hk Hv H.
  apply andb_true_iff in H as [Hd Hkeyed].
  now rewrite distinct_keys_set, keyed_by_id_set.
Qed.

Lemma new_document_id (doc id : value) (table : string) :
  get_property (new_document doc id table) "_id" = id
  /\ get_property (new_document doc id table) "_table" = JStr table
  /\ member (new_document doc id table) "_id" = Returned id.
Proof.
  unfold new_document, member. rewrite !get_property_object.
  rewrite lookup_set_other by discriminate.
  now rewrite !lookup_set_same.
Qed.

Section Identifiers.
Context {engine : RegExpEngine} {Chat : Type} {telegram : Telegram Chat}.
Implicit Types w : @World Chat.

(** The query of [findById], decided on a value that has an [_id]. *)
Lemma matchesFilter_by_id (doc k id : value) (table : string) :
  member doc "_id" = Returned k ->
  matchesFilter doc (with_table (JObj [("_id", id)]) table)
  = Returned (strict_equals k id
              && strict_equals (optional_get doc "_table") (JStr table)).
Proof.
  intros Hk. unfold matchesFilter, with_table.
  cbn [own_entries set_property String.eqb Ascii.eqb Bool.eqb all_entries].
  rewrite entry_matches_id, Hk. cbn [bindO].
  destruct (strict_equals k id); cbn [andb]; [ | reflexivity ].
  unfold entry_matches, getNestedValue.
  cbn [String.eqb Ascii.eqb Bool.eqb bindO isObject split_dot fold_left].
  now destruct (strict_equals (optional_get doc "_table") (JStr table)).
Qed.

Lemma select_by_id (m : JsMap) (id : value) (table : string) :
  cache_well_formed m = true ->
  select (Map_values m) (with_table (JObj [("_id", id)]) table)
  = Returned
      (if strict_equals (optional_get (Map_get m id) "_table") (JStr table)
       then [Map_get m id] else []).
Proof.
  unfold cache_well_formed.
  induction m as [ | [k doc] m IH ]; intros Hwf; [ reflexivity | ].
  cbn [distinct_keys keyed_by_id forallb fst snd] in Hwf.
  apply andb_true_iff in Hwf as [Hd Hkeyed].
  apply andb_true_iff in Hd as [Hfresh Hd].
  apply andb_true_iff in Hkeyed as [Hdoc Hkeyed].
  apply negb_true_iff in Hfresh.
  destruct (member doc "_id") as [ k' | e ] eqn:Hk'; [ | discriminate Hdoc ].
  pose proof (strict_equals_eq _ _ Hdoc) as <-.
  cbn [Map_values map snd select]. fold (Map_values m).
  rewrite (matchesFilter_by_id doc k id table Hk'). cbn [bindO].
  rewrite IH by (unfold keyed_by_id; now rewrite Hd, Hkeyed).
  cbn [bindO Map_get].
  destruct (strict_equals k id) eqn:Hid; cbn [andb]; [ | reflexivity ].
  apply strict_equals_eq in Hid. subst id.
  rewrite (Map_get_absent m k Hfresh). cbn.
  now destruct (strict_equals (optional_get doc "_table") (JStr table)).
Qed.

(** On an initialized store whose cache is well formed, [findById] is
    the lookup of the cache. *)
Lemma findById_cached w (id : value) (table : string) :
  initialized (db w) = true ->
  cache_well_formed (documentCache (db w)) = true ->
  findById id table w = (Returned (cached_in w id table), w).
Proof.
  intros Hinit Hwf. unfold findById.
  rewrite (findOne_ready w _ table Hinit). unfold found_in, cached_in.
  rewrite (select_by_id _ id table Hwf). cbn [bindO].
  now destruct (strict_equals
                  (optional_get (Map_get (documentCache (db w)) id) "_table")
                  (JStr table)).
Qed.

End Identifiers.

Section InsertLaws.
Context {engine : RegExpEngine} {Chat : Type} {telegram : Telegram Chat}.
Implicit Types w : @World Chat.

Lemma failed_fails (what : string) (e : thrown) w (r : OperationResult) w' :
  failed what e w = (Returned r, w') -> success r = false.
Proof.
  unfold failed, bind, message_of, ret, throw.
  destruct e as [ err | ]; intros H; [ | discriminate H ].
  now injection H as <- _.
Qed.

(** What a successful [insert] leaves in the store. *)
Lemma insert_effect w (doc : value) (table : string)
      (r : OperationResult) w' :
  initialized (db w) = true ->
  insert doc table w = (Returned r, w') -> success r = true ->
  exists id0 id sent,
    member doc "_id" = Returned id0
    /\ (if truthy id0 then id = id0
        else exists now token,
               id = JStr (JSON.number_to_string now ++ "-" ++ token))
    /\ r = {| success := true;
              message := Some "Document inserted successfully";
              data := JObj (set_property "_messageId" (JNum sent)
                              (own_entries (new_document doc id table)));
              error := None |}
    /\ documentCache (db w')
       = Map_set id (new_document doc id table) (documentCache (db w))
    /\ messageIndex (db w') = Map_set id (JNum sent) (messageIndex (db w))
    /\ initialized (db w') = true.
Proof.
  intros Hinit Hrun Hsuccess. unfold insert, bind at 1 in Hrun.
  rewrite (ensureInitialized_ready w Hinit) in Hrun. unfold try_ in Hrun.
  match type of Hrun with
  | (let (_, _) := ?body w in _) = _ =>
      destruct (body w) as [[r0 | e] w1] eqn:Hbody
  end.
  2:{ apply failed_fails in Hrun. congruence. }
  injection Hrun as <- <-.
  unfold bind at 1, lift in Hbody.
  destruct (member doc "_id") as [ id0 | e ] eqn:Hid0; [ | discriminate Hbody ].
  assert (Hid : exists id c,
    (if truthy id0 then ret id0 else generateId) w
    = (Returned id, mkWorld (db w) c)
    /\ (if truthy id0 then id = id0
        else exists now token,
               id = JStr (JSON.number_to_string now ++ "-" ++ token))).
  { destruct (truthy id0).
    - exists id0, (channel w). now rewrite world_eta.
    - destruct (generateId_effect w) as (now & token & c & Hgen).
      exists (JStr (JSON.number_to_string now ++ "-" ++ token)), c.
      split; [ exact Hgen | now exists now, token ]. }
  destruct Hid as (id & c & Hgen & Hid).
  unfold bind at 1 in Hbody. rewrite Hgen in Hbody.
  unfold bind at 1, this in Hbody. cbn [db] in Hbody.
  unfold bind at 1 in Hbody.
  match type of Hbody with
  | (let (_, _) := ?send ?w0 in _) = _ =>
      destruct (send w0) as [[sent | e] w2] eqn:Hsend
  end; [ | discriminate Hbody ].
  unfold retryOperation in Hsend. apply retry_send_keeps_db in Hsend.
  cbn [db] in Hsend.
  unfold bind at 1, modify at 1 in Hbody.
  unfold bind at 1, modify at 1 in Hbody. cbn [db channel] in Hbody.
  unfold bind at 1 in Hbody.
  match type of Hbody with
  | (let (_, _) := saveMessageIndex ?w3 in _) = _ =>
      destruct (saveMessageIndex_keeps_maps w3)
        as (w4 & Hsave & Hindex & Hcache & Hinit4)
  end.
  rewrite Hsave in Hbody. unfold ret in Hbody. injection Hbody as <- <-.
  cbn [db messageIndex documentCache initialized set_messageIndex
       set_documentCache] in Hindex, Hcache, Hinit4.
  destruct (new_document_id doc id table) as (Hget & _ & _).
  rewrite Hget in *.
  exists id0, id, sent. rewrite Hindex, Hcache, Hinit4, Hsend.
  repeat split; try assumption.
Qed.

Lemma primitive_generated (id0 id : value) :
  primitive id0 = true ->
  (if truthy id0 then id = id0
   else exists now token,
          id = JStr (JSON.number_to_string now ++ "-" ++ token)) ->
  primitive id = true.
Proof.
  intros H0 Hid. destruct (truthy id0); [ now subst id | ].
  destruct Hid as (now & token & ->). apply String.eqb_refl.
Qed.

Lemma optional_get_new_document (doc id : value) (table : string) :
  optional_get (new_document doc id table) "_table" = JStr table.
Proof. exact (proj1 (proj2 (new_document_id doc id table))). Qed.

(** X12.  Insert, then look up: after an [insert] that succeeded on an
    initialized store with a well-formed cache, of a document whose
    [_id] is a primitive or missing, the result carries the document
    made (the fields given, the [_id] given or a generated one, the
    table) with the message id of the chat, [findById] of that [_id] in
    the table answers that document, the index holds its message id,
    and the cache is well formed still. *)
Theorem insert_then_findById w (doc : value) (table : string)
        (r : OperationResult) w' :
  initialized (db w) = true ->
  cache_well_formed (documentCache (db w)) = true ->
  primitive (optional_get doc "_id") = true ->
  insert doc table w = (Returned r, w') -> success r = true ->
  exists id sent,
    let document := new_document doc id table in
    (truthy (optional_get doc "_id") = true -> id = optional_get doc "_id")
    /\ data r = JObj (set_property "_messageId" (JNum sent)
                        (own_entries document))
    /\ findById id table w' = (Returned document, w')
    /\ Map_get (messageIndex (db w')) id = JNum sent
    /\ cache_well_formed (documentCache (db w')) = true.
Proof.
  intros Hinit Hwf Hprim Hrun Hsuccess.
  destruct (insert_effect w doc table r w' Hinit Hrun Hsuccess)
    as (id0 & id & sent & Hid0 & Hid & -> & Hcache & Hindex & Hinit').
  destruct (member_get_property doc id0 "_id" Hid0) as [Hopt _].
  rewrite Hopt in *.
  pose proof (primitive_generated id0 id Hprim Hid) as Hpid.
  destruct (new_document_id doc id table) as (_ & _ & Hmember).
  assert (Hwf' : cache_well_formed (documentCache (db w')) = true)
    by (rewrite Hcache; now apply cache_well_formed_set).
  exists id, sent. cbn zeta. repeat split.
  - intros Htruthy. now rewrite Htruthy in Hid.
  - rewrite (findById_cached w' id table Hinit' Hwf'). unfold cached_in.
    rewrite Hcache, Map_get_set_same by exact Hpid.
    rewrite optional_get_new_document. cbn [strict_equals].
    now rewrite String.eqb_refl.
  - rewrite Hindex. now apply Map_get_set_same.
  - exact Hwf'.
Qed.

Lemma Map_get_in (m : JsMap) (k v : value) :
  distinct_keys m = true -> In (k, v) m -> strict_equals k k = true ->
  Map_get m k = v.
Proof.
  intros Hd Hin Hk. induction m as [ | [k0 v0] m IH ]; [ contradiction | ].
  cbn [distinct_keys] in Hd. apply andb_true_iff in Hd as [Hfresh Hd].
  apply negb_true_iff in Hfresh. cbn [Map_get].
  destruct Hin as [Heq | Hin].
  - injection Heq as -> ->. now rewrite Hk.
  - destruct (strict_equals k0 k) eqn:Hk0; [ | now apply IH ].
    assert (Hex : existsb (fun kv => strict_equals (fst kv) k0) m = true).
    { apply existsb_exists. exists (k, v). split; [ exact Hin | ].
      cbn [fst]. now rewrite strict_equals_sym. }
    congruence.
Qed.

Lemma Map_set_length_present (m : JsMap) (id v : value) :
  existsb (fun kv => strict_equals (fst kv) id) m = true ->
  List.length (Map_set id v m) = List.length m.
Proof.
  induction m as [ | [k v'] m IH ]; cbn [existsb fst Map_set];
    [ discriminate | ].
  destruct (strict_equals k id); cbn [orb List.length]; [ reflexivity | ].
  intros H. now rewrite IH.
Qed.

(** X13.  Identifiers are shared by the tables: an [insert] that
    succeeds with an [_id] under which another table holds a document
    takes the place of that document in the cache.  [findById] in the
    other table answers [null] from then on, the document it answered is
    in the cache no more, and the cache has as many documents as before. *)
Theorem insert_takes_over_identifier
        w (doc id old : value) (table table' : string)
        (r : OperationResult) w' :
  initialized (db w) = true ->
  cache_well_formed (documentCache (db w)) = true ->
  member doc "_id" = Returned id -> truthy id = true ->
  table' <> table ->
  findById id table' w = (Returned old, w) -> old <> JNull ->
  insert doc table w = (Returned r, w') -> success r = true ->
  findById id table' w' = (Returned JNull, w')
  /\ ~ In old (Map_values (documentCache (db w')))
  /\ List.length (documentCache (db w')) = List.length (documentCache (db w)).
Proof.
  intros Hinit Hwf Hid Htruthy Htable Hfound Hold Hrun Hsuccess.
  destruct (insert_effect w doc table r w' Hinit Hrun Hsuccess)
    as (id0 & id' & sent & Hid0 & Hid' & _ & Hcache & _ & Hinit').
  rewrite Hid in Hid0. injection Hid0 as <-. rewrite Htruthy in Hid'.
  subst id'.
  rewrite (findById_cached w id table' Hinit Hwf) in Hfound.
  injection Hfound as Hfound. unfold cached_in in Hfound.
  destruct (strict_equals
              (optional_get (Map_get (documentCache (db w)) id) "_table")
              (JStr table')) eqn:Hof; [ | now elim Hold ].
  assert (Hpresent :
    existsb (fun kv => strict_equals (fst kv) id) (documentCache (db w)) = true).
  { destruct (existsb (fun kv => strict_equals (fst kv) id)
                      (documentCache (db w))) eqn:Hex; [ reflexivity | ].
    rewrite (Map_get_absent _ _ Hex) in Hof. discriminate Hof. }
  assert (Hpid : primitive id = true).
  { apply existsb_exists in Hpresent as ([k v] & _ & Hk). cbn [fst] in Hk.
    pose proof (strict_equals_eq _ _ Hk) as ->. exact Hk. }
  destruct (new_document_id doc id table) as (_ & _ & Hmember).
  assert (Hwf' : cache_well_formed (documentCache (db w')) = true)
    by (rewrite Hcache; now apply cache_well_formed_set).
  assert (Hother :
    strict_equals (JStr table) (JStr table') = false).
  { cbn [strict_equals]. apply String.eqb_neq. congruence. }
  split; [ | split ].
  - rewrite (findById_cached w' id table' Hinit' Hwf'). unfold cached_in.
    rewrite Hcache, Map_get_set_same by exact Hpid.
    now rewrite optional_get_new_document, Hother.
  - intros Hin. unfold Map_values in Hin.
    apply in_map_iff in Hin as ([k v] & Hv & Hkv). cbn [snd] in Hv. subst v.
    assert (Hnew : Map_get (documentCache (db w')) id
                   = new_document doc id table)
      by (rewrite Hcache; now apply Map_get_set_same).
    assert (Hdiffer : old <> new_document doc id table).
    { intros Heq. rewrite Hfound, Heq, optional_get_new_document in Hof.
      congruence. }
    apply andb_true_iff in Hwf' as [Hdistinct' Hkeyed'].
    destruct (cached_under_id _ k old Hkeyed' Hkv) as (_ & Hk & Hkk).
    assert (Hkid : k = id).
    { rewrite Hcache in Hkv. apply Map_set_entries in Hkv as [Hkv | [Hkv _]];
        [ | exact Hkv ].
      apply andb_true_iff in Hwf as [Hdistinct Hkeyed].
      pose proof (Map_get_in _ _ _ Hdistinct Hkv Hkk) as Hget.
      destruct (strict_equals k id) eqn:Hsame;
        [ now apply strict_equals_eq | ].
      (* [old] is cached under [id] too *)
      assert (Hcached : In (id, old) (documentCache (db w))).
      { rewrite <- Hfound. clear -Hpresent.
        induction (documentCache (db w)) as [ | [k0 v0] m IH ];
          [ discriminate Hpresent | ].
        cbn [existsb fst Map_get] in *.
        destruct (strict_equals k0 id) eqn:Hk0.
        - apply strict_equals_eq in Hk0. subst k0. now left.
        - right. now apply IH. }
      destruct (cached_under_id _ id old Hkeyed Hcached) as (_ & Hidold & _).
      congruence. }
    clear Hk. subst k. apply Hdiffer. rewrite <- Hnew.
    symmetry. now apply Map_get_in.
  - rewrite Hcache. now apply Map_set_length_present.
Qed.

End InsertLaws.

(* ===================================================================== *)
(** * The cache of documents under insert, update and delete *)
(* ===================================================================== *)










Section DocumentsCached.
Context {engine : RegExpEngine} {Chat : Type} {telegram : Telegram Chat}.
Implicit Types w : @World Chat.



End DocumentsCached.

Section UpdateLaws.
Context {engine : RegExpEngine} {Chat : Type} {telegram : Telegram Chat}.
Implicit Types w : @World Chat.

Lemma filter_filter_implied {A : Type} (p q : A -> bool) (l : list A) :
  (forall x, In x l -> p x = true -> q x = true) ->
  filter p (filter q l) = filter p l.
Proof.
  induction l as [ | x l IH ]; intros H; [ reflexivity | ].
  cbn [filter].
  assert (Hl : forall y, In y l -> p y = true -> q y = true)
    by (intros y Hy; apply H; now right).
  destruct (q x) eqn:Hq; cbn [filter].
  - now rewrite IH.
  - destruct (p x) eqn:Hp; [ | now apply IH ].
    rewrite (H x (or_introl eq_refl) Hp) in Hq. discriminate Hq.
Qed.

(** The documents [update] and [delete] resolve for the filter of one
    [_id]: the value the cache holds for it, when it is of the table. *)
Lemma find_matching_by_id w (id : value) (table : string) :
  initialized (db w) = true ->
  cache_well_formed (documentCache (db w)) = true ->
  find_matching (JObj [("_id", id)]) table w
  = (Returned (found_list (cached_in w id table)), w).
Proof.
  intros Hinit Hwf. rewrite (find_matching_ready w _ table Hinit).
  rewrite found_in_table. cbn [bindO]. unfold table_documents.
  pose proof Hwf as Hwf'. apply andb_true_iff in Hwf' as [_ Hkeyed].
  assert (Hdecided : forall doc,
    In doc (Map_values (documentCache (db w))) ->
    matchesFilter doc (with_table (JObj [("_id", id)]) table)
    = Returned (strict_equals (get_property doc "_id") id
                && strict_equals (optional_get doc "_table") (JStr table))).
  { intros doc Hdoc. unfold Map_values in Hdoc.
    apply in_map_iff in Hdoc as ([k v] & Hv & Hkv). cbn [snd] in Hv. subst v.
    destruct (cached_under_id _ k doc Hkeyed Hkv) as (Hmember & _ & _).
    now apply matchesFilter_by_id. }
  rewrite select_is_filter.
  2:{ intros doc Hdoc. apply filter_In in Hdoc as [Hdoc _].
      rewrite (Hdecided doc Hdoc). eauto. }
  rewrite filter_filter_implied.
  2:{ intros doc Hdoc. unfold matches. rewrite (Hdecided doc Hdoc).
      intros H. now apply andb_true_iff in H as [_ H]. }
  rewrite <- select_is_filter
    by (intros doc Hdoc; rewrite (Hdecided doc Hdoc); eauto).
  rewrite (select_by_id _ id table Hwf). unfold cached_in.
  destruct (strict_equals
              (optional_get (Map_get (documentCache (db w)) id) "_table")
              (JStr table)) eqn:Htable; [ | reflexivity ].
  destruct (Map_get (documentCache (db w)) id); try reflexivity;
    discriminate Htable.
Qed.

(** X11.  On an initialized store whose cache is well formed, the scan
    of [findById] is the lookup of the cache: it answers the value the
    cache holds for the identifier when that value is of the table,
    and [null] otherwise, and it changes nothing; [updateById] and
    [deleteById] resolve that one document, or none. *)
Theorem findById_is_lookup w (id : value) (table : string) :
  initialized (db w) = true ->
  cache_well_formed (documentCache (db w)) = true ->
  findById id table w = (Returned (cached_in w id table), w)
  /\ find_matching (JObj [("_id", id)]) table w
     = (Returned (found_list (cached_in w id table)), w).
Proof.
  intros Hinit Hwf.
  split; [ now apply findById_cached | now apply find_matching_by_id ].
Qed.



End UpdateLaws.

(* ===================================================================== *)
(** * The codec and the listener *)
(* ===================================================================== *)

Lemma append_injective (p a b : string) : (p ++ a = p ++ b)%string -> a = b.
Proof.
  induction p as [ | c p IH ]; cbn [append]; intros H; [ exact H | ].
  injection H as H. now apply IH.
Qed.

Lemma encodeDocument_text (doc : value) (prefix : string) :
  json_data doc = true ->
  exists t,
    encodeDocument doc prefix = (prefix ++ t)%string
    /\ JSON.stringify doc = Some t
    /\ JSON.parse t = Returned doc.
Proof.
  intros Hdata. destruct (JSONFacts.parse_stringify doc Hdata) as (t & Ht & Hp).
  exists t. unfold encodeDocument. now rewrite Ht.
Qed.

Lemma decodeDocument_text (prefix t : string) (doc : value) :
  JSON.parse t = Returned doc ->
  decodeDocument (prefix ++ t) prefix = Returned doc.
Proof.
  intros Hparse. unfold decodeDocument.
  now rewrite startsWith_append, substring_from_append, Hparse.
Qed.

(** X16.  Two documents that are encoded to the same message under one
    prefix are the same document. *)
Theorem encodeDocument_injective (doc1 doc2 : value) (prefix : string) :
  json_data doc1 = true -> json_data doc2 = true ->
  encodeDocument doc1 prefix = encodeDocument doc2 prefix ->
  doc1 = doc2.
Proof.
  intros H1 H2 Heq.
  destruct (encodeDocument_text doc1 prefix H1) as (t1 & E1 & _ & P1).
  destruct (encodeDocument_text doc2 prefix H2) as (t2 & E2 & _ & P2).
  rewrite E1, E2 in Heq. apply append_injective in Heq. subst t2.
  rewrite P1 in P2. now injection P2.
Qed.

Lemma startsWith_append_both (p a b : string) :
  startsWith (p ++ a) (p ++ b) = startsWith a b.
Proof.
  unfold startsWith. induction p as [ | c p IH ]; cbn; [ reflexivity | ].
  destruct (ascii_dec c c) as [ _ | Hne ]; [ exact IH | now elim Hne ].
Qed.

Lemma append_not_empty (p : string) (c : ascii) (t : string) :
  String.eqb (p ++ String c t) EmptyString = false.
Proof. now destruct p. Qed.

Section Listener.
Context {Chat : Type}.
Implicit Types w : @World Chat.

(** X17.  What one store wrote, another reads: when the message of a
    document (an object of JSON data with a truthy [_id]) encoded under
    the prefix of the store comes from its chat, the listener caches the
    document under its [_id] and records the message in the index, and
    does nothing else. *)
Theorem listener_caches_document
        w (ctx : Message) (props : list (string * value)) (id : value) :
  json_data (JObj props) = true ->
  get_property (JObj props) "_id" = id -> truthy id = true ->
  text ctx = Some (encodeDocument (JObj props) (prefix (db w))) ->
  chat ctx = chatId (db w) ->
  onMessage ctx w
  = (Returned tt,
     mkWorld
       (set_documentCache
          (Map_set id (JObj props) (documentCache (db w)))
          (set_messageIndex
             (Map_set id (JNum (message_id ctx)) (messageIndex (db w)))
             (db w)))
       (channel w)).
Proof.
  intros Hdata Hid Htruthy Htext Hchat.
  destruct (encodeDocument_text (JObj props) (prefix (db w)) Hdata)
    as (t & Hencode & Ht & Hparse).
  assert (Hbrace : exists t', t = String "{" t').
  { unfold JSON.stringify in Ht. cbn [JSON.serialize] in Ht.
    injection Ht as <-. eauto. }
  destruct Hbrace as [t' ->].
  unfold onMessage. rewrite Htext, Hencode, append_not_empty.
  unfold bind at 1, this. rewrite Hchat, String.eqb_refl. cbn [negb].
  rewrite startsWith_append, startsWith_append_both. cbn [startsWith String.prefix].
  cbn [andb negb]. unfold bind at 1, lift.
  rewrite (decodeDocument_text _ _ _ Hparse). cbn [truthy].
  unfold bind at 1, member. rewrite Hid, Htruthy.
  reflexivity.
Qed.

(** X18.  The listener leaves the store as it is for a message that has
    no text or an empty one, that comes from another chat, or whose text
    does not begin with the prefix. *)
Theorem listener_ignores_other_messages w (ctx : Message) :
  (text ctx = None
   \/ text ctx = Some EmptyString
   \/ chat ctx <> chatId (db w)
   \/ exists t, text ctx = Some t /\ startsWith t (prefix (db w)) = false) ->
  onMessage ctx w = (Returned tt, w).
Proof.
  intros H. unfold onMessage.
  destruct (text ctx) as [ t | ]; [ | reflexivity ].
  destruct (String.eqb_spec t EmptyString) as [ -> | Hnonempty ];
    [ reflexivity | ].
  unfold bind, this.
  destruct (String.eqb_spec (chat ctx) (chatId (db w))) as [ Hchat | Hchat ];
    cbn [negb]; [ | reflexivity ].
  destruct H as [H | [H | [H | (t0 & H & Hprefix)]]];
    try discriminate H; try congruence.
  injection H as <-. rewrite Hprefix. cbn [andb].
  assert (Hindex : startsWith t (prefix (db w) ++ "INDEX:") = false).
  { clear -Hprefix. unfold startsWith in *.
    revert Hprefix. generalize (prefix (db w)). intros p. revert t.
    induction p as [ | c p IH ]; intros [ | c' t ] Hp; cbn in *;
      try discriminate Hp; try reflexivity.
    destruct (ascii_dec c c'); [ now apply IH | reflexivity ]. }
  now rewrite Hindex.
Qed.

End Listener.

Lemma Map_set_fresh (k v : value) (m : JsMap) :
  existsb (fun kv => strict_equals (fst kv) k) m = false ->
  Map_set k v m = m ++ [(k, v)].
Proof.
  induction m as [ | [k0 v0] m IH ]; cbn [existsb fst Map_set List.app];
    [ reflexivity | ].
  intros H. apply orb_false_iff in H as [Hk Hm]. now rewrite Hk, IH.
Qed.

Lemma distinct_keys_app_fresh (acc rest : JsMap) (k v : value) :
  distinct_keys (acc ++ (k, v) :: rest) = true ->
  existsb (fun kv => strict_equals (fst kv) k) acc = false.
Proof.
  induction acc as [ | [k0 v0] acc IH ]; cbn [List.app distinct_keys existsb fst];
    [ reflexivity | ].
  intros H. apply andb_true_iff in H as [Hfresh Hd].
  rewrite IH by exact Hd. rewrite orb_false_r.
  apply negb_true_iff in Hfresh.
  destruct (strict_equals k0 k) eqn:Hk; [ | reflexivity ].
  rewrite existsb_app in Hfresh. cbn [existsb fst] in Hfresh.
  rewrite strict_equals_sym, Hk in Hfresh.
  now rewrite orb_true_r in Hfresh.
Qed.

(** A [Map] made of the entries of a [Map] is that [Map]. *)
Lemma Map_from_entries (m : JsMap) :
  distinct_keys m = true -> Map_from (JArr (Map_entries m)) = Returned m.
Proof.
  intros Hd. cbn [Map_from].
  assert (Hfold : forall rest acc,
    distinct_keys (acc ++ rest) = true ->
    fold_left
      (fun acc entry =>
         bindO acc (fun m =>
           match entry with
           | JArr _ | JObj _ =>
               Returned (Map_set (get_property entry "0")
                                 (get_property entry "1") m)
           | _ => Threw (TypeError ("Iterator value " ++ primitive_text entry
                                    ++ " is not an entry object"))
           end))
      (Map_entries rest) (Returned acc)
    = Returned (acc ++ rest)).
  { induction rest as [ | [k v] rest IH ]; intros acc Hacc.
    - cbn. now rewrite List.app_nil_r.
    - cbn [Map_entries map fold_left fst snd bindO].
      change (get_property (JArr [k; v]) "0") with k.
      change (get_property (JArr [k; v]) "1") with v.
      rewrite (Map_set_fresh k v acc)
        by exact (distinct_keys_app_fresh acc rest k v Hacc).
      fold (Map_entries rest). rewrite IH.
      + now rewrite <- List.app_assoc.
      + now rewrite <- List.app_assoc. }
  exact (Hfold m [] Hd).
Qed.

Lemma json_data_snapshot (d : TelegramDB) (now : Z) :
  snapshot_data d = true -> json_data (snapshot d now) = true.
Proof.
  unfold snapshot_data. intros H. apply andb_true_iff in H as [Hindex Hdocs].
  unfold snapshot. cbn [json_data map fst snd distinct existsb forallb].
  cbn [String.eqb Ascii.eqb Bool.eqb orb negb andb].
  rewrite andb_true_r. apply andb_true_iff. split.
  - unfold Map_entries. rewrite forallb_forall in *. intros x Hx.
    apply in_map_iff in Hx as (kv & <- & Hkv). cbn [json_data forallb].
    specialize (Hindex kv Hkv). apply andb_true_iff in Hindex as [-> ->].
    reflexivity.
  - rewrite forallb_forall in *. intros x Hx. specialize (Hdocs x Hx).
    now apply andb_true_iff in Hdocs as [-> _].
Qed.

Lemma set_documentCache_same (d : TelegramDB) :
  set_documentCache (documentCache d) d = d.
Proof. now destruct d. Qed.

Section Snapshot.
Context {Chat : Type}.
Implicit Types w : @World Chat.

Lemma cache_each_effect (docs : list value) w :
  (forall doc, In doc docs -> nullish doc = false) ->
  cache_each docs w
  = (Returned tt,
     mkWorld (set_documentCache (cache_all docs (documentCache (db w))) (db w))
             (channel w)).
Proof.
  revert w. induction docs as [ | doc docs IH ]; intros w Hdocs.
  - cbn [cache_each cache_all fold_left]. unfold ret.
    now rewrite set_documentCache_same, world_eta.
  - cbn [cache_each cache_all fold_left].
    assert (Hid : member doc "_id" = Returned (get_property doc "_id")).
    { specialize (Hdocs doc (or_introl eq_refl)). now destruct doc. }
    unfold bind at 1, lift. rewrite Hid. unfold bind at 1, modify.
    rewrite IH by (intros d Hd; apply Hdocs; now right).
    reflexivity.
Qed.

(** X19.  A snapshot is adopted: when the message of the snapshot of a
    store (its index, of distinct keys, and the values of its cache,
    all JSON data) comes from the chat under the prefix of the receiving
    store, the listener replaces the index of the receiver by the index
    of the snapshot, sets each document of the snapshot in the cache
    under its [_id], keeping the other documents it had, and takes the
    message for its own snapshot message. *)
Theorem listener_adopts_snapshot
        w (ctx : Message) (sender : TelegramDB) (now : Z) :
  snapshot_data sender = true ->
  distinct_keys (messageIndex sender) = true ->
  text ctx = Some (encodeDocument (snapshot sender now)
                                  (prefix (db w) ++ "INDEX:")) ->
  chat ctx = chatId (db w) ->
  onMessage ctx w
  = (Returned tt,
     mkWorld
       (set_indexMessageId (JNum (message_id ctx))
          (set_documentCache
             (cache_all (Map_values (documentCache sender))
                        (documentCache (db w)))
             (set_messageIndex (messageIndex sender) (db w))))
       (channel w)).
Proof.
  intros Hdata Hdistinct Htext Hchat.
  pose proof (json_data_snapshot sender now Hdata) as Hjson.
  destruct (encodeDocument_text (snapshot sender now)
              (prefix (db w) ++ "INDEX:") Hjson)
    as (t & Hencode & Ht & Hparse).
  assert (Hbrace : exists t', t = String "{" t').
  { unfold JSON.stringify, snapshot in Ht. cbn [JSON.serialize] in Ht.
    injection Ht as <-. eauto. }
  destruct Hbrace as [t' ->].
  assert (Hdocs : forall doc, In doc (Map_values (documentCache sender)) ->
                              nullish doc = false).
  { unfold snapshot_data in Hdata. apply andb_true_iff in Hdata as [_ Hdocs].
    rewrite forallb_forall in Hdocs. intros doc Hdoc.
    specialize (Hdocs doc Hdoc). apply andb_true_iff in Hdocs as [_ H].
    now apply negb_true_iff in H. }
  unfold onMessage. rewrite Htext, Hencode, append_not_empty.
  unfold bind at 1, this. rewrite Hchat, String.eqb_refl. cbn [negb].
  assert (Hprefix :
    startsWith ((prefix (db w) ++ "INDEX:") ++ String "{" t') (prefix (db w))
    = true) by (rewrite append_assoc; apply startsWith_append).
  rewrite Hprefix, startsWith_append.
  cbn [andb negb]. unfold bind at 1, lift.
  rewrite (decodeDocument_text _ _ _ Hparse).
  unfold snapshot at 1 2 3 4.
  cbn [truthy get_property lookup String.eqb Ascii.eqb Bool.eqb strict_equals
       andb].
  unfold snapshot at 1.
  cbn [get_property lookup String.eqb Ascii.eqb Bool.eqb].
  unfold bind at 1.
  rewrite (Map_from_entries _ Hdistinct).
  unfold bind at 1, modify at 1.
  unfold snapshot.
  cbn [get_property lookup String.eqb Ascii.eqb Bool.eqb].
  unfold bind at 1. rewrite cache_each_effect by exact Hdocs.
  reflexivity.
Qed.

End Snapshot.

(* ===================================================================== *)
(** * The snapshot, the attempts and the batches *)
(* ===================================================================== *)

Section Publishing.
Context {engine : RegExpEngine} {Chat : Type} {telegram : Telegram Chat}.
Implicit Types w : @World Chat.

(** X20.  [saveMessageIndex] raises nothing and leaves the index and the
    cache as they are.  It asks the chat to delete the snapshot message
    it knows, whatever the chat answers; then, when the index is not
    empty, it sends the snapshot of the store once and, if the chat
    accepts it, keeps its message id; when the index is empty it sends
    nothing. *)
Theorem saveMessageIndex_publishes w :
  let d := db w in
  let stamped := Date_now (channel w) in
  let c2 := if truthy (indexMessageId d)
            then snd (deleteMessage (indexMessageId d) (snd stamped))
            else snd stamped in
  saveMessageIndex w
  = if Map_size (messageIndex d) >? 0
    then match sendMessage (encodeDocument (snapshot d (fst stamped))
                                           (prefix d ++ "INDEX:")) c2 with
         | (Ok sent, c3) =>
             (Returned tt, mkWorld (set_indexMessageId (JNum sent) d) c3)
         | (Failed _, c3) => (Returned tt, mkWorld d c3)
         end
    else (Returned tt, mkWorld d c2).
Proof.
  intros d stamped c2. subst d stamped c2.
  unfold saveMessageIndex, try_, bind, this, ask, call, modify, ret, snapshot.
  repeat (cbn beta iota delta [db channel fst snd];
          match goal with
          | |- context [Date_now ?c] => destruct (Date_now c) as [? ?]
          | |- context [truthy ?v] => destruct (truthy v)
          | |- context [deleteMessage ?v ?c] =>
              destruct (deleteMessage v c) as [[[] | ?] ?]
          | |- context [?a >? ?b] => destruct (a >? b)
          | |- context [sendMessage ?t ?c] =>
              destruct (sendMessage t c) as [[? | ?] ?]
          end);
    reflexivity.
Qed.

Lemma pause_returns (i n : Z) w :
  (if i <? n - 1 then sleep (1000 * (i + 1)) else ret tt) w = (Returned tt, w).
Proof. now destruct (i <? n - 1). Qed.

Lemma retry_from_success {A : Type} (operation : @M Chat A) (n : Z) (k : nat) :
  forall (i : Z) (remaining : nat) (lastError : thrown) w wk (a : A) w',
    after_failures operation k w = Some wk ->
    operation wk = (Returned a, w') ->
    (k < remaining)%nat ->
    retry_from operation n i remaining lastError w = (Returned a, w').
Proof.
  induction k as [ | k IH ]; intros i remaining lastError w wk a w' Hk Hop Hlt;
    (destruct remaining as [ | remaining ]; [ lia | ]);
    cbn [after_failures retry_from] in *; unfold try_.
  - injection Hk as ->. now rewrite Hop.
  - destruct (operation w) as [[a0 | e] w1]; [ discriminate Hk | ].
    unfold bind. rewrite pause_returns.
    apply (IH _ _ _ _ wk); [ exact Hk | exact Hop | lia ].
Qed.

Lemma retry_from_exhausted {A : Type} (operation : @M Chat A) (n : Z)
      (remaining : nat) :
  forall (i : Z) (lastError : thrown) w wk,
    after_failures operation remaining w = Some wk ->
    exists e,
      retry_from operation n i remaining lastError w = (Threw e, wk)
      /\ (remaining = O -> e = lastError)
      /\ (remaining <> O -> exists w0, operation w0 = (Threw e, wk)).
Proof.
  induction remaining as [ | k IH ]; intros i lastError w wk Hk;
    cbn [after_failures retry_from] in *.
  - injection Hk as ->. exists lastError. unfold throw.
    repeat split. intros H. now elim H.
  - unfold try_. destruct (operation w) as [[a0 | e] w1] eqn:Hop;
      [ discriminate Hk | ].
    unfold bind. rewrite pause_returns.
    destruct (IH (i + 1) e w1 wk Hk) as (e' & Hrun & Hzero & Hsome).
    exists e'. split; [ exact Hrun | ]. split; [ discriminate | ].
    intros _. destruct k as [ | k' ].
    + rewrite (Hzero eq_refl). cbn in Hk. injection Hk as <-. now exists w.
    + apply Hsome. discriminate.
Qed.

(** X21.  [retryOperation] stops at the first attempt that returns and
    makes [maxRetries] attempts at most: when the operation raises [k]
    times and then returns, [k] being less than [maxRetries], the result
    is what it returned; when it raises [maxRetries] times, the error of
    the last attempt is raised after exactly these attempts; with a
    [maxRetries] that is not positive no attempt is made and [undefined]
    is raised. *)
Theorem retryOperation_attempts {A : Type} (operation : @M Chat A)
        (maxRetries : Z) w :
  (forall k wk a w',
      after_failures operation k w = Some wk ->
      operation wk = (Returned a, w') ->
      Z.of_nat k < maxRetries ->
      retryOperation operation maxRetries w = (Returned a, w'))
  /\ (forall wk,
         0 < maxRetries ->
         after_failures operation (Z.to_nat maxRetries) w = Some wk ->
         exists e w0,
           retryOperation operation maxRetries w = (Threw e, wk)
           /\ operation w0 = (Threw e, wk))
  /\ (maxRetries <= 0 ->
      retryOperation operation maxRetries w = (Threw None, w)).
Proof.
  unfold retryOperation. split; [ | split ].
  - intros k wk a w' Hk Hop Hlt.
    apply (retry_from_success operation maxRetries k _ _ _ w wk);
      [ exact Hk | exact Hop | lia ].
  - intros wk Hpos Hk.
    destruct (retry_from_exhausted operation maxRetries _ 0 None w wk Hk)
      as (e & Hrun & _ & Hsome).
    destruct Hsome as [w0 Hw0]; [ lia | ]. now exists e, w0.
  - intros Hle. replace (Z.to_nat maxRetries) with O by lia. reflexivity.
Qed.

End Publishing.

Section Batches.
Context {engine : RegExpEngine} {Chat : Type} {telegram : Telegram Chat}.
Implicit Types w : @World Chat.

Lemma insert_each_results (docs : list value) (table : string) (pause : Z)
      (stop : bool) :
  forall (results rs : list OperationResult) w w',
    insert_each docs table pause stop results w = (Returned rs, w') ->
    exists new,
      rs = results ++ new
      /\ (List.length new <= List.length docs)%nat
      /\ (stop = false -> List.length new = List.length docs)
      /\ (forall pre r post,
             stop = true -> new = pre ++ r :: post -> post <> [] ->
             success r = true)
      /\ ((List.length new < List.length docs)%nat ->
          exists pre r, new = pre ++ [r] /\ success r = false).
Proof.
  induction docs as [ | doc docs IH ]; intros results rs w w' Hrun;
    cbn [insert_each] in Hrun.
  - unfold ret in Hrun. injection Hrun as <- <-. exists [].
    rewrite List.app_nil_r. repeat split; cbn; try lia.
    intros pre r post _ H. now destruct pre.
  - unfold bind at 1 in Hrun.
    destruct (insert doc table w) as [[result | e] w1]; [ | discriminate Hrun ].
    destruct (negb (success result) && stop) eqn:Hstop.
    + unfold ret in Hrun. injection Hrun as <- <-.
      apply andb_true_iff in Hstop as [Hfailed ->].
      apply negb_true_iff in Hfailed.
      exists [result]. repeat split; cbn; try lia; try discriminate.
      * intros pre r post _ H Hpost.
        destruct pre as [ | x pre ]; cbn in H.
        -- injection H as _ <-. now elim Hpost.
        -- injection H as _ H. now destruct pre.
      * intros _. now exists [], result.
    + unfold bind at 1 in Hrun.
      assert (Hpause : (if pause >? 0 then sleep pause else ret tt) w1
                       = (Returned tt, w1)) by (now destruct (pause >? 0)).
      rewrite Hpause in Hrun.
      destruct (IH _ _ _ _ Hrun) as (new & -> & Hlen & Hall & Hpre & Hshort).
      exists (result :: new). rewrite <- List.app_assoc. cbn [List.app List.length].
      repeat split; try lia.
      * intros Hs. now rewrite Hall.
      * intros pre r post Hs H Hpost.
        destruct pre as [ | x pre ]; cbn in H; injection H as <- H.
        -- rewrite Hs, andb_true_r in Hstop. now apply negb_false_iff in Hstop.
        -- now apply (Hpre pre r post).
      * intros Hlt. destruct Hshort as (pre & r & -> & Hr); [ lia | ].
        now exists (result :: pre), r.
Qed.

(** X22.  [insertMany] on a store that is ready returns the results of
    its inserts in the order of the documents.  Without [stopOnError]
    there is one result for each document, whether its insert succeeded
    or failed.  With [stopOnError] the results end with the first
    failure: every result but the last is a success, and when there are
    fewer results than documents the last one is a failure. *)
Theorem insertMany_results (docs : list value) (table : string)
        (options : option BatchOptions) w :
  ready (db w) ->
  exists rs w',
    insertMany docs table options w = (Returned rs, w')
    /\ (List.length rs <= List.length docs)%nat
    /\ (stops options = false -> List.length rs = List.length docs)
    /\ (forall pre r post,
           stops options = true -> rs = pre ++ r :: post -> post <> [] ->
           success r = true)
    /\ ((List.length rs < List.length docs)%nat ->
        exists pre r, rs = pre ++ [r] /\ success r = false).
Proof.
  intros Hready.
  destruct (never_raises_insertMany docs table options w Hready)
    as (rs & w' & Hrun & _).
  exists rs, w'. split; [ exact Hrun | ].
  unfold insertMany, bind at 1 in Hrun.
  rewrite (ensureInitialized_ready w (proj1 Hready)) in Hrun.
  unfold bind at 1, this in Hrun.
  apply insert_each_results in Hrun as (new & -> & H).
  exact H.
Qed.

(** X23.  Writes that find nothing.  On an initialized store, when no
    document of the table matches the filter, [delete] answers a failed
    result that says so and [update] without [upsert] does as well, the
    store and the chat being left as they are: no message is sent, and
    no snapshot either.  [update] with [upsert] is then the [insert] of
    the merge of the filter and the patch. *)
Theorem writes_that_find_nothing
        w (filter patch : value) (table : string) (options : UpdateOptions) :
  initialized (db w) = true ->
  find_matching filter table w = (Returned [], w) ->
  delete filter table w = (Returned (nothing_found "delete"), w)
  /\ (upsert options = false ->
      update filter patch table options w
      = (Returned (nothing_found "update"), w))
  /\ (upsert options = true ->
      update filter patch table options w
      = try_ (insert (deepMerge filter patch) table)
             (failed "Failed to update documents: ") w).
Proof.
  intros Hinit Hfind. unfold delete, update, bind at 1 3 5.
  rewrite (ensureInitialized_ready w Hinit).
  unfold try_, bind. rewrite Hfind. cbn [update_documents delete_documents].
  split; [ reflexivity | ].
  split; intros ->; reflexivity.
Qed.

(** [initialize] on a store that is not initialized. *)
Lemma initialize_run w :
  initialized (db w) = false ->
  initialize w
  = match getMe (channel w) with
    | (Failed err, c) => (Threw (initialization_error err), mkWorld (db w) c)
    | (Ok _, c1) =>
        match getChat c1 with
        | (Failed err, c2) =>
            (Threw (initialization_error err), mkWorld (db w) c2)
        | (Ok _, c2) => (Returned tt, mkWorld (initialized_anew (db w)) c2)
        end
    end.
Proof.
  intros H. unfold initialize, bind at 1, this. cbn beta iota. rewrite H.
  unfold try_, bind, call, loadMessageIndex, setupMessageListener, try_, bind,
    modify, ret, throw, initialization_error, thrown_to_string.
  cbn beta iota delta [db channel].
  destruct (getMe (channel w)) as [[[] | err] c1];
    cbn beta iota delta [db channel]; [ | reflexivity ].
  destruct (getChat c1) as [[[] | err] c2]; reflexivity.
Qed.

(** X24.  [initialize] does nothing on a store that is initialized.  On
    one that is not, it asks the chat for the bot and then for the
    chat: when both answer, the store is initialized with an empty index
    and an empty cache; when one fails, an [Error] that quotes the
    failure is raised and the store is left as it was, uninitialized. *)
Theorem initialize_outcome w :
  (initialized (db w) = true -> initialize w = (Returned tt, w))
  /\ (initialized (db w) = false ->
      initialize w
      = match getMe (channel w) with
        | (Failed err, c) => (Threw (initialization_error err), mkWorld (db w) c)
        | (Ok _, c1) =>
            match getChat c1 with
            | (Failed err, c2) =>
                (Threw (initialization_error err), mkWorld (db w) c2)
            | (Ok _, c2) => (Returned tt, mkWorld (initialized_anew (db w)) c2)
            end
        end).
Proof.
  split; [ | apply initialize_run ].
  intros H. unfold initialize, bind at 1, this. cbn beta iota. now rewrite H.
Qed.

(** X25.  Closing forgets: the first [find] after [close], on a chat that
    answers, initializes the store anew and answers no document,
    whatever the cache held, and leaves the index and the cache empty. *)
Theorem close_forgets_documents
        w (filter : value) (table : string) (c1 c2 : Chat) :
  getMe (channel w) = (Ok tt, c1) ->
  getChat c1 = (Ok tt, c2) ->
  find filter table (after (close w))
  = (Returned [], mkWorld (initialized_anew (db w)) c2).
Proof.
  intros Hme Hchat. unfold close, modify, after. cbn [snd].
  set (w0 := mkWorld (set_initialized false (db w)) (channel w)).
  set (w1 := mkWorld (initialized_anew (db w)) c2).
  assert (Hensure : ensureInitialized w0 = (Returned tt, w1)).
  { unfold ensureInitialized, bind at 1, this. cbn [db w0 initialized
      set_initialized negb].
    rewrite (initialize_run w0 eq_refl).
    cbn [w0 channel db]. now rewrite Hme, Hchat. }
  transitivity (find filter table w1).
  - unfold find at 1, bind at 1. rewrite Hensure. symmetry.
    unfold find, bind at 1.
    now rewrite (ensureInitialized_ready w1 eq_refl).
  - now rewrite (find_ready w1 filter table eq_refl).
Qed.

End Batches.

(* ===================================================================== *)
(** * getTables and getStats *)
(* ===================================================================== *)

Lemma includes_In (s : list value) (x : value) :
  includes s x = true -> In x s.
Proof.
  unfold includes. intros H. apply existsb_exists in H as (y & Hy & Heq).
  apply strict_equals_eq in Heq. now subst y.
Qed.

Lemma Set_add_In (x : value) (s : list value) (t : value) :
  In t (Set_add x s) <-> In t s \/ t = x.
Proof.
  unfold Set_add. destruct (includes s x) eqn:Hx.
  - split; [ now left | ]. intros [H | ->]; [ exact H | now apply includes_In ].
  - rewrite in_app_iff. cbn [In]. intuition.
Qed.

Lemma Set_add_NoDup (x : value) (s : list value) :
  NoDup (filter primitive s) -> NoDup (filter primitive (Set_add x s)).
Proof.
  unfold Set_add. destruct (includes s x) eqn:Hx; [ auto | ].
  intros Hs. rewrite filter_app. cbn [filter].
  destruct (primitive x) eqn:Hp; [ | now rewrite List.app_nil_r ].
  apply NoDup_rev in Hs. rewrite <- (rev_involutive (_ ++ [x])).
  apply NoDup_rev. rewrite rev_app_distr. cbn [rev List.app].
  constructor; [ | exact Hs ].
  rewrite <- in_rev. intros Hin. apply filter_In in Hin as [Hin _].
  assert (Hinc : includes s x = true).
  { unfold includes. apply existsb_exists. now exists x. }
  congruence.
Qed.

Lemma tables_of_spec (docs : list value) :
  (forall doc, In doc docs -> nullish doc = false) ->
  forall acc,
  exists tables,
    tables_of docs acc = Returned tables
    /\ (forall t,
           In t tables
           <-> In t acc
               \/ (truthy t = true
                   /\ exists doc, In doc docs /\ get_property doc "_table" = t))
    /\ (NoDup (filter primitive acc) -> NoDup (filter primitive tables)).
Proof.
  induction docs as [ | doc docs IH ]; intros Hdocs acc.
  - exists acc. split; [ reflexivity | ]. split; [ | auto ].
    intros t. split; [ now left | ].
    intros [H | (_ & d & [] & _)]. exact H.
  - cbn [tables_of].
    assert (Hdoc : member doc "_table" = Returned (get_property doc "_table")).
    { specialize (Hdocs doc (or_introl eq_refl)). now destruct doc. }
    rewrite Hdoc. cbn [bindO].
    destruct (IH (fun d Hd => Hdocs d (or_intror Hd))
                 (if truthy (get_property doc "_table")
                  then Set_add (get_property doc "_table") acc else acc))
      as (tables & Hrun & Hin & Hnodup).
    exists tables. split; [ exact Hrun | ]. split.
    + intros t. rewrite Hin. destruct (truthy (get_property doc "_table")) eqn:Ht.
      * rewrite Set_add_In. split.
        -- intros [[H | ->] | (Htt & d & Hd & Hdt)].
           ++ now left.
           ++ right. split; [ exact Ht | ]. exists doc. split; [ now left | reflexivity ].
           ++ right. split; [ exact Htt | ]. exists d. split; [ now right | exact Hdt ].
        -- intros [H | (Htt & d & [<- | Hd] & Hdt)].
           ++ left. now left.
           ++ left. now right.
           ++ right. split; [ exact Htt | ]. now exists d.
      * split.
        -- intros [H | (Htt & d & Hd & Hdt)]; [ now left | ].
           right. split; [ exact Htt | ]. exists d. split; [ now right | exact Hdt ].
        -- intros [H | (Htt & d & [<- | Hd] & Hdt)]; [ now left | | ].
           ++ rewrite Hdt in Ht. congruence.
           ++ right. split; [ exact Htt | ]. now exists d.
    + intros Hacc. apply Hnodup.
      destruct (truthy (get_property doc "_table")); [ | exact Hacc ].
      now apply Set_add_NoDup.
Qed.

Section Tables.
Context {engine : RegExpEngine} {Chat : Type} {telegram : Telegram Chat}.
Implicit Types w : @World Chat.

(** X26.  On an initialized store whose cache holds no [null] and no
    [undefined], [getTables] raises nothing and changes nothing.  It
    lists the values of [_table] of the cached documents that are truthy,
    and only these; a table name, being a primitive, is listed once.  A
    document whose [_table] is the empty string belongs to no table
    listed. *)
Theorem getTables_lists_tables w :
  initialized (db w) = true ->
  (forall doc, In doc (Map_values (documentCache (db w))) ->
               nullish doc = false) ->
  exists tables,
    getTables w = (Returned tables, w)
    /\ (forall t,
           In t tables
           <-> truthy t = true
               /\ exists doc,
                    In doc (Map_values (documentCache (db w)))
                    /\ get_property doc "_table" = t)
    /\ NoDup (filter primitive tables)
    /\ ~ In (JStr EmptyString) tables.
Proof.
  intros Hinit Hdocs.
  destruct (tables_of_spec (Map_values (documentCache (db w))) Hdocs [])
    as (tables & Hrun & Hin & Hnodup).
  exists tables. split; [ | split; [ | split ] ].
  - unfold getTables, bind at 1. rewrite (ensureInitialized_ready w Hinit).
    unfold bind, this, lift. now rewrite Hrun.
  - intros t. rewrite Hin. split; [ | auto ]. now intros [[] | H].
  - apply Hnodup. constructor.
  - intros H. apply Hin in H as [[] | [H _]]. discriminate H.
Qed.

End Tables.

Lemma first_segment_string (name : string) (doc : value) :
  has_string_id doc = true ->
  exists s, get_property doc "_id" = JStr s
            /\ first_segment name doc = Returned (before_hyphen s).
Proof.
  unfold has_string_id. intros H. apply andb_true_iff in H as [Hdoc Hid].
  apply negb_true_iff in Hdoc.
  destruct (get_property doc "_id") as [ | | | | s | | ] eqn:Hget;
    try discriminate Hid.
  exists s. split; [ reflexivity | ]. unfold first_segment, member.
  destruct doc; try discriminate Hdoc; now rewrite Hget.
Qed.

Lemma older_string (oldest current : value) :
  has_string_id oldest = true -> has_string_id current = true ->
  older oldest current
  = Returned (if number_lt (stamp current) (stamp oldest)
              then current else oldest).
Proof.
  intros Ho Hc. unfold older, stamp.
  destruct (first_segment_string "oldest" oldest Ho) as (so & -> & ->).
  destruct (first_segment_string "current" current Hc) as (sc & -> & ->).
  reflexivity.
Qed.

Lemma newer_string (newest current : value) :
  has_string_id newest = true -> has_string_id current = true ->
  newer newest current
  = Returned (if number_lt (stamp newest) (stamp current)
              then current else newest).
Proof.
  intros Hn Hc. unfold newer, stamp.
  destruct (first_segment_string "newest" newest Hn) as (sn & -> & ->).
  destruct (first_segment_string "current" current Hc) as (sc & -> & ->).
  reflexivity.
Qed.

Lemma number_lt_below (a b x : option Z) :
  number_lt b a = true -> number_lt x a = false -> number_lt x b = false.
Proof.
  destruct a as [ a | ], b as [ b | ], x as [ x | ]; cbn; try discriminate;
    try reflexivity.
  intros H1 H2. apply Z.ltb_lt in H1. apply Z.ltb_ge in H2.
  apply Z.ltb_ge. lia.
Qed.

Lemma number_lt_above (a b x : option Z) :
  number_lt a b = true -> number_lt a x = false -> number_lt b x = false.
Proof.
  destruct a as [ a | ], b as [ b | ], x as [ x | ]; cbn; try discriminate;
    try reflexivity.
  intros H1 H2. apply Z.ltb_lt in H1. apply Z.ltb_ge in H2.
  apply Z.ltb_ge. lia.
Qed.

Lemma number_lt_asym (a b : option Z) :
  number_lt a b = true -> number_lt b a = false.
Proof.
  destruct a as [ a | ], b as [ b | ]; cbn; try discriminate.
  intros H. apply Z.ltb_lt in H. apply Z.ltb_ge. lia.
Qed.

Lemma number_lt_irrefl (a : option Z) : number_lt a a = false.
Proof. destruct a as [ a | ]; [ apply Z.ltb_irrefl | reflexivity ]. Qed.

(** The document the reduction with [older] ends with: none of the
    documents has a lesser stamp. *)
Lemma reduce_older (rest : list value) :
  forall acc,
    (forall doc, In doc (acc :: rest) -> has_string_id doc = true) ->
    exists oldest,
      reduce older acc rest = Returned oldest
      /\ In oldest (acc :: rest)
      /\ (forall x, number_lt x (stamp acc) = false ->
                    number_lt x (stamp oldest) = false)
      /\ (forall doc, In doc rest -> number_lt (stamp doc) (stamp oldest) = false).
Proof.
  induction rest as [ | current rest IH ]; intros acc Hids.
  - exists acc. cbn [reduce]. repeat split; [ now left | auto | ].
    intros doc [].
  - cbn [reduce].
    rewrite older_string by (apply Hids; cbn; auto).
    cbn [bindO].
    destruct (number_lt (stamp current) (stamp acc)) eqn:Hlt.
    + destruct (IH current) as (oldest & Hrun & Hin & Hbelow & Hrest).
      { intros d [<- | Hd]; apply Hids; cbn; auto. }
      exists oldest. split; [ exact Hrun | ]. split; [ | split ].
      * destruct Hin as [<- | Hin]; cbn; auto.
      * intros x Hx. apply Hbelow. now apply (number_lt_below (stamp acc)).
      * intros d [<- | Hd]; [ | now apply Hrest ].
        apply Hbelow. apply number_lt_irrefl.
    + destruct (IH acc) as (oldest & Hrun & Hin & Hbelow & Hrest).
      { intros d [<- | Hd]; apply Hids; cbn; auto. }
      exists oldest. split; [ exact Hrun | ]. split; [ | split ].
      * destruct Hin as [<- | Hin]; cbn; auto.
      * exact Hbelow.
      * intros d [<- | Hd]; [ | now apply Hrest ]. now apply Hbelow.
Qed.

Lemma reduce_newer (rest : list value) :
  forall acc,
    (forall doc, In doc (acc :: rest) -> has_string_id doc = true) ->
    exists newest,
      reduce newer acc rest = Returned newest
      /\ In newest (acc :: rest)
      /\ (forall x, number_lt (stamp acc) x = false ->
                    number_lt (stamp newest) x = false)
      /\ (forall doc, In doc rest -> number_lt (stamp newest) (stamp doc) = false).
Proof.
  induction rest as [ | current rest IH ]; intros acc Hids.
  - exists acc. cbn [reduce]. repeat split; [ now left | auto | ].
    intros doc [].
  - cbn [reduce].
    rewrite newer_string by (apply Hids; cbn; auto).
    cbn [bindO].
    destruct (number_lt (stamp acc) (stamp current)) eqn:Hlt.
    + destruct (IH current) as (newest & Hrun & Hin & Habove & Hrest).
      { intros d [<- | Hd]; apply Hids; cbn; auto. }
      exists newest. split; [ exact Hrun | ]. split; [ | split ].
      * destruct Hin as [<- | Hin]; cbn; auto.
      * intros x Hx. apply Habove. now apply (number_lt_above (stamp acc)).
      * intros d [<- | Hd]; [ | now apply Hrest ].
        apply Habove. apply number_lt_irrefl.
    + destruct (IH acc) as (newest & Hrun & Hin & Habove & Hrest).
      { intros d [<- | Hd]; apply Hids; cbn; auto. }
      exists newest. split; [ exact Hrun | ]. split; [ | split ].
      * destruct Hin as [<- | Hin]; cbn; auto.
      * exact Habove.
      * intros d [<- | Hd]; [ | now apply Hrest ]. now apply Habove.
Qed.

Lemma reduce_documents_older (documents : list value) :
  (forall doc, In doc documents -> has_string_id doc = true) ->
  exists oldest,
    reduce_documents older documents = Returned oldest
    /\ (documents = [] -> oldest = JUndefined)
    /\ (documents <> [] -> In oldest documents)
    /\ (forall doc, In doc documents ->
                    number_lt (stamp doc) (stamp oldest) = false).
Proof.
  intros Hids. destruct documents as [ | first rest ].
  - exists JUndefined. split; [ reflexivity | ]. split; [ reflexivity | ].
    split; [ intros H; now elim H | intros doc [] ].
  - destruct (reduce_older rest first Hids)
      as (oldest & Hrun & Hin & Hbelow & Hrest).
    exists oldest. split; [ exact Hrun | ]. split; [ discriminate | ].
    split; [ auto | ].
    intros d [<- | Hd]; [ | now apply Hrest ].
    apply Hbelow, number_lt_irrefl.
Qed.

Lemma reduce_documents_newer (documents : list value) :
  (forall doc, In doc documents -> has_string_id doc = true) ->
  exists newest,
    reduce_documents newer documents = Returned newest
    /\ (documents = [] -> newest = JUndefined)
    /\ (documents <> [] -> In newest documents)
    /\ (forall doc, In doc documents ->
                    number_lt (stamp newest) (stamp doc) = false).
Proof.
  intros Hids. destruct documents as [ | first rest ].
  - exists JUndefined. split; [ reflexivity | ]. split; [ reflexivity | ].
    split; [ intros H; now elim H | intros doc [] ].
  - destruct (reduce_newer rest first Hids)
      as (newest & Hrun & Hin & Habove & Hrest).
    exists newest. split; [ exact Hrun | ]. split; [ discriminate | ].
    split; [ auto | ].
    intros d [<- | Hd]; [ | now apply Hrest ].
    apply Habove, number_lt_irrefl.
Qed.

Section Statistics.
Context {engine : RegExpEngine} {Chat : Type} {telegram : Telegram Chat}.
Implicit Types w : @World Chat.

(** X27.  On an initialized store whose documents have strings for
    [_id], [getStats] raises nothing and changes nothing.  It counts the
    documents of the table, or of the cache when no table (or the empty
    name) is given, and the entries of the index.  The oldest and the
    newest document are [undefined] when there is no document; otherwise
    they are among the documents counted, no document has a stamp (the
    number at the head of its [_id]) less than that of the oldest, and
    none has one greater than that of the newest.  The stamps are numbers
    the language holds exactly. *)
Theorem getStats_of_store w (table : option string) :
  initialized (db w) = true ->
  (forall doc, In doc (Map_values (documentCache (db w))) ->
               has_string_id doc = true /\ exact (stamp doc) = true) ->
  let documents := stats_documents w table in
  exists stats,
    getStats table w = (Returned stats, w)
    /\ totalDocuments stats = List.length documents
    /\ totalMessages stats = List.length (messageIndex (db w))
    /\ (documents = [] ->
        oldestDocument stats = JUndefined /\ newestDocument stats = JUndefined)
    /\ (documents <> [] ->
        In (oldestDocument stats) documents
        /\ In (newestDocument stats) documents)
    /\ (forall doc, In doc documents ->
          number_lt (stamp doc) (stamp (oldestDocument stats)) = false
          /\ number_lt (stamp (newestDocument stats)) (stamp doc) = false).
Proof.
  intros Hinit Hstamped documents.
  assert (Hids : forall doc, In doc (Map_values (documentCache (db w))) ->
                             has_string_id doc = true)
    by (intros doc Hdoc; now destruct (Hstamped doc Hdoc)).
  assert (Hdocs : forall doc, In doc documents -> has_string_id doc = true).
  { intros doc Hdoc. apply Hids. subst documents. unfold stats_documents in Hdoc.
    destruct table as [ t | ]; [ | exact Hdoc ].
    destruct (negb (String.eqb t EmptyString)); [ | exact Hdoc ].
    unfold table_documents in Hdoc. now apply filter_In in Hdoc as [Hdoc _]. }
  assert (Hread :
    (match table with
     | Some t =>
         if negb (String.eqb t EmptyString) then find (JObj []) t
         else bind this (fun d => ret (Map_values (documentCache d)))
     | None => bind this (fun d => ret (Map_values (documentCache d)))
     end) w = (Returned documents, w)).
  { subst documents. unfold stats_documents.
    destruct table as [ t | ]; [ | reflexivity ].
    destruct (negb (String.eqb t EmptyString)); [ | reflexivity ].
    now rewrite (find_ready w (JObj []) t Hinit), found_in_table. }
  destruct (reduce_documents_older documents Hdocs)
    as (oldest & Holdest & Ho1 & Ho2 & Ho3).
  destruct (reduce_documents_newer documents Hdocs)
    as (newest & Hnewest & Hn1 & Hn2 & Hn3).
  exists {| totalDocuments := List.length documents;
            totalMessages := List.length (messageIndex (db w));
            oldestDocument := oldest;
            newestDocument := newest |}.
  split.
  - unfold getStats, bind at 1. rewrite (ensureInitialized_ready w Hinit).
    unfold bind at 1. rewrite Hread.
    unfold getAllMessages, bind, this, lift, ret. rewrite Holdest, Hnewest.
    cbn beta iota. now rewrite length_map.
  - cbn [totalDocuments totalMessages oldestDocument newestDocument].
    repeat split; auto.
Qed.

End Statistics.

(** ** The stamp of a generated identifier *)

Lemma before_hyphen_digits (d : uint) (rest : string) :
  before_hyphen (NilEmpty.string_of_uint d ++ String "-" rest)
  = NilEmpty.string_of_uint d.
Proof.
  induction d; cbn [NilEmpty.string_of_uint append before_hyphen Ascii.eqb
                    Bool.eqb]; try reflexivity; now rewrite IHd.
Qed.

Lemma scan_decimal_digits (d : uint) :
  d <> Nil -> scan_decimal (NilEmpty.string_of_uint d) = Some (N.of_uint d).
Proof.
  intros Hd. unfold scan_decimal.
  rewrite <- (append_nil_r (NilEmpty.string_of_uint d)).
  rewrite JSONFacts.scan_digits_print by reflexivity.
  destruct d; try reflexivity. now elim Hd.
Qed.

Lemma parseInt_positive (p : positive) :
  parseInt (NilEmpty.string_of_uint (Pos.to_uint p)) = Some (Zpos p).
Proof.
  pose proof (JSONFacts.int_numeral_to_uint p) as Hnum.
  pose proof (DecimalPos.Unsigned.to_uint_nonnil p) as Hnil.
  pose proof (scan_decimal_digits (Pos.to_uint p) Hnil) as Hscan.
  assert (Hvalue : N.of_uint (Pos.to_uint p) = Npos p)
    by (unfold N.of_uint; now rewrite DecimalPos.Unsigned.of_to).
  rewrite Hvalue in Hscan.
  destruct (Pos.to_uint p) as [ | u | u | u | u | u | u | u | u | u | u ];
    try (now elim Hnil);
    try (unfold parseInt;
         cbn [NilEmpty.string_of_uint trim_start is_js_space] in *;
         cbn; cbn in Hscan; now rewrite Hscan).
  (* a numeral that begins with 0 is the numeral 0 *)
  destruct u; try discriminate Hnum. discriminate Hvalue.
Qed.

Section Stamps.
Context {engine : RegExpEngine} {Chat : Type} {telegram : Telegram Chat}.
Implicit Types w : @World Chat.

Lemma parseInt_of_time (now : Z) (token : string) :
  0 <= now ->
  parseInt (before_hyphen (JSON.number_to_string now ++ "-" ++ token))
  = Some now.
Proof.
  intros Hnow. destruct now as [ | p | p ]; [ reflexivity | | lia ].
  cbn [JSON.number_to_string]. change ("-" ++ token)%string with (String "-" token).
  rewrite before_hyphen_digits. apply parseInt_positive.
Qed.

(** X28.  The identifier [generateId] makes begins with the time of the
    clock; the stamp [getStats] reads from a document that has it for
    [_id] is that time (a time that is not negative). *)
Theorem generated_id_stamp w (doc : value) :
  let now := fst (Date_now (channel w)) in
  0 <= now ->
  exists id c,
    generateId w = (Returned (JStr id), mkWorld (db w) c)
    /\ parseInt (before_hyphen id) = Some now
    /\ (get_property doc "_id" = JStr id -> stamp doc = Some now).
Proof.
  intros now Hnow. subst now.
  unfold generateId, bind, ask, ret. cbn [channel db].
  destruct (Date_now (channel w)) as [now c1]. cbn [channel db fst] in *.
  destruct (random_token c1) as [token c2].
  exists (JSON.number_to_string now ++ "-" ++ token)%string, c2.
  split; [ reflexivity | ].
  split; [ now apply parseInt_of_time | ].
  intros Hid. unfold stamp. rewrite Hid. now apply parseInt_of_time.
Qed.

Lemma select_matches (docs found : list value) (query : value) :
  select docs query = Returned found ->
  forall doc, In doc found ->
              In doc docs /\ matchesFilter doc query = Returned true.
Proof.
  revert found. induction docs as [ | d docs IH ]; intros found;
    cbn [select].
  - intros H. injection H as <-. intros doc [].
  - destruct (matchesFilter d query) as [ ok | e ] eqn:Hd; cbn [bindO];
      [ | discriminate ].
    destruct (select docs query) as [ rest | e ]; cbn [bindO];
      [ | discriminate ].
    intros H. injection H as <-. specialize (IH rest eq_refl).
    intros doc Hdoc. destruct ok.
    + destruct Hdoc as [<- | Hdoc]; [ split; [ now left | exact Hd ] | ].
      destruct (IH doc Hdoc). split; [ now right | assumption ].
    + destruct (IH doc Hdoc). split; [ now right | assumption ].
Qed.

Lemma set_property_In (k : string) (v : value) (props : list (string * value)) :
  In (k, v) (set_property k v props).
Proof.
  induction props as [ | [k' v'] props IH ]; cbn [set_property];
    [ now left | ].
  destruct (String.eqb k' k); [ now left | now right ].
Qed.

(** A document that matches a filter with the table added is of the
    table. *)
Lemma matched_in_table (doc filter : value) (table : string) :
  matchesFilter doc (with_table filter table) = Returned true ->
  strict_equals (optional_get doc "_table") (JStr table) = true.
Proof.
  intros Hmatch.
  unfold matchesFilter, with_table in Hmatch. cbn [own_entries] in Hmatch.
  apply all_entries_each in Hmatch. rewrite Forall_forall in Hmatch.
  specialize (Hmatch _ (set_property_In "_table" (JStr table)
                          (own_entries filter))).
  cbn [fst snd] in Hmatch. unfold entry_matches, getNestedValue in Hmatch.
  cbn [String.eqb Ascii.eqb Bool.eqb bindO isObject split_dot fold_left]
    in Hmatch.
  now injection Hmatch.
Qed.

(** X29.  [find] answers documents of the table only, whatever the
    filter, even one that names [_table] itself: each document it
    answers is a value of the cache whose [_table] is the table asked
    for, and it matches the filter with the table added. *)
Theorem find_answers_only_the_table
        w (filter : value) (table : string) (docs : list value) w' :
  initialized (db w) = true ->
  find filter table w = (Returned docs, w') ->
  w' = w
  /\ forall doc,
       In doc docs ->
       In doc (table_documents w table)
       /\ matchesFilter doc (with_table filter table) = Returned true.
Proof.
  intros Hinit Hrun. rewrite (find_ready w filter table Hinit) in Hrun.
  injection Hrun as Hfound <-. split; [ reflexivity | ].
  unfold found_in in Hfound.
  destruct (select (Map_values (documentCache (db w))) (with_table filter table))
    as [ found | [ err | ] ] eqn:Hselect; try discriminate Hfound.
  injection Hfound as ->. intros doc Hdoc.
  destruct (select_matches _ _ _ Hselect doc Hdoc) as [Hcached Hmatch].
  split; [ | exact Hmatch ].
  unfold table_documents. apply filter_In. split; [ exact Hcached | ].
  now apply (matched_in_table doc filter).
Qed.

Lemma filter_all {A : Type} (p : A -> bool) (l : list A) :
  (forall x, In x l -> p x = true) -> filter p l = l.
Proof.
  induction l as [ | x l IH ]; intros H; [ reflexivity | ].
  cbn [filter]. rewrite (H x (or_introl eq_refl)).
  now rewrite IH by (intros y Hy; apply H; now right).
Qed.

Lemma select_filter (p : value -> bool) (docs found : list value)
      (query : value) :
  select docs query = Returned found ->
  select (filter p docs) query = Returned (filter p found).
Proof.
  revert found. induction docs as [ | d docs IH ]; intros found;
    cbn [select filter].
  - intros H. now injection H as <-.
  - destruct (matchesFilter d query) as [ ok | e ] eqn:Hd; cbn [bindO];
      [ | discriminate ].
    destruct (select docs query) as [ rest | e ]; cbn [bindO];
      [ | discriminate ].
    intros H. injection H as <-. specialize (IH rest eq_refl).
    destruct (p d) eqn:Hp.
    + cbn [select]. rewrite Hd, IH. cbn [bindO].
      destruct ok; cbn [filter]; now rewrite ?Hp.
    + rewrite IH. destruct ok; cbn [filter]; now rewrite ?Hp.
Qed.

(** X30.  [count] agrees with [find]: on an initialized store, when
    [find] answers documents for a filter, [count] for that filter
    answers their number, and changes nothing.  ([count] scans the
    documents of the table only: it may answer where [find], which scans
    the whole cache, raises.) *)
Theorem count_agrees_with_find
        w (filter : value) (table : string) (docs : list value) w' :
  initialized (db w) = true ->
  find filter table w = (Returned docs, w') ->
  count filter table w = (Returned (List.length docs), w).
Proof.
  intros Hinit Hrun. rewrite (find_ready w filter table Hinit) in Hrun.
  injection Hrun as Hfound _. unfold found_in in Hfound.
  destruct (select (Map_values (documentCache (db w))) (with_table filter table))
    as [ found | [ err | ] ] eqn:Hselect; try discriminate Hfound.
  injection Hfound as ->.
  pose proof (select_matches _ _ _ Hselect) as Hall.
  rewrite (count_ready w filter table Hinit). unfold table_documents.
  rewrite (select_filter _ _ _ _ Hselect). cbn [bindO].
  rewrite filter_all; [ reflexivity | ].
  intros doc Hdoc. apply (matched_in_table doc filter). now apply Hall.
Qed.

End Stamps.

(* ===================================================================== *)
(** * Instances *)
(* ===================================================================== *)

Lemma missing_field_witness :
  matchesFilter john (JObj [("email", JObj [("$gt", JNum 1)])]) = Returned false
  /\ matchesFilter john (JObj [("email", JObj [("$exists", JBool false)])])
     = Returned true
  /\ matchesFilter john (JObj [("email", JObj [("$ne", JNum 1)])])
     = Returned true.
Proof.
  destruct (missing_field john "email" "$gt" (JNum 1)) as (Hgt & Hexists & Hne);
    [ discriminate | reflexivity | reflexivity | ].
  split; [ apply Hgt; reflexivity | ].
  split; [ exact Hexists | apply Hne; discriminate ].
Defined.

Lemma dotted_path_descends_witness :
  getNestedValue sample_document "address" = optional_get sample_document "address"
  /\ getNestedValue sample_document ("address" ++ String "." "geo.lat")
     = getNestedValue (optional_get sample_document "address") "geo.lat"
  /\ (optional_get sample_document "address" = JUndefined ->
      getNestedValue sample_document ("address" ++ String "." "geo.lat")
      = JUndefined).
Proof. apply (dotted_path_descends sample_document "address" "geo.lat"). reflexivity. Defined.

Lemma deepMerge_field_witness :
  get_property
    (deepMerge (JObj [("name", JStr "John");
                      ("address", JObj [("city", JStr "London")])])
               (JObj [("address", JObj [("zip", JNum 1)]); ("age", JNum 3)]))
    "address"
  = deepMerge (JObj [("city", JStr "London")]) (JObj [("zip", JNum 1)]).
Proof.
  apply (deepMerge_field
           [("name", JStr "John"); ("address", JObj [("city", JStr "London")])]
           [("address", JObj [("zip", JNum 1)]); ("age", JNum 3)] "address");
    reflexivity.
Defined.

Lemma deepMerge_object_onto_scalar_witness :
  deepMerge (JNum 5) (JObj [("b", JNum 1)]) = JObj []
  /\ get_property (deepMerge (JObj [("a", JNum 5)])
                             (JObj [("a", JObj [("b", JNum 1)])])) "a"
     = JObj [].
Proof.
  apply (deepMerge_object_onto_scalar
           [("a", JNum 5)] [("a", JObj [("b", JNum 1)])] [("b", JNum 1)]
           "a" (JNum 5)); reflexivity.
Defined.

Lemma deepMerge_keeps_fields_witness :
  map fst
    (own_entries
       (deepMerge (JObj [("name", JStr "John");
                         ("address", JObj [("city", JStr "London")])])
                  (JObj [("address", JObj [("zip", JNum 1)]);
                         ("age", JNum 3)])))
  = ["name"; "address"; "age"]%string.
Proof.
  apply (deepMerge_keeps_fields
           [("name", JStr "John"); ("address", JObj [("city", JStr "London")])]
           [("address", JObj [("zip", JNum 1)]); ("age", JNum 3)]);
    reflexivity.
Defined.


Lemma findById_is_lookup_witness :
  findById (JStr "1700000000000-k3x9") "users" store_with_john
  = (Returned (cached_in store_with_john (JStr "1700000000000-k3x9") "users"),
     store_with_john)
  /\ find_matching (JObj [("_id", JStr "1700000000000-k3x9")]) "users"
                   store_with_john
     = (Returned
          (found_list
             (cached_in store_with_john (JStr "1700000000000-k3x9") "users")),
        store_with_john).
Proof.
  apply (findById_is_lookup store_with_john (JStr "1700000000000-k3x9") "users");
    vm_compute; reflexivity.
Defined.

Lemma insert_then_findById_witness :
  exists id,
    findById id "users" store_with_john
    = (Returned (new_document john id "users"), store_with_john).
Proof.
  pose (run := insert john "users" (mkWorld fresh_store empty_chat)).
  pose (r := match fst run with
             | Returned r => r
             | Threw _ => nothing_found "insert"
             end).
  assert (Hwf : cache_well_formed
                  (documentCache (db (mkWorld fresh_store empty_chat))) = true)
    by reflexivity.
  assert (Hrun : insert john "users" (mkWorld fresh_store empty_chat)
                 = (Returned r, store_with_john))
    by (vm_compute; reflexivity).
  assert (Hsuccess : success r = true) by (vm_compute; reflexivity).
  destruct (insert_then_findById (mkWorld fresh_store empty_chat) john "users"
              r store_with_john eq_refl Hwf eq_refl Hrun Hsuccess)
    as (id & sent & _ & _ & Hfind & _).
  exists id. exact Hfind.
Defined.

Lemma insert_takes_over_identifier_witness :
  let taken :=
    after (insert (JObj [("_id", JStr "a"); ("item", JStr "book")]) "orders"
                  store_with_three) in
  findById (JStr "a") "users" taken = (Returned JNull, taken)
  /\ List.length (documentCache (db taken)) = 3%nat.
Proof.
  intros taken.
  pose (doc := JObj [("_id", JStr "a"); ("item", JStr "book")]).
  pose (old := JObj [("_id", JStr "a"); ("name", JStr "Alice");
                     ("_table", JStr "users")]).
  pose (run := insert doc "orders" store_with_three).
  pose (r := match fst run with
             | Returned r => r
             | Threw _ => nothing_found "insert"
             end).
  assert (Hinit : initialized (db store_with_three) = true)
    by (vm_compute; reflexivity).
  assert (Hwf : cache_well_formed (documentCache (db store_with_three)) = true)
    by (vm_compute; reflexivity).
  assert (Hother : "users"%string <> "orders"%string) by discriminate.
  assert (Hfound : findById (JStr "a") "users" store_with_three
                   = (Returned old, store_with_three))
    by (vm_compute; reflexivity).
  assert (Hold : old <> JNull) by discriminate.
  assert (Hrun : insert doc "orders" store_with_three = (Returned r, taken))
    by (vm_compute; reflexivity).
  assert (Hsuccess : success r = true) by (vm_compute; reflexivity).
  destruct (insert_takes_over_identifier store_with_three doc (JStr "a") old
              "orders" "users" r taken
              Hinit Hwf eq_refl eq_refl Hother Hfound Hold Hrun Hsuccess)
    as (Hfind & _ & Hlength).
  split; [ exact Hfind | ]. rewrite Hlength. vm_compute. reflexivity.
Defined.


Lemma encodeDocument_injective_witness :
  json_data sample_document = true
  /\ encodeDocument sample_document "TDB:" = encodeDocument sample_document "TDB:"
  /\ sample_document = sample_document.
Proof.
  split; [ reflexivity | ]. split; [ reflexivity | ].
  apply (encodeDocument_injective sample_document sample_document "TDB:");
    reflexivity.
Defined.

Lemma listener_caches_document_witness :
  let zed := [("_id", JStr "z1"); ("_table", JStr "users"); ("name", JStr "Zed")] in
  let ctx := {| message_id := 7;
                text := Some (encodeDocument (JObj zed) "TDB:");
                chat := "-1001" |} in
  onMessage ctx (mkWorld fresh_store empty_chat)
  = (Returned tt,
     mkWorld (set_documentCache [(JStr "z1", JObj zed)]
                (set_messageIndex [(JStr "z1", JNum 7)] fresh_store))
             empty_chat).
Proof.
  intros zed ctx.
  apply (listener_caches_document (mkWorld fresh_store empty_chat) ctx zed
                                  (JStr "z1")); reflexivity.
Defined.

Lemma listener_ignores_other_messages_witness :
  onMessage {| message_id := 8;
               text := Some (encodeDocument john "TDB:");
               chat := "-42" |} store_with_john
  = (Returned tt, store_with_john).
Proof.
  apply (listener_ignores_other_messages store_with_john).
  right. right. left. discriminate.
Defined.

Lemma listener_adopts_snapshot_witness :
  let sender := db store_with_three in
  let ctx := {| message_id := 9;
                text := Some (encodeDocument (snapshot sender 1700000000005)
                                             "TDB:INDEX:");
                chat := "-1001" |} in
  let received := after (onMessage ctx store_with_john) in
  messageIndex (db received) = messageIndex sender
  /\ List.length (documentCache (db received)) = 4%nat
  /\ indexMessageId (db received) = JNum 9.
Proof.
  intros sender ctx received.
  assert (Hdata : snapshot_data sender = true) by (vm_compute; reflexivity).
  assert (Hdistinct : distinct_keys (messageIndex sender) = true)
    by (vm_compute; reflexivity).
  assert (Htext : text ctx
                  = Some (encodeDocument (snapshot sender 1700000000005)
                            (prefix (db store_with_john) ++ "INDEX:")))
    by reflexivity.
  assert (Hchat : chat ctx = chatId (db store_with_john)) by reflexivity.
  pose proof (listener_adopts_snapshot store_with_john ctx sender 1700000000005
                Hdata Hdistinct Htext Hchat) as Hrun.
  subst received. rewrite Hrun. unfold after. cbn [snd db messageIndex
    set_indexMessageId set_documentCache set_messageIndex documentCache
    indexMessageId].
  split; [ reflexivity | ]. split; [ vm_compute; reflexivity | reflexivity ].
Defined.

Lemma insertMany_results_witness :
  exists rs w',
    insertMany [alice; bob] "users" None (mkWorld fresh_store empty_chat)
    = (Returned rs, w')
    /\ List.length rs = 2%nat.
Proof.
  assert (Hready : ready (db (mkWorld fresh_store empty_chat)))
    by (split; [ reflexivity | cbn; lia ]).
  destruct (insertMany_results [alice; bob] "users" None
              (mkWorld fresh_store empty_chat) Hready)
    as (rs & w' & Hrun & _ & Hall & _).
  exists rs, w'. split; [ exact Hrun | ]. now apply Hall.
Defined.

Lemma writes_that_find_nothing_witness :
  delete (JObj [("name", JStr "Nobody")]) "users" store_with_john
  = (Returned (nothing_found "delete"), store_with_john)
  /\ update (JObj [("name", JStr "Nobody")]) (JObj [("age", JNum 1)]) "users"
            merge_mode store_with_john
     = (Returned (nothing_found "update"), store_with_john).
Proof.
  assert (Hinit : initialized (db store_with_john) = true)
    by (vm_compute; reflexivity).
  assert (Hfind : find_matching (JObj [("name", JStr "Nobody")]) "users"
                                store_with_john
                  = (Returned [], store_with_john))
    by (vm_compute; reflexivity).
  destruct (writes_that_find_nothing store_with_john
              (JObj [("name", JStr "Nobody")]) (JObj [("age", JNum 1)])
              "users" merge_mode Hinit Hfind) as (Hdelete & Hupdate & _).
  split; [ exact Hdelete | now apply Hupdate ].
Defined.

Lemma close_forgets_documents_witness :
  find (JObj []) "users" (after (close store_with_john))
  = (Returned [],
     mkWorld (initialized_anew (db store_with_john)) (channel store_with_john)).
Proof.
  apply (close_forgets_documents store_with_john (JObj []) "users"
           (channel store_with_john) (channel store_with_john));
    vm_compute; reflexivity.
Defined.

Lemma getTables_lists_tables_witness :
  exists tables,
    getTables store_with_john = (Returned tables, store_with_john)
    /\ In (JStr "users") tables.
Proof.
  assert (Hinit : initialized (db store_with_john) = true)
    by (vm_compute; reflexivity).
  assert (Hdocs : forall doc,
            In doc (Map_values (documentCache (db store_with_john))) ->
            nullish doc = false).
  { intros doc Hdoc. vm_compute in Hdoc. destruct Hdoc as [<- | []].
    reflexivity. }
  destruct (getTables_lists_tables store_with_john Hinit Hdocs)
    as (tables & Hrun & Hin & _).
  exists tables. split; [ exact Hrun | ].
  apply Hin. split; [ reflexivity | ].
  eexists. split; [ vm_compute; left; reflexivity | reflexivity ].
Defined.

Lemma getStats_of_store_witness :
  exists stats,
    getStats (Some "users") store_with_two = (Returned stats, store_with_two)
    /\ totalDocuments stats = 2%nat
    /\ totalMessages stats = 2%nat
    /\ In (oldestDocument stats) (stats_documents store_with_two (Some "users"))
    /\ number_lt (stamp (JObj [("name", JStr "John"); ("age", JNum 30);
                               ("_id", JStr "1700000000000-k3x9");
                               ("_table", JStr "users")]))
                 (stamp (oldestDocument stats)) = false.
Proof.
  assert (Hinit : initialized (db store_with_two) = true)
    by (vm_compute; reflexivity).
  assert (Hids : forall doc,
            In doc (Map_values (documentCache (db store_with_two))) ->
            has_string_id doc = true /\ exact (stamp doc) = true).
  { intros doc Hdoc. vm_compute in Hdoc.
    destruct Hdoc as [<- | [<- | []]]; split; vm_compute; reflexivity. }
  destruct (getStats_of_store store_with_two (Some "users") Hinit Hids)
    as (stats & Hrun & Hdocs & Hmessages & _ & Hin & Hleast).
  exists stats. split; [ exact Hrun | ]. rewrite Hdocs, Hmessages.
  split; [ vm_compute; reflexivity | ].
  split; [ vm_compute; reflexivity | ].
  assert (Hjohn : In (JObj [("name", JStr "John"); ("age", JNum 30);
                            ("_id", JStr "1700000000000-k3x9");
                            ("_table", JStr "users")])
                     (stats_documents store_with_two (Some "users")))
    by (vm_compute; left; reflexivity).
  assert (Hsome : stats_documents store_with_two (Some "users") <> [])
    by (vm_compute; discriminate).
  split; [ exact (proj1 (Hin Hsome)) | exact (proj1 (Hleast _ Hjohn)) ].
Defined.

Lemma generated_id_stamp_witness :
  exists id c,
    generateId (mkWorld fresh_store empty_chat)
    = (Returned (JStr id), mkWorld fresh_store c)
    /\ parseInt (before_hyphen id) = Some 1700000000000.
Proof.
  assert (Hnow : 0 <= fst (Date_now (channel (mkWorld fresh_store empty_chat))))
    by (vm_compute; discriminate).
  destruct (generated_id_stamp (mkWorld fresh_store empty_chat) john Hnow)
    as (id & c & Hgen & Hstamp & _).
  exists id, c. split; [ exact Hgen | exact Hstamp ].
Defined.

Lemma find_answers_only_the_table_witness :
  let found := JObj [("name", JStr "John"); ("age", JNum 30);
                     ("_id", JStr "1700000000000-k3x9");
                     ("_table", JStr "users")] in
  In found (table_documents store_with_john "users")
  /\ matchesFilter found
       (with_table (JObj [("_table", JStr "orders")]) "users")
     = Returned true.
Proof.
  intros found.
  assert (Hinit : initialized (db store_with_john) = true)
    by (vm_compute; reflexivity).
  assert (Hrun : find (JObj [("_table", JStr "orders")]) "users" store_with_john
                 = (Returned [found], store_with_john))
    by (vm_compute; reflexivity).
  destruct (find_answers_only_the_table store_with_john
              (JObj [("_table", JStr "orders")]) "users" [found]
              store_with_john Hinit Hrun) as (_ & Hdocs).
  apply Hdocs. now left.
Defined.

Lemma count_agrees_with_find_witness :
  count (JObj [("name", JStr "Bob")]) "users" store_with_three
  = (Returned 1%nat, store_with_three).
Proof.
  assert (Hinit : initialized (db store_with_three) = true)
    by (vm_compute; reflexivity).
  assert (Hrun : find (JObj [("name", JStr "Bob")]) "users" store_with_three
                 = (Returned [JObj [("_id", JStr "b"); ("name", JStr "Bob");
                                    ("_table", JStr "users")]],
                    store_with_three))
    by (vm_compute; reflexivity).
  exact (count_agrees_with_find store_with_three
           (JObj [("name", JStr "Bob")]) "users" _ store_with_three Hinit Hrun).
Defined.
